(** * Karr invariants for Horn clauses: the karr_relation domain and its driver

    A shallow embedding of [src/muz_qe/dl_mk_karr_invariants.cpp]: the
    [matrix] container, the [karr_relation] abstract value with its lazily
    maintained constraint and basis forms, the plugin's dualizers and
    operator closures, the invariant driver [mk_karr_invariants] and its
    model converter.

    Conventions of the embedding.
    - [rational] is [Qc], rationals in lowest terms, as z3's normalised
      [rational]; [==] on rationals is Leibniz equality on [Qc].
    - A [vector<T>] is a [list T].  [operator[]] asserts that the index is in
      range; an access out of range is an assertion violation, written as
      [None] in the error monad [option] (stdpp's [x ← m; k]).  The other
      [SASSERT]s, on flags, are compiled out of a release build and are
      not modelled.
    - [mutable] members changed by const methods ([init_ineqs],
      [init_basis]) are threaded explicitly: every method returns the
      updated object.
    - The Hilbert basis saturator, [flatten_and], the inner Datalog engine
      and the rule transforms are external collaborators; they enter as
      interface records. *)

From Stdlib Require Import QArith Qcanon ZArith Lia Bool.
From stdpp Require Import base option list gmap.

Set Warnings "-register-all".
Open Scope Qc_scope.

(** ** Rationals and vectors *)

Abbreviation rational := Qc.

Definition rational_of_Z (k : Z) : rational := Q2Qc (inject_Z k).

(** [rational::is_int]: the denominator of the normal form is one. *)
Definition is_int_rational (n : rational) : bool := Pos.eqb (Qden (this n)) 1.

Definition is_zero (n : rational) : bool := Qc_eq_bool n 0.
Definition is_one (n : rational) : bool := Qc_eq_bool n 1.

(** [n1 > n2] on rationals. *)
Definition rational_gt (n1 n2 : rational) : bool :=
  match n1 ?= n2 with Gt => true | _ => false end.

(** [row.resize(n)] on a fresh vector: [n] default-constructed rationals. *)
Definition zero_row (n : nat) : list rational := replicate n 0.

(** [v[i]] as an rvalue. *)
Definition get {T} (v : list T) (i : nat) : option T := v !! i.

(** [v[i] = x]. *)
Definition set {T} (v : list T) (i : nat) (x : T) : option (list T) :=
  if decide (i < length v)%nat then Some (<[i:=x]> v) else None.

(** ** matrix *)

Module matrix.

(** Three parallel vectors, as declared for [struct matrix]. *)
Record t := mk {
  A  : list (list rational);
  b  : list rational;
  eq : list bool
}.

Definition empty : t := mk [] [] [].

Definition size (M : t) : nat := length (A M).

Definition reset (M : t) : t := empty.

Definition append (M other : t) : t :=
  mk (A M ++ A other) (b M ++ b other) (eq M ++ eq other).

(** [matrix::operator=]: reset, then append. *)
Definition assign (M other : t) : t := append (reset M) other.

(** The three [push_back]s that add one row. *)
Definition push (M : t) (row : list rational) (c : rational) (is_eq : bool) : t :=
  mk (A M ++ [row]) (b M ++ [c]) (eq M ++ [is_eq]).

(** [(M.A[i], M.b[i], M.eq[i])]. *)
Definition row (M : t) (i : nat) : option (list rational * rational * bool) :=
  r ← get (A M) i; c ← get (b M) i; e ← get (eq M) i; Some (r, c, e).

(** The rows read by a loop [for (i = 0; i < M.size(); ++i)]. *)
Definition rows (M : t) : option (list (list rational * rational * bool)) :=
  mapM (row M) (seq 0 (size M)).

(** The inverse of [rows]: push the rows one by one. *)
Definition of_rows (l : list (list rational * rational * bool)) : t :=
  mk (l.*1.*1) (l.*1.*2) (l.*2).

(** Data invariant: the three vectors have the same length. *)
Definition wf (M : t) : Prop :=
  length (b M) = length (A M) ∧ length (eq M) = length (A M).

(** All rows have width [n]. *)
Definition width (n : nat) (M : t) : Prop :=
  Forall (λ r, length r = n) (A M).

End matrix.

(** ** The symbolic layer *)

Inductive sort := int_sort | real_sort | bool_sort | other_sort.

(** An uninterpreted declaration: its identity and its domain. *)
Record func_decl := mk_func_decl {
  decl_id : nat;
  get_domain : list sort
}.

Definition get_arity (f : func_decl) : nat := length (get_domain f).

Inductive decl_kind :=
| OP_ADD | OP_SUB | OP_MUL | OP_UMINUS
| OP_LE | OP_GE | OP_LT | OP_GT
| OP_EQ | OP_NOT | OP_OR | OP_AND | OP_TRUE | OP_FALSE
| OP_UNINTERPRETED (f : func_decl).

(** Expressions: variables by de Bruijn index, arithmetic numerals,
    applications (with the range of their declaration) and quantifiers. *)
Inductive expr :=
| mk_var (idx : nat) (s : sort)
| mk_numeral (n : rational) (is_int : bool)
| mk_app (k : decl_kind) (range : sort) (args : list expr)
| mk_quantifier (body : expr).

#[global] Instance sort_eq_dec : EqDecision sort.
Proof. solve_decision. Defined.

#[global] Instance func_decl_eq_dec : EqDecision func_decl.
Proof. solve_decision. Defined.

Definition sort_code (s : sort) : nat :=
  match s with int_sort => 0 | real_sort => 1 | bool_sort => 2 | other_sort => 3 end.

Definition sort_decode (n : nat) : sort :=
  match n with 0 => int_sort | 1 => real_sort | 2 => bool_sort | _ => other_sort end.

#[global] Instance sort_countable : Countable sort.
Proof. apply (inj_countable' sort_code sort_decode). by intros []. Defined.

#[global] Instance func_decl_countable : Countable func_decl.
Proof.
  apply (inj_countable' (λ f, (decl_id f, get_domain f))
                        (λ p, mk_func_decl p.1 p.2)).
  by intros [].
Defined.

Definition mk_true : expr := mk_app OP_TRUE bool_sort [].
Definition mk_false : expr := mk_app OP_FALSE bool_sort [].
Definition mk_int : sort := int_sort.
Definition mk_add (args : list expr) : expr := mk_app OP_ADD int_sort args.
Definition mk_mul (e1 e2 : expr) : expr := mk_app OP_MUL int_sort [e1; e2].
Definition mk_eq (e1 e2 : expr) : expr := mk_app OP_EQ bool_sort [e1; e2].
Definition mk_ge (e1 e2 : expr) : expr := mk_app OP_GE bool_sort [e1; e2].
Definition mk_le (e1 e2 : expr) : expr := mk_app OP_LE bool_sort [e1; e2].
Definition mk_lt (e1 e2 : expr) : expr := mk_app OP_LT bool_sort [e1; e2].
Definition mk_gt (e1 e2 : expr) : expr := mk_app OP_GT bool_sort [e1; e2].
Definition mk_not (e : expr) : expr := mk_app OP_NOT bool_sort [e].
Definition mk_or (e1 e2 : expr) : expr := mk_app OP_OR bool_sort [e1; e2].
(** [ast_manager::mk_and(a, b)]: the plain binary application. *)
Definition mk_and (e1 e2 : expr) : expr := mk_app OP_AND bool_sort [e1; e2].

Definition get_sort (e : expr) : sort :=
  match e with
  | mk_var _ s => s
  | mk_numeral _ true => int_sort
  | mk_numeral _ false => real_sort
  | mk_app _ range _ => range
  | mk_quantifier _ => bool_sort
  end.

(** [arith_util::is_int(e)]. *)
Definition is_int (e : expr) : bool := bool_decide (get_sort e = int_sort).

Definition is_var (e : expr) : bool :=
  match e with mk_var _ _ => true | _ => false end.

Definition is_app (e : expr) : bool :=
  match e with mk_numeral _ _ | mk_app _ _ _ => true | _ => false end.

(** [arith_util::is_numeral(e, n)]. *)
Definition is_numeral (e : expr) : option rational :=
  match e with mk_numeral n _ => Some n | _ => None end.

(** [ast_manager::is_true(e)]. *)
Definition m_is_true (e : expr) : bool :=
  match e with mk_app OP_TRUE _ [] => true | _ => false end.

(** The binary recognisers [is_eq(e, e1, e2)], [is_le(e, e1, e2)], ...:
    [Some (first argument, second argument)] when [e] has the shape. *)
Definition is_binary (k : decl_kind → bool) (e : expr) : option (expr * expr) :=
  match e with
  | mk_app k' _ [e1; e2] => if k k' then Some (e1, e2) else None
  | _ => None
  end.

Definition m_is_eq := is_binary (λ k, match k with OP_EQ => true | _ => false end).
Definition is_le := is_binary (λ k, match k with OP_LE => true | _ => false end).
Definition is_ge := is_binary (λ k, match k with OP_GE => true | _ => false end).
Definition is_lt := is_binary (λ k, match k with OP_LT => true | _ => false end).
Definition is_gt := is_binary (λ k, match k with OP_GT => true | _ => false end).
Definition is_or := is_binary (λ k, match k with OP_OR => true | _ => false end).

Definition is_not (e : expr) : option expr :=
  match e with mk_app OP_NOT _ [en] => Some en | _ => None end.

(** ** ConstraintParser: [is_eq] and [is_linear] *)

(** [karr_relation::is_eq(e, v, n)]: [e] is [v = n] or [n = v] for a
    variable [v] (returned as index and sort) and a numeral [n]. *)
Definition is_eq (e : expr) : option (nat * sort * rational) :=
  match m_is_eq e with
  | None => None
  | Some (e1, e2) =>
      let '(e1, e2) := if is_var e1 then (e1, e2) else (e2, e1) in
      match e1 with
      | mk_var idx s =>
          match is_numeral e2 with
          | Some n => Some (idx, s, n)
          | None => None
          end
      | _ => None
      end
  end.

(** [karr_relation::is_linear(e, row, b, mul)].  [row] and [b] are updated
    in place, also on the way to a failure, so the result carries them
    next to the returned flag. *)
Fixpoint is_linear (e : expr) (row : list rational) (b mul : rational)
  : option (bool * list rational * rational) :=
  if negb (is_int e) then Some (false, row, b) else
  match e with
  | mk_var idx _ =>
      c ← get row idx; row' ← set row idx (c + mul); Some (true, row', b)
  | mk_quantifier _ => Some (false, row, b)
  | mk_numeral n _ => Some (true, row, b + mul * n)
  | mk_app OP_ADD _ args =>
      (fix loop (args : list expr) (row : list rational) (b : rational) :=
         match args with
         | [] => Some (true, row, b)
         | a :: args' =>
             '(ok, row', b') ← is_linear a row b mul;
             if ok : bool then loop args' row' b' else Some (false, row', b')
         end) args row b
  | mk_app OP_SUB _ [e1; e2] =>
      '(ok, row', b') ← is_linear e1 row b mul;
      if ok : bool then is_linear e2 row' b' (- mul) else Some (false, row', b')
  | mk_app OP_MUL _ [e1; e2] =>
      match is_numeral e1 with
      | Some n => is_linear e2 row b (mul * n)
      | None =>
          match is_numeral e2 with
          | Some n => is_linear e1 row b (mul * n)
          | None => Some (false, row, b)
          end
      end
  | mk_app OP_UMINUS _ [e1] => is_linear e1 row b (- mul)
  | mk_app _ _ _ => Some (false, row, b)
  end.

(** ** FormulaEmitter *)

(** The summands of one row, from column [i] on. *)
Fixpoint to_formula_sum (i : nat) (row : list rational) : list expr :=
  match row with
  | [] => []
  | c :: row' =>
      if is_zero c then to_formula_sum (S i) row'
      else if is_one c then mk_var i mk_int :: to_formula_sum (S i) row'
      else mk_mul (mk_numeral c true) (mk_var i mk_int) :: to_formula_sum (S i) row'
  end.

(** [karr_relation::to_formula(row, b, is_eq, conj)]: the conjunct pushed. *)
Definition to_formula_row (row : list rational) (b : rational) (is_eq : bool) : expr :=
  let zero := mk_numeral 0 true in
  let sum := to_formula_sum 0 row ++ (if is_zero b then [] else [mk_numeral b true]) in
  let lhs := mk_add sum in
  if is_eq then mk_eq lhs zero else mk_ge lhs zero.

(** Modelled from the spec: [bool_rewriter::mk_and(n, args, result)] is
    not part of this file.  The emitter "emits a symbolic conjunction" and
    "an empty matrix maps to [true]"; a single conjunct stands for itself. *)
Definition bool_rewriter_mk_and (args : list expr) : expr :=
  match args with
  | [] => mk_true
  | [e] => e
  | _ => mk_app OP_AND bool_sort args
  end.

(** ** The Hilbert basis saturator (external) *)

Inductive lbool := l_false | l_undef | l_true.

(** One call of [add_eq(v, rhs)] or [add_ge(v, rhs)]. *)
Inductive hb_constraint :=
| add_eq (v : list rational) (rhs : rational)
| add_ge (v : list rational) (rhs : rational).

(** What the saturator has been fed since [reset]. *)
Record hb_input := mk_hb_input {
  hb_constraints : list hb_constraint;
  hb_is_int : list nat
}.

(** The contract the engine relies on: [saturate] answers with an [lbool]
    or throws ([None]); after [l_true], [get_basis_solution] enumerates
    solutions, each flagged initial or not. *)
Class hilbert_basis := {
  saturate : hb_input → option lbool;
  get_basis_solution : hb_input → list (list rational * bool)
}.

(** ** Dualizer *)

(** The basis rows emitted by [dualizeI] after [l_true]. *)
Fixpoint dualizeI_basis (sols : list (list rational * bool)) (first_initial : bool)
    (dst : matrix.t) : matrix.t :=
  match sols with
  | [] => dst
  | (soln, is_initial) :: sols' =>
      if is_initial && first_initial
      then dualizeI_basis sols' false (matrix.push dst soln 1 true)
      else if negb is_initial
      then dualizeI_basis sols' first_initial (matrix.push dst soln 0 true)
      else dualizeI_basis sols' first_initial dst
  end.

Definition dualizeI_input (src : matrix.t) : option hb_input :=
  rows ← matrix.rows src;
  Some (mk_hb_input
          (map (λ '(r, c, e), if e : bool then add_eq r (- c) else add_ge r (- c)) rows)
          (match matrix.A src with
           | [] => []
           | r0 :: _ => seq 0 (length r0)
           end)).

(** [try { is_sat = m_hb.saturate(); } catch (...) { is_sat = l_undef; }] *)
Definition saturate_guarded `{hilbert_basis} (hb : hb_input) : lbool :=
  match saturate hb with
  | Some is_sat => is_sat
  | None => l_undef
  end.

(** [karr_relation_plugin::dualizeI(dst, src)]: the returned flag and [dst]. *)
Definition dualizeI `{hilbert_basis} (src : matrix.t) : option (bool * matrix.t) :=
  hb ← dualizeI_input src;
  match saturate_guarded hb with
  | l_false => Some (false, matrix.empty)
  | l_undef => Some (true, matrix.empty)
  | l_true => Some (true, dualizeI_basis (get_basis_solution hb) true matrix.empty)
  end.

(** The constraint rows read back by [dualizeH]. *)
Fixpoint dualizeH_basis (sols : list (list rational * bool)) (dst : matrix.t)
  : option matrix.t :=
  match sols with
  | [] => Some dst
  | (soln, is_initial) :: sols' =>
      if is_initial then dualizeH_basis sols' dst
      else
        back ← last soln;
        dualizeH_basis sols' (matrix.push dst (removelast soln) back true)
  end.

Definition dualizeH_input (src : matrix.t) : option hb_input :=
  rows ← matrix.rows src;
  r0 ← get (matrix.A src) 0;
  Some (mk_hb_input
          (map (λ '(r, c, e), if e : bool then add_eq (r ++ [c]) 0 else add_ge (r ++ [c]) 0) rows)
          (seq 0 (1 + length r0))).

(** [karr_relation_plugin::dualizeH(dst, src)]. *)
Definition dualizeH `{hilbert_basis} (src : matrix.t) : option matrix.t :=
  if decide (matrix.size src = 0)%nat then Some matrix.empty
  else
    hb ← dualizeH_input src;
    match saturate_guarded hb with
    | l_true => dualizeH_basis (get_basis_solution hb) matrix.empty
    | _ => Some matrix.empty
    end.

(** ** karr_relation *)

Record karr_relation := mk_karr_relation {
  signature : list sort;
  m_fn : option func_decl;
  m_empty : bool;
  m_ineqs : matrix.t;
  m_ineqs_valid : bool;
  m_basis : matrix.t;
  m_basis_valid : bool
}.

Definition with_fn (f : option func_decl) (r : karr_relation) : karr_relation :=
  mk_karr_relation (signature r) f (m_empty r) (m_ineqs r) (m_ineqs_valid r)
                   (m_basis r) (m_basis_valid r).
Definition with_empty (e : bool) (r : karr_relation) : karr_relation :=
  mk_karr_relation (signature r) (m_fn r) e (m_ineqs r) (m_ineqs_valid r)
                   (m_basis r) (m_basis_valid r).
Definition with_ineqs (M : matrix.t) (r : karr_relation) : karr_relation :=
  mk_karr_relation (signature r) (m_fn r) (m_empty r) M (m_ineqs_valid r)
                   (m_basis r) (m_basis_valid r).
Definition with_ineqs_valid (v : bool) (r : karr_relation) : karr_relation :=
  mk_karr_relation (signature r) (m_fn r) (m_empty r) (m_ineqs r) v
                   (m_basis r) (m_basis_valid r).
Definition with_basis (M : matrix.t) (r : karr_relation) : karr_relation :=
  mk_karr_relation (signature r) (m_fn r) (m_empty r) (m_ineqs r) (m_ineqs_valid r)
                   M (m_basis_valid r).
Definition with_basis_valid (v : bool) (r : karr_relation) : karr_relation :=
  mk_karr_relation (signature r) (m_fn r) (m_empty r) (m_ineqs r) (m_ineqs_valid r)
                   (m_basis r) v.

(** The constructor [karr_relation(p, f, s, is_empty)]. *)
Definition new_karr_relation (f : option func_decl) (s : list sort) (is_empty : bool)
  : karr_relation :=
  mk_karr_relation s f is_empty matrix.empty (negb is_empty) matrix.empty false.

(** [karr_relation_plugin::mk_empty] and [mk_full]. *)
Definition mk_empty (s : list sort) : karr_relation := new_karr_relation None s true.
Definition mk_full (p : option func_decl) (s : list sort) : karr_relation :=
  new_karr_relation p s false.

Definition empty (r : karr_relation) : bool := m_empty r.

(** [karr_relation::copy(other)]. *)
Definition copy (self other : karr_relation) : karr_relation :=
  mk_karr_relation (signature self) (m_fn self) (m_empty other)
    (matrix.assign (m_ineqs self) (m_ineqs other)) (m_ineqs_valid other)
    (matrix.assign (m_basis self) (m_basis other)) (m_basis_valid other).

(** [karr_relation::init_ineqs]; the [SASSERT] is compiled out. *)
Definition init_ineqs `{hilbert_basis} (r : karr_relation) : option karr_relation :=
  if m_ineqs_valid r then Some r
  else
    dst ← dualizeH (m_basis r);
    Some (with_ineqs_valid true (with_ineqs dst r)).

(** [karr_relation::init_basis]. *)
Definition init_basis `{hilbert_basis} (r : karr_relation) : option karr_relation :=
  if m_basis_valid r then Some r
  else
    '(ok, dst) ← dualizeI (m_ineqs r);
    if ok : bool then Some (with_basis_valid true (with_basis dst r))
    else Some (with_empty true (with_basis dst r)).

(** [get_ineqs()] and [get_basis()] return a reference into the relation
    they have just initialised; the relation is returned. *)
Definition get_ineqs `{hilbert_basis} := init_ineqs.
Definition get_basis `{hilbert_basis} := init_basis.

(** [karr_relation::add_fact(f)]: the rows pushed from component [i] on. *)
Fixpoint add_fact_rows (size : nat) (i : nat) (f : list expr) (M : matrix.t) : matrix.t :=
  match f with
  | [] => M
  | fi :: f' =>
      match is_numeral fi with
      | Some n =>
          if is_int_rational n
          then add_fact_rows size (S i) f'
                 (matrix.push M (<[i:=1]> (zero_row size)) (- n) true)
          else add_fact_rows size (S i) f' M
      | None => add_fact_rows size (S i) f' M
      end
  end.

Definition add_fact (f : list expr) (r : karr_relation) : karr_relation :=
  with_ineqs (add_fact_rows (length f) 0 f (m_ineqs r))
             (with_ineqs_valid true (with_empty false r)).

(** [karr_relation::to_formula(fml)]. *)
Definition to_formula `{hilbert_basis} (r : karr_relation) : option expr :=
  if empty r then Some mk_false
  else
    r' ← get_ineqs r;
    rows ← matrix.rows (m_ineqs r');
    Some (bool_rewriter_mk_and (map (λ '(row, c, e), to_formula_row row c e) rows)).

(** *** filter_interpreted *)

(** What one arm of the [if / else if] chain leaves behind: either the
    matrix with the rows it pushed, or the (possibly updated) [row] and [b]
    that the next arm starts from. *)
Inductive arm :=
| processed (M : matrix.t)
| next_arm (row : list rational) (b : rational).

(** [pattern && is_linear(e1, row, b, mul1) && is_linear(e2, row, b, mul2)]
    followed by the arm's body [emit]. *)
Definition linear_arm (pattern : option (expr * expr)) (mul1 mul2 : rational)
    (emit : list rational → rational → matrix.t)
    (row : list rational) (b : rational) : option arm :=
  match pattern with
  | None => Some (next_arm row b)
  | Some (e1, e2) =>
      '(ok1, row1, b1) ← is_linear e1 row b mul1;
      if ok1 : bool then
        '(ok2, row2, b2) ← is_linear e2 row1 b1 mul2;
        if ok2 : bool then Some (processed (emit row2 b2))
        else Some (next_arm row2 b2)
      else Some (next_arm row1 b1)
  end.

Definition swap_pair {T} (p : T * T) : T * T := (p.2, p.1).

(** The patterns, each giving the pair [(e1, e2)] as the code binds it. *)
Definition pattern_le (e : expr) : option (expr * expr) :=
  match is_le e with
  | Some p => Some p
  | None => swap_pair <$> is_ge e
  end.

Definition pattern_lt (e : expr) : option (expr * expr) :=
  match is_lt e with
  | Some p => Some p
  | None => swap_pair <$> is_gt e
  end.

Definition pattern_not_lt (e : expr) : option (expr * expr) :=
  match is_not e with
  | None => None
  | Some en =>
      match is_lt en with
      | Some p => Some (swap_pair p)
      | None => is_gt en
      end
  end.

Definition pattern_not_le (e : expr) : option (expr * expr) :=
  match is_not e with
  | None => None
  | Some en =>
      match is_le en with
      | Some p => Some (swap_pair p)
      | None => is_ge en
      end
  end.

(** The last arm: [(v = n1) ∨ (w = n2)] with [v == w]. *)
Definition or_arm (e : expr) (M : matrix.t) (row : list rational) (b : rational)
  : option arm :=
  match is_or e with
  | None => Some (next_arm row b)
  | Some (e1, e2) =>
      match is_eq e1 with
      | None => Some (next_arm row b)
      | Some (v, sv, n1) =>
          match is_eq e2 with
          | None => Some (next_arm row b)
          | Some (w, sw, n2) =>
              if decide ((v, sv) = (w, sw)) then
                let '(n1, n2) := if rational_gt n1 n2 then (n2, n1) else (n1, n2) in
                row1 ← set row v 1;
                let M1 := matrix.push M row1 (- n1) false in
                row2 ← set row1 v (-1);
                Some (processed (matrix.push M1 row2 n2 false))
              else Some (next_arm row b)
          end
      end
  end.

Definition else_if (a : option arm) (k : list rational → rational → option arm)
  : option arm :=
  a ← a;
  match a with
  | processed M => Some (processed M)
  | next_arm row b => k row b
  end.

(** The body of the loop over the conjuncts, for the conjunct [e]. *)
Definition filter_interpreted_conj (num_columns : nat) (M : matrix.t) (e : expr)
  : option matrix.t :=
  let b : rational := 0 in
  let row := zero_row num_columns in
  a ← else_if (linear_arm (m_is_eq e) 1 (-1) (λ row b, matrix.push M row b true) row b) (λ row b,
       else_if (linear_arm (pattern_le e) (-1) 1 (λ row b, matrix.push M row b false) row b) (λ row b,
       else_if (linear_arm (pattern_lt e) (-1) 1 (λ row b, matrix.push M row (b - 1) false) row b) (λ row b,
       else_if (linear_arm (pattern_not_lt e) (-1) 1 (λ row b, matrix.push M row b false) row b) (λ row b,
       else_if (linear_arm (pattern_not_le e) (-1) 1 (λ row b, matrix.push M row (b - 1) false) row b) (λ row b,
       or_arm e M row b)))));
  match a with
  | processed M' => Some M'
  | next_arm _ _ => Some M
  end.

Fixpoint filter_interpreted_loop (num_columns : nat) (conjs : list expr) (M : matrix.t)
  : option matrix.t :=
  match conjs with
  | [] => Some M
  | e :: conjs' =>
      M' ← filter_interpreted_conj num_columns M e;
      filter_interpreted_loop num_columns conjs' M'
  end.

(** [datalog::flatten_and] (external). *)
Class dl_util := { flatten_and : expr → list expr }.

(** [karr_relation::filter_interpreted(cond)]. *)
Definition filter_interpreted `{hilbert_basis, dl_util} (cond : expr) (r : karr_relation)
  : option karr_relation :=
  let conjs := flatten_and cond in
  r1 ← get_ineqs r;
  M ← filter_interpreted_loop (length (signature r1)) conjs (m_ineqs r1);
  Some (with_ineqs M r1).

(** *** mk_rename *)

(** [row[cols[i]] = row[cols[i+1]]] for the indices [i] in [ixs]. *)
Fixpoint rename_shift (cols : list nat) (row : list rational) (ixs : list nat)
  : option (list rational) :=
  match ixs with
  | [] => Some row
  | i :: ixs' =>
      ci ← get cols i; cj ← get cols (i + 1);
      x ← get row cj;
      row' ← set row ci x;
      rename_shift cols row' ixs'
  end.

(** The body of the loop of [mk_rename(matrix&, col_cnt, cols)] for one row. *)
Definition rename_row (cols : list nat) (row : list rational) : option (list rational) :=
  let col_cnt := length cols in
  c0 ← get cols 0;
  tmp ← get row c0;
  row' ← rename_shift cols row (seq 0 (col_cnt - 1));
  clast ← get cols (col_cnt - 1);
  set row' clast tmp.

(** [karr_relation::mk_rename(matrix& M, col_cnt, cols)]. *)
Definition mk_rename_matrix (M : matrix.t) (cols : list nat) : option matrix.t :=
  A' ← mapM (rename_row cols) (matrix.A M);
  Some (matrix.mk A' (matrix.b M) (matrix.eq M)).

(** [karr_relation::mk_rename(r, col_cnt, cols)], called on [self]. *)
Definition mk_rename (self r : karr_relation) (cols : list nat) : option karr_relation :=
  if empty r then Some (with_empty true self)
  else
    ineqs ← (if m_ineqs_valid r
             then mk_rename_matrix (matrix.append matrix.empty (m_ineqs r)) cols
             else Some matrix.empty);
    basis ← (if m_basis_valid r
             then mk_rename_matrix (matrix.append matrix.empty (m_basis r)) cols
             else Some matrix.empty);
    Some (mk_karr_relation (signature self) (m_fn r) (m_empty self)
            ineqs (m_ineqs_valid r) basis (m_basis_valid r)).

(** [rename_fn::operator()]: the result starts as a full relation of the
    closure's result signature. *)
Definition rename_fn (result_signature : list sort) (cycle : list nat)
    (r : karr_relation) : option karr_relation :=
  mk_rename (mk_full None result_signature) r cycle.

(** *** mk_union *)

Fixpoint same_row_loop (r1 r2 : list rational) (ixs : list nat) : option bool :=
  match ixs with
  | [] => Some true
  | i :: ixs' =>
      x ← get r1 i; y ← get r2 i;
      if decide (x = y) then same_row_loop r1 r2 ixs' else Some false
  end.

(** [karr_relation::same_row(r1, r2)]. *)
Definition same_row (r1 r2 : list rational) : option bool :=
  same_row_loop r1 r2 (seq 0 (length r1)).

(** [same_row(M.A[i], N.A[j]) && M.b[i] == N.b[j] && M.eq[i] == N.eq[j]]. *)
Definition found_at (M N : matrix.t) (i j : nat) : option bool :=
  r1 ← get (matrix.A M) i; r2 ← get (matrix.A N) j;
  same ← same_row r1 r2;
  if same : bool then
    c1 ← get (matrix.b M) i; c2 ← get (matrix.b N) j;
    if decide (c1 = c2) then
      e1 ← get (matrix.eq M) i; e2 ← get (matrix.eq N) j;
      Some (bool_decide (e1 = e2))
    else Some false
  else Some false.

(** [for (j = 0; !found && j < N_size; ++j)]. *)
Fixpoint find_row (M N : matrix.t) (i : nat) (js : list nat) : option bool :=
  match js with
  | [] => Some false
  | j :: js' =>
      found ← found_at M N i j;
      if found : bool then Some true else find_row M N i js'
  end.

(** The loop of [mk_union] over the rows [ixs] of [M]. *)
Fixpoint union_loop (M N : matrix.t) (N_size : nat) (ixs : list nat) : option matrix.t :=
  match ixs with
  | [] => Some N
  | i :: ixs' =>
      found ← find_row M N i (seq 0 N_size);
      if found : bool then union_loop M N N_size ixs'
      else
        '(r, c, e) ← matrix.row M i;
        union_loop M (matrix.push N r c e) N_size ixs'
  end.

(** [karr_relation::mk_union(src, delta)], called on [self].  [src] is
    returned too: materialising its basis changes its mutable members. *)
Definition mk_union `{hilbert_basis} (self src : karr_relation) (delta : option karr_relation)
  : option (karr_relation * karr_relation * option karr_relation) :=
  if empty src then Some (self, src, with_empty true <$> delta)
  else
    src' ← get_basis src;
    let M := m_basis src' in
    if empty self then
      let self' :=
        with_ineqs_valid false (with_empty false (with_basis_valid true
          (with_basis (matrix.assign (m_basis self) M) self))) in
      Some (self', src', (λ d, copy d self') <$> delta)
    else
      self1 ← get_basis self;
      let N := m_basis self1 in
      let N_size := matrix.size N in
      N' ← union_loop M N N_size (seq 0 (matrix.size M));
      let self2 := with_ineqs_valid false (with_basis N' self1) in
      Some (self2, src',
            if decide (N_size ≠ matrix.size N') then (λ d, copy d self2) <$> delta
            else delta).

(** [union_fn::operator()]. *)
Definition union_fn `{hilbert_basis} := mk_union.

(** *** filter_equal_fn *)

Record filter_equal_fn := mk_filter_equal {
  m_col : nat;
  m_value : rational;
  m_valid : bool
}.

(** The constructor [filter_equal_fn(m, value, col)]. *)
Definition new_filter_equal_fn (value : expr) (col : nat) : filter_equal_fn :=
  match is_numeral value with
  | Some n => mk_filter_equal col n (is_int_rational n)
  | None => mk_filter_equal col 0 false
  end.

(** [filter_equal_fn::operator()]. *)
Definition filter_equal_call `{hilbert_basis} (f : filter_equal_fn) (r : karr_relation)
  : option karr_relation :=
  if m_valid f then
    r1 ← get_ineqs r;
    row ← set (zero_row (length (signature r1))) (m_col f) 1;
    Some (with_basis_valid false
            (with_ineqs (matrix.push (m_ineqs r1) row (-1) true) r1))
  else Some r.

(** ** ModelConverter *)

(** A function interpretation without entries: its arity and its [else]
    branch (null for a partial interpretation). *)
Record func_interp := mk_func_interp {
  fi_arity : nat;
  get_else : option expr
}.

Definition is_partial (f : func_interp) : bool :=
  match get_else f with None => true | Some _ => false end.

Module add_invariant_model_converter.

Record t := mk {
  m_funcs : list func_decl;
  m_invs : list expr
}.

Definition new : t := mk [] [].

(** [add(p, inv)]. *)
Definition add (p : func_decl) (inv : expr) (mc : t) : t :=
  if negb (m_is_true inv) then mk (m_funcs mc ++ [p]) (m_invs mc ++ [inv])
  else mc.

(** The body of the loop of [operator()(model_ref & mr)] at index [i]. *)
Definition operator_step (mc : t) (mr : gmap func_decl func_interp) (i : nat)
  : option (gmap func_decl func_interp) :=
  p ← get (m_funcs mc) i;
  let arity := get_arity p in
  match mr !! p with
  | Some f =>
      match get_else f with
      | Some els =>
          inv ← get (m_invs mc) i;
          Some (<[p := mk_func_interp (fi_arity f) (Some (bool_rewriter_mk_and [els; inv]))]> mr)
      | None => Some (<[p := mk_func_interp (fi_arity f) None]> mr)
      end
  | None => Some (<[p := mk_func_interp arity (Some mk_false)]> mr)
  end.

Fixpoint operator_loop (mc : t) (mr : gmap func_decl func_interp) (ixs : list nat)
  : option (gmap func_decl func_interp) :=
  match ixs with
  | [] => Some mr
  | i :: ixs' => mr' ← operator_step mc mr i; operator_loop mc mr' ixs'
  end.

(** [operator()(model_ref & mr)]. *)
Definition operator_call (mc : t) (mr : gmap func_decl func_interp)
  : option (gmap func_decl func_interp) :=
  operator_loop mc mr (seq 0 (length (m_funcs mc))).

End add_invariant_model_converter.

(** ** InvariantDriver *)

(** A rule: head, tail (uninterpreted atoms first), and per tail atom
    whether it is negated. *)
Record rule := mk_rule {
  get_head : expr;
  get_tail : list expr;
  get_uninterpreted_tail_size : nat;
  is_neg_tail : list bool;
  name : nat
}.

Abbreviation rule_set := (list rule).

Definition get_tail_size (r : rule) : nat := length (get_tail r).

(** The declaration of an atom, when it is an uninterpreted one. *)
Definition get_decl (e : expr) : option func_decl :=
  match e with
  | mk_app (OP_UNINTERPRETED f) _ _ => Some f
  | _ => None
  end.

Definition get_args (e : expr) : list expr :=
  match e with
  | mk_app _ _ args => args
  | _ => []
  end.

(** Modelled from the spec: [rule::has_negation] is not part of this file.
    The driver refuses "input rule sets containing any negated
    uninterpreted atom". *)
Definition has_negation (r : rule) : bool :=
  existsb id (take (get_uninterpreted_tail_size r) (is_neg_tail r)).

(** The keys of [begin_grouped_rules() .. end_grouped_rules()]: the head
    declarations of the rules, each once. *)
Definition grouped_rules (src : rule_set) : list func_decl :=
  remove_dups (omap (λ r, get_decl (get_head r)) src).

(** The external collaborators of the driver: the configuration flag, the
    loop counter and backwards transforms, the rule manager, the safe
    replace facility, and the inner Datalog engine, which for a rule set
    gives the relations found by [rel_query] ([try_get_relation]). *)
Class driver_context := {
  karr : bool;
  lc : rule_set → rule_set;
  lc_revert : rule_set → rule_set;
  bwd : rule_set → rule_set;
  inherit_predicates : rule_set → rule_set → rule_set;
  rm_mk : expr → list expr → nat → rule;
  safe_replace : list (expr * expr) → expr → expr;
  rel_query : rule_set → func_decl → option karr_relation;
  get_model_converter : bool
}.

(** Modelled from the spec: the convention of [rule_transformer] for its
    plugins is not part of this file.  A plugin that returns [0] has done
    no transformation: "it is a no-op returning the input rule set
    unchanged". *)
Definition rule_transformer_result (source : rule_set) (result : option rule_set)
  : rule_set :=
  match result with
  | Some rules => rules
  | None => source
  end.

Module mk_karr_invariants.

(** The members the pass reads and writes, and the model converters
    registered with the outer context. *)
Record t := mk {
  m_fun2inv : gmap func_decl expr;
  m_pinned : list expr;
  m_cancel : bool;
  model_converters : list add_invariant_model_converter.t
}.

(** The body of the loop that retrieves the invariants, for [p]. *)
Definition get_invariants_step `{hilbert_basis}
    (rctx : func_decl → option karr_relation) (st : t) (p : func_decl) : option t :=
  match rctx p with
  | Some rb =>
      fml ← to_formula rb;
      if m_is_true fml then Some st
      else
        let fml :=
          match m_fun2inv st !! p with
          | Some inv => mk_and inv fml
          | None => fml
          end in
        Some (mk (<[p := fml]> (m_fun2inv st)) (m_pinned st ++ [fml])
                 (m_cancel st) (model_converters st))
  | None => Some st
  end.

Fixpoint get_invariants_loop `{hilbert_basis}
    (rctx : func_decl → option karr_relation) (st : t) (ps : list func_decl) : option t :=
  match ps with
  | [] => Some st
  | p :: ps' =>
      st' ← get_invariants_step rctx st p;
      get_invariants_loop rctx st' ps'
  end.

(** [get_invariants(src)]. *)
Definition get_invariants `{hilbert_basis, driver_context} (src : rule_set) (st : t)
  : option t :=
  get_invariants_loop (rel_query src) st (grouped_rules src).

(** The invariants appended by [update_body] for the uninterpreted tail
    atoms [ixs]. *)
Fixpoint update_body_loop `{driver_context} (fun2inv : gmap func_decl expr)
    (r : rule) (ixs : list nat) (tail : list expr) : option (list expr) :=
  match ixs with
  | [] => Some tail
  | i :: ixs' =>
      atom ← get (get_tail r) i;
      match get_decl atom with
      | Some q =>
          match fun2inv !! q with
          | Some fml =>
              rep ← mapM (λ j, arg ← get (get_args atom) j;
                               s ← get (get_domain q) j;
                               Some (mk_var j s, arg))
                         (seq 0 (get_arity q));
              update_body_loop fun2inv r ixs' (tail ++ [safe_replace rep fml])
          | None => update_body_loop fun2inv r ixs' tail
          end
      | None => update_body_loop fun2inv r ixs' tail
      end
  end.

(** [update_body(rules, r)]: the rule added to [rules]. *)
Definition update_body `{driver_context} (fun2inv : gmap func_decl expr) (r : rule)
  : option rule :=
  let utsz := get_uninterpreted_tail_size r in
  let tsz := get_tail_size r in
  tail ← update_body_loop fun2inv r (seq 0 utsz) (get_tail r);
  if decide (length tail ≠ tsz) then Some (rm_mk (get_head r) tail (name r))
  else Some r.

(** The model converter built by [update_rules]. *)
Fixpoint update_rules_converter (fun2inv : gmap func_decl expr) (ps : list func_decl)
    (kmc : add_invariant_model_converter.t) : add_invariant_model_converter.t :=
  match ps with
  | [] => kmc
  | p :: ps' =>
      match fun2inv !! p with
      | Some fml =>
          update_rules_converter fun2inv ps' (add_invariant_model_converter.add p fml kmc)
      | None => update_rules_converter fun2inv ps' kmc
      end
  end.

(** [update_rules(src)]. *)
Definition update_rules `{driver_context} (src : rule_set) (st : t)
  : option (rule_set * t) :=
  dst ← mapM (update_body (m_fun2inv st)) src;
  let st' :=
    if get_model_converter then
      mk (m_fun2inv st) (m_pinned st) (m_cancel st)
         (model_converters st ++
            [update_rules_converter (m_fun2inv st) (grouped_rules src)
               add_invariant_model_converter.new])
    else st in
  Some (inherit_predicates dst src, st').

(** [operator()(source)]: the returned pointer ([None] for [0]) and the
    members afterwards. *)
Definition operator_call `{hilbert_basis, driver_context} (source : rule_set) (st : t)
  : option (option rule_set * t) :=
  if negb karr then Some (None, st)
  else if existsb has_negation source then Some (None, st)
  else
    let src_loop := lc source in
    st1 ← get_invariants src_loop st;
    if m_cancel st1 then Some (None, st1)
    else
      let rev_source := bwd src_loop in
      st2 ← get_invariants rev_source st1;
      '(src_annot, st3) ← update_rules src_loop st2;
      let rules := inherit_predicates (lc_revert src_annot) source in
      Some (Some rules, mk ∅ [] (m_cancel st3) (model_converters st3)).

End mk_karr_invariants.

(** ** Meaning of terms, formulas and rows *)

(** The value of an arithmetic term under a valuation of the variables. *)
Fixpoint eval (x : nat → rational) (e : expr) : rational :=
  match e with
  | mk_var idx _ => x idx
  | mk_numeral n _ => n
  | mk_app OP_ADD _ args =>
      (fix sum (l : list expr) : rational :=
         match l with
         | [] => 0
         | a :: l' => eval x a + sum l'
         end) args
  | mk_app OP_SUB _ [e1; e2] => eval x e1 - eval x e2
  | mk_app OP_MUL _ [e1; e2] => eval x e1 * eval x e2
  | mk_app OP_UMINUS _ [e1] => - eval x e1
  | _ => 0
  end.

(** Truth of a formula of linear arithmetic under a valuation. *)
Fixpoint holds (x : nat → rational) (e : expr) : Prop :=
  match e with
  | mk_app OP_TRUE _ [] => True
  | mk_app OP_EQ _ [e1; e2] => eval x e1 = eval x e2
  | mk_app OP_LE _ [e1; e2] => eval x e1 <= eval x e2
  | mk_app OP_GE _ [e1; e2] => eval x e2 <= eval x e1
  | mk_app OP_LT _ [e1; e2] => eval x e1 < eval x e2
  | mk_app OP_GT _ [e1; e2] => eval x e2 < eval x e1
  | mk_app OP_NOT _ [e1] => ¬ holds x e1
  | mk_app OP_AND _ args =>
      (fix all (l : list expr) : Prop :=
         match l with
         | [] => True
         | a :: l' => holds x a ∧ all l'
         end) args
  | mk_app OP_OR _ args =>
      (fix any (l : list expr) : Prop :=
         match l with
         | [] => False
         | a :: l' => holds x a ∨ any l'
         end) args
  | _ => False
  end.

(** [Σⱼ row[j]·xⱼ], the columns counted from [i]. *)
Fixpoint dot (i : nat) (row : list rational) (x : nat → rational) : rational :=
  match row with
  | [] => 0
  | c :: row' => c * x i + dot (S i) row' x
  end.

(** The left-hand side [A[i]·x + b[i]] of a row. *)
Definition row_value (row : list rational) (c : rational) (x : nat → rational) : rational :=
  dot 0 row x + c.

(** ** The claims' vocabulary *)

(** A linear integer term over [n] columns, as the parser's [lin]
    recognises it: integer sorted, built from variables (columns below
    [n]), numerals, additions, subtractions, unary minus and products of
    two such terms with a numeral on at least one side. *)
Fixpoint linear (n : nat) (e : expr) : bool :=
  is_int e &&
  match e with
  | mk_var idx _ => bool_decide (idx < n)%nat
  | mk_numeral _ _ => true
  | mk_app OP_ADD _ args => forallb (linear n) args
  | mk_app OP_SUB _ [e1; e2] => linear n e1 && linear n e2
  | mk_app OP_MUL _ [e1; e2] =>
      (bool_decide (is_Some (is_numeral e1)) || bool_decide (is_Some (is_numeral e2)))
      && linear n e1 && linear n e2
  | mk_app OP_UMINUS _ [e1] => linear n e1
  | _ => false
  end.

(** The unit row [eᵢ] of width [n]. *)
Definition unit_row (n i : nat) : list rational := <[i:=1]> (zero_row n).

(** [a.is_numeral(e, n) && n.is_int()]: [e] is an integer numeral. *)
Definition is_integer_numeral (e : expr) : bool :=
  match is_numeral e with
  | Some k => is_int_rational k
  | None => false
  end.

(** The row [(eᵢ, −k, equality)] that pins component [i] of a fact of
    size [n], when the component is a numeral [k] with [k] an integer. *)
Definition pin (n : nat) (p : nat * expr) : option (list rational * rational * bool) :=
  match is_numeral p.2 with
  | Some k => if is_int_rational k then Some (unit_row n p.1, - k, true) else None
  | None => None
  end.

(** The rows that pin the integer numerals of a fact, in the order of its
    components. *)
Definition pinned_rows (f : list expr) : list (list rational * rational * bool) :=
  omap (pin (length f)) (imap pair f).

(** The conjunct [xᵢ + (−k) = 0] as the emitter renders it. *)
Definition pinned_conjunct (i : nat) (k : rational) : expr :=
  mk_eq (mk_add (mk_var i mk_int :: (if is_zero k then [] else [mk_numeral (- k) true])))
        (mk_numeral 0 true).

(** The rows of a union: those of the target, then the rows of the source
    that have no exact duplicate among the target's. *)
Definition union_rows (N M : list (list rational * rational * bool))
  : list (list rational * rational * bool) :=
  N ++ filter (λ r, r ∉ N) M.

(** The first initial solution of a basis, and its non-initial ones. *)
Definition first_initial (sols : list (list rational * bool)) : option (list rational) :=
  fst <$> head (filter (λ s, s.2 = true) sols).
Definition non_initial (sols : list (list rational * bool)) : list (list rational) :=
  fst <$> filter (λ s, s.2 = false) sols.

(** The column that a cycle sends to [cols[i]]: the next one, cyclically. *)
Definition cycle_source (cols : list nat) (i : nat) : option nat :=
  cols !! ((i + 1) mod length cols)%nat.

(** ** Collaborators used in the examples *)

(** A saturator that always answers with the given outcome and basis. *)
Definition constant_hb (outcome : option lbool) (basis : list (list rational * bool))
  : hilbert_basis :=
  {| saturate := λ _, outcome; get_basis_solution := λ _, basis |}.

(** Conjunctions are split at the top level. *)
Definition split_and : dl_util :=
  {| flatten_and := λ e, match e with mk_app OP_AND _ args => args | _ => [e] end |}.

(** A context with the identity transforms whose engine finds the given
    relations. *)
Definition simple_context (flag : bool) (rels : func_decl → option karr_relation)
  : driver_context :=
  {| karr := flag;
     lc := id; lc_revert := id; bwd := id;
     inherit_predicates := λ dst _, dst;
     rm_mk := λ head tail nm, mk_rule head tail 0 [] nm;
     safe_replace := λ _ e, e;
     rel_query := λ _, rels;
     get_model_converter := true |}.

Definition int_numeral (k : Z) : expr := mk_numeral (rational_of_Z k) true.
Definition x_ (i : nat) : expr := mk_var i int_sort.
Definition pred (i : nat) (arity : nat) : func_decl :=
  mk_func_decl i (replicate arity int_sort).

(** The basis rows of [dualizeI] as a list: the rows that [dualizeI_basis]
    pushes, in order. *)
Fixpoint basis_rows (sols : list (list rational * bool)) (first_initial : bool)
  : list (list rational * rational * bool) :=
  match sols with
  | [] => []
  | (soln, is_initial) :: sols' =>
      if is_initial && first_initial then (soln, 1, true) :: basis_rows sols' false
      else if negb is_initial then (soln, 0, true) :: basis_rows sols' first_initial
      else basis_rows sols' first_initial
  end.

(** [row'] is [row] with the cyclic permutation [cols] applied: column
    [cols[i]] holds what column [cols[i+1]] held (cyclically), and the
    columns outside the cycle are as before. *)
Definition cycled (cols : list nat) (row row' : list rational) : Prop :=
  length row' = length row
  ∧ (∀ i c c', cols !! i = Some c → cycle_source cols i = Some c' → row' !! c = row !! c')
  ∧ (∀ c, c ∉ cols → row' !! c = row !! c).

(** [M'] is [M] with the cycle applied to every row; constants and tags
    are as before. *)
Definition renamed (cols : list nat) (M M' : matrix.t) : Prop :=
  Forall2 (cycled cols) (matrix.A M) (matrix.A M')
  ∧ matrix.b M' = matrix.b M ∧ matrix.eq M' = matrix.eq M.

(** The parser emits [rows] for the conjunct [e]: the body of the loop
    pushes exactly these rows, and wherever [e] stands among the conjuncts
    the loop goes on with these rows pushed. *)
Definition emits (n : nat) (e : expr) (rows : list (list rational * rational * bool))
  : Prop :=
  (∀ M, filter_interpreted_conj n M e = Some (matrix.append M (matrix.of_rows rows)))
  ∧ ∀ pre post M M1,
      filter_interpreted_loop n pre M = Some M1 →
      filter_interpreted_loop n (pre ++ e :: post) M
      = filter_interpreted_loop n post (matrix.append M1 (matrix.of_rows rows)).

(** The equation [v = k] between a variable and a numeral, in either
    orientation. *)
Definition var_eq_numeral (flip : bool) (v : nat) (s : sort) (k : rational) (int : bool)
  : expr :=
  if flip then mk_eq (mk_numeral k int) (mk_var v s)
  else mk_eq (mk_var v s) (mk_numeral k int).

(** The entry of the invariant map for a predicate after a formula [fml]
    has been found for it: the literal [true] changes nothing; another
    formula is stored, conjoined with the entry [old] when there is one. *)
Definition updated_entry (old : option expr) (fml : expr) : option expr :=
  if m_is_true fml then old
  else Some (match old with
             | Some inv => mk_and inv fml
             | None => fml
             end).

(** The rule [p(x₀,…) :- tail] with no negated atom. *)
Definition simple_rule (p : func_decl) (tail : list expr) (utsz : nat) : rule :=
  mk_rule (mk_app (OP_UNINTERPRETED p) bool_sort
             (imap (λ i s, mk_var i s) (get_domain p)))
          tail utsz (replicate (length tail) false) 0.

(** ** The remaining operators of the relation and of the plugin *)

(** [row.resize(n)] on a vector that has elements: truncate, or pad with
    default-constructed rationals. *)
Definition resize (n : nat) (row : list rational) : list rational :=
  take n row ++ replicate (n - length row) 0.

(** [karr_relation::clone()]. *)
Definition clone (r : karr_relation) : karr_relation :=
  copy (new_karr_relation (m_fn r) (signature r) (m_empty r)) r.

(** *** mk_join *)

(** The first loop of [mk_join]: the rows of [M1], resized. *)
Definition join_left (sig_size : nat) (rows : list (list rational * rational * bool))
    (M : matrix.t) : matrix.t :=
  foldl (λ M '(r, c, e), matrix.push M (resize sig_size r) c e) M rows.

(** [row[sig1_size + j] = src[j]] for the indices [j] in [js]. *)
Fixpoint join_shift (sig1_size : nat) (src : list rational) (js : list nat)
    (row : list rational) : option (list rational) :=
  match js with
  | [] => Some row
  | j :: js' =>
      x ← get src j;
      row' ← set row (sig1_size + j) x;
      join_shift sig1_size src js' row'
  end.

(** The second loop of [mk_join]: the rows of [M2], shifted. *)
Fixpoint join_right (sig1_size sig_size : nat)
    (rows : list (list rational * rational * bool)) (M : matrix.t) : option matrix.t :=
  match rows with
  | [] => Some M
  | (r, c, e) :: rows' =>
      row ← join_shift sig1_size r (seq 0 (length r)) (zero_row sig_size);
      join_right sig1_size sig_size rows' (matrix.push M row c e)
  end.

(** The third loop of [mk_join]: one equality per pair of columns. *)
Fixpoint join_pairs (sig1_size sig_size : nat) (cols1 cols2 : list nat) (ixs : list nat)
    (M : matrix.t) : option matrix.t :=
  match ixs with
  | [] => Some M
  | i :: ixs' =>
      c1 ← get cols1 i;
      row ← set (zero_row sig_size) c1 1;
      c2 ← get cols2 i;
      row' ← set row (sig1_size + c2) (-1);
      join_pairs sig1_size sig_size cols1 cols2 ixs' (matrix.push M row' 0 true)
  end.

(** [karr_relation::mk_join(r1, r2, col_cnt, cols1, cols2)], called on
    [self]; [r1] and [r2] are returned with their constraints
    materialised. *)
Definition mk_join `{hilbert_basis} (self r1 r2 : karr_relation) (cols1 cols2 : list nat)
  : option (karr_relation * karr_relation * karr_relation) :=
  if empty r1 || empty r2 then Some (with_empty true self, r1, r2)
  else
    r1' ← get_ineqs r1;
    r2' ← get_ineqs r2;
    let sig1_size := length (signature r1') in
    let sig_size := length (signature self) in
    rows1 ← matrix.rows (m_ineqs r1');
    let M := join_left sig_size rows1 matrix.empty in
    rows2 ← matrix.rows (m_ineqs r2');
    M ← join_right sig1_size sig_size rows2 M;
    M ← join_pairs sig1_size sig_size cols1 cols2 (seq 0 (length cols1)) M;
    let fn := match m_fn r2' with
              | Some f => Some f
              | None => match m_fn r1' with
                        | Some f => Some f
                        | None => m_fn self
                        end
              end in
    Some (mk_karr_relation (signature self) fn false M true (m_basis self) false,
          r1', r2').

(** [join_fn::operator()]. *)
Definition join_fn `{hilbert_basis} (result_signature : list sort) (cols1 cols2 : list nat)
    (r1 r2 : karr_relation) :=
  mk_join (mk_full None result_signature) r1 r2 cols1 cols2.

(** *** mk_project *)

(** The inner loop of [mk_project] over the columns of one row, from
    column [j] on, with [k] removed columns met so far. *)
Fixpoint project_row (cols : list nat) (k j : nat) (src : list rational) : list rational :=
  match src with
  | [] => []
  | x :: src' =>
      if bool_decide (k < length cols)%nat && bool_decide (cols !! k = Some j)
      then project_row cols (S k) (S j) src'
      else x :: project_row cols k (S j) src'
  end.

(** The outer loop of [mk_project]: [M.A[i]] and [M.b[i]] are read, the
    tag pushed is [true]. *)
Fixpoint project_rows (cols : list nat) (M : matrix.t) (ixs : list nat) (dst : matrix.t)
  : option matrix.t :=
  match ixs with
  | [] => Some dst
  | i :: ixs' =>
      r ← get (matrix.A M) i;
      c ← get (matrix.b M) i;
      project_rows cols M ixs' (matrix.push dst (project_row cols 0 0 r) c true)
  end.

(** [karr_relation::mk_project(r, cnt, cols)], called on [self]; [r] is
    returned with its basis materialised. *)
Definition mk_project `{hilbert_basis} (self r : karr_relation) (cols : list nat)
  : option (karr_relation * karr_relation) :=
  if m_empty r then Some (with_empty true self, r)
  else
    r' ← get_basis r;
    let M := m_basis r' in
    basis ← project_rows cols M (seq 0 (matrix.size M)) matrix.empty;
    Some (mk_karr_relation (signature self) (m_fn r') false
            (m_ineqs self) false basis true,
          r').

(** [project_fn::operator()]. *)
Definition project_fn `{hilbert_basis} (result_signature : list sort) (removed_cols : list nat)
    (r : karr_relation) :=
  mk_project (mk_full None result_signature) r removed_cols.

(** *** filter_identical_fn *)

(** The loop of [filter_identical_fn::operator()] over the indices [ixs]
    of [m_identical_cols]. *)
Fixpoint filter_identical_loop (identical_cols : list nat) (ixs : list nat)
    (r : karr_relation) : option karr_relation :=
  match ixs with
  | [] => Some r
  | i :: ixs' =>
      c1 ← get identical_cols 0;
      c2 ← get identical_cols i;
      row ← set (zero_row (length (signature r))) c1 1;
      row' ← set row c2 (-1);
      filter_identical_loop identical_cols ixs'
        (with_basis_valid false (with_ineqs (matrix.push (m_ineqs r) row' 0 true) r))
  end.

(** [filter_identical_fn::operator()]. *)
Definition filter_identical_call `{hilbert_basis} (identical_cols : list nat)
    (r : karr_relation) : option karr_relation :=
  r1 ← get_ineqs r;
  filter_identical_loop identical_cols (seq 1 (length identical_cols - 1)) r1.

(** [filter_interpreted_fn::operator()]. *)
Definition filter_interpreted_call `{hilbert_basis, dl_util} := filter_interpreted.

(** *** The model converter's translate, the driver's cancel *)

(** [add_invariant_model_converter::translate(translator)]: the loop that
    adds [(translator(m_funcs[i]), m_invs[i])] to a new converter. *)
Fixpoint translate_loop (translator : func_decl → func_decl)
    (mc : add_invariant_model_converter.t) (ixs : list nat)
    (dst : add_invariant_model_converter.t) : option add_invariant_model_converter.t :=
  match ixs with
  | [] => Some dst
  | i :: ixs' =>
      f ← get (add_invariant_model_converter.m_funcs mc) i;
      inv ← get (add_invariant_model_converter.m_invs mc) i;
      translate_loop translator mc ixs' (add_invariant_model_converter.add (translator f) inv dst)
  end.

Definition translate (translator : func_decl → func_decl)
    (mc : add_invariant_model_converter.t) : option add_invariant_model_converter.t :=
  translate_loop translator mc
    (seq 0 (length (add_invariant_model_converter.m_funcs mc)))
    add_invariant_model_converter.new.

(** [mk_karr_invariants::cancel()]; forwarding to the inner context is
    external. *)
Definition cancel (st : mk_karr_invariants.t) : mk_karr_invariants.t :=
  mk_karr_invariants.mk (mk_karr_invariants.m_fun2inv st) (mk_karr_invariants.m_pinned st)
    true (mk_karr_invariants.model_converters st).

(** ** Vocabulary of the further properties *)

(** A row holds under a valuation: [A[i]·x + b[i] = 0] for an equality,
    [A[i]·x + b[i] ≥ 0] for an inequality. *)
Definition row_holds (x : nat → rational) (r : list rational * rational * bool) : Prop :=
  if r.2 then row_value r.1.1 r.1.2 x = 0 else 0 <= row_value r.1.1 r.1.2 x.

(** The entries of a row whose column is not in [cols], in order. *)
Definition kept_columns (cols : list nat) (row : list rational) : list rational :=
  snd <$> filter (λ p : nat * rational, p.1 ∉ cols) (imap pair row).

(** A non-empty relation has a valid form. *)
Definition has_valid_form (r : karr_relation) : Prop :=
  m_empty r = false → m_ineqs_valid r = true ∨ m_basis_valid r = true.

(** Both matrices of a relation keep their three vectors at one length. *)
Definition matrices_wf (r : karr_relation) : Prop :=
  matrix.wf (m_ineqs r) ∧ matrix.wf (m_basis r).

(** The two calls of [is_linear] of an arm of the parser both succeed,
    starting from the zero row and the zero constant, and leave [row] and
    [b]. *)
Definition both_linear (e1 e2 : expr) (mul1 mul2 : rational) (n : nat)
    (row : list rational) (b : rational) : Prop :=
  ∃ row1 b1, is_linear e1 (zero_row n) 0 mul1 = Some (true, row1, b1)
             ∧ is_linear e2 row1 b1 mul2 = Some (true, row, b).

(** Every variable of the expression is below [n]. *)
Fixpoint vars_below (n : nat) (e : expr) : bool :=
  match e with
  | mk_var idx _ => bool_decide (idx < n)%nat
  | mk_numeral _ _ => true
  | mk_app _ _ args => forallb (vars_below n) args
  | mk_quantifier body => vars_below n body
  end.

(** Under the valuation the two sides of a strict comparison differ by
    an integer: what the parser's [b - 1] relies on. *)
Definition integral_gap (x : nat → rational) (e : expr) : Prop :=
  ∀ e1 e2, pattern_lt e = Some (e1, e2) ∨ pattern_not_le e = Some (e1, e2) →
           is_int_rational (eval x e2 - eval x e1) = true.

(** The removed columns are listed in strictly ascending order. *)
Definition ascending (cols : list nat) : Prop :=
  ∀ i j a b, (i < j)%nat → cols !! i = Some a → cols !! j = Some b → (a < b)%nat.

(** The interpretation [f'] is [f] strengthened by the invariants that the
    converter records for [p] at the indices [ixs]: same arity; a partial
    interpretation stays partial; otherwise the new [else] branch means
    the old one together with these invariants. *)
Definition strengthened_by (mc : add_invariant_model_converter.t) (ixs : list nat)
    (p : func_decl) (f f' : func_interp) : Prop :=
  fi_arity f' = fi_arity f
  ∧ match get_else f with
    | Some els =>
        ∃ e', get_else f' = Some e'
              ∧ ∀ x, holds x e'
                     ↔ holds x els
                       ∧ ∀ i inv, i ∈ ixs →
                                  add_invariant_model_converter.m_funcs mc !! i = Some p →
                                  add_invariant_model_converter.m_invs mc !! i = Some inv →
                                  holds x inv
    | None => get_else f' = None
    end.

(** The interpretation of a predicate that the model did not interpret:
    of the predicate's arity, with an [else] branch that never holds. *)
Definition pruned (p : func_decl) (f' : func_interp) : Prop :=
  fi_arity f' = get_arity p
  ∧ ∃ e', get_else f' = Some e' ∧ ∀ x, ¬ holds x e'.

(** The two vectors of a converter run in parallel, and no recorded
    invariant is the literal [true]. *)
Definition converter_wf (mc : add_invariant_model_converter.t) : Prop :=
  length (add_invariant_model_converter.m_funcs mc)
  = length (add_invariant_model_converter.m_invs mc)
  ∧ Forall (λ inv, m_is_true inv = false) (add_invariant_model_converter.m_invs mc).

(** Every formula of the invariant map is pinned, and none is the literal
    [true]. *)
Definition entries_pinned (st : mk_karr_invariants.t) : Prop :=
  ∀ p e, mk_karr_invariants.m_fun2inv st !! p = Some e →
         e ∈ mk_karr_invariants.m_pinned st ∧ m_is_true e = false.

(** The column after [c] in the cycle [cols], and the column before it;
    a column outside the cycle is its own successor and predecessor. *)
Definition cycle_succ (cols : list nat) (c : nat) : nat :=
  match list_find (λ c', c' = c) cols with
  | Some (i, _) => default c (cols !! ((i + 1) mod length cols)%nat)
  | None => c
  end.

Definition cycle_pred (cols : list nat) (c : nat) : nat :=
  match list_find (λ c', c' = c) cols with
  | Some (i, _) => default c (cols !! ((i + length cols - 1) mod length cols)%nat)
  | None => c
  end.

(** The sum of a list of rationals. *)
Definition qsum (l : list rational) : rational := foldr Qcplus 0 l.

(** ** Vocabulary of the copies, of the constraints reached, and of the
    conjuncts appended *)

(** [d'] is [d] after [d.copy(target)]: both matrices, both validity
    flags and the emptiness flag are the target's; the signature and the
    predicate stay [d]'s own. *)
Definition copy_of (d' d target : karr_relation) : Prop :=
  m_ineqs d' = m_ineqs target ∧ m_ineqs_valid d' = m_ineqs_valid target
  ∧ m_basis d' = m_basis target ∧ m_basis_valid d' = m_basis_valid target
  ∧ m_empty d' = m_empty target
  ∧ signature d' = signature d ∧ m_fn d' = m_fn d.

(** [d'] is [d] marked empty: the flag is set and nothing else differs. *)
Definition marked_empty (d' d : karr_relation) : Prop :=
  m_empty d' = true
  ∧ m_ineqs d' = m_ineqs d ∧ m_ineqs_valid d' = m_ineqs_valid d
  ∧ m_basis d' = m_basis d ∧ m_basis_valid d' = m_basis_valid d
  ∧ signature d' = signature d ∧ m_fn d' = m_fn d.

(** The rows [rows] of the conjunct [e] reach the constraints of a
    relation over [n] columns: wherever [e] stands among the conjuncts of
    the condition, [filter_interpreted] goes on from the matrix left by
    the conjuncts before [e] with [rows] pushed; and when it returns, the
    constraint matrix of the result is the materialised one followed by
    the rows of the conjuncts before [e], then [rows], then the rows of
    the conjuncts after [e], and nothing else of the relation differs. *)
Definition reaches_constraints `{hilbert_basis, dl_util} (n : nat) (e : expr)
    (rows : list (list rational * rational * bool)) : Prop :=
  ∀ cond r r1 pre post,
    get_ineqs r = Some r1 → length (signature r) = n →
    flatten_and cond = pre ++ e :: post →
    (∀ M1, filter_interpreted_loop n pre (m_ineqs r1) = Some M1 →
       filter_interpreted cond r
       = M' ← filter_interpreted_loop n post (matrix.append M1 (matrix.of_rows rows));
         Some (with_ineqs M' r1))
    ∧ (∀ r', filter_interpreted cond r = Some r' →
         ∃ before after,
           m_ineqs r'
           = matrix.append (m_ineqs r1) (matrix.of_rows (before ++ rows ++ after))
           ∧ r' = with_ineqs (m_ineqs r') r1).



(** [operator()(source)] with [cancel()] arriving from another thread:
    [early] says that it arrives before the test of [m_cancel] that
    follows the first retrieval of invariants, [late] that it arrives
    after that test.  What the forwarded cancellation does to the inner
    engine is part of the external [rel_query]. *)
Definition operator_call_interleaved `{hilbert_basis, driver_context} (early late : bool)
    (source : rule_set) (st : mk_karr_invariants.t)
  : option (option rule_set * mk_karr_invariants.t) :=
  if negb karr then Some (None, st)
  else if existsb has_negation source then Some (None, st)
  else
    let src_loop := lc source in
    st1 ← mk_karr_invariants.get_invariants src_loop st;
    let st1 := if early : bool then cancel st1 else st1 in
    if mk_karr_invariants.m_cancel st1 then Some (None, st1)
    else
      let rev_source := bwd src_loop in
      st2 ← mk_karr_invariants.get_invariants rev_source st1;
      '(src_annot, st3) ← mk_karr_invariants.update_rules src_loop st2;
      let st3 := if late : bool then cancel st3 else st3 in
      let rules := inherit_predicates (lc_revert src_annot) source in
      Some (Some rules,
            mk_karr_invariants.mk ∅ [] (mk_karr_invariants.m_cancel st3)
              (mk_karr_invariants.model_converters st3)).

(** * Properties *)

(** ** Rationals *)

Lemma this_rational_of_Z k : this (rational_of_Z k) = inject_Z k.
Proof. unfold rational_of_Z. simpl. apply Qred_identity. simpl. apply Z.gcd_1_r. Qed.

Lemma is_int_rational_of_Z k : is_int_rational (rational_of_Z k) = true.
Proof. unfold is_int_rational. by rewrite this_rational_of_Z. Qed.

Lemma rational_of_Z_inj k1 k2 : rational_of_Z k1 = rational_of_Z k2 → k1 = k2.
Proof.
  intros E. apply (f_equal this) in E. rewrite !this_rational_of_Z in E.
  by injection E.
Qed.

Lemma is_zero_spec n : is_zero n = bool_decide (n = 0).
Proof.
  unfold is_zero, Qc_eq_bool.
  destruct (Qcanon.Qc_eq_dec n 0); symmetry;
    [by apply bool_decide_eq_true_2 | by apply bool_decide_eq_false_2].
Qed.

Lemma is_one_spec n : is_one n = bool_decide (n = 1).
Proof.
  unfold is_one, Qc_eq_bool.
  destruct (Qcanon.Qc_eq_dec n 1); symmetry;
    [by apply bool_decide_eq_true_2 | by apply bool_decide_eq_false_2].
Qed.

Lemma is_zero_opp n : is_zero (- n) = is_zero n.
Proof.
  rewrite !is_zero_spec. apply bool_decide_ext. split; intros E.
  - by rewrite <- (Qcopp_involutive n), E.
  - by rewrite E.
Qed.

(** ** Matrices as lists of rows *)

Lemma of_rows_push l r c e :
  matrix.push (matrix.of_rows l) r c e = matrix.of_rows (l ++ [(r, c, e)]).
Proof. unfold matrix.push, matrix.of_rows. simpl. by rewrite !fmap_app. Qed.

Lemma of_rows_size l : matrix.size (matrix.of_rows l) = length l.
Proof. unfold matrix.size, matrix.of_rows. simpl. by rewrite !length_fmap. Qed.

Lemma of_rows_row l i : matrix.row (matrix.of_rows l) i = l !! i.
Proof.
  unfold matrix.row, matrix.of_rows, get. simpl.
  rewrite !list_lookup_fmap. by destruct (l !! i) as [[[r c] e]|].
Qed.

Lemma of_rows_rows l : matrix.rows (matrix.of_rows l) = Some l.
Proof.
  unfold matrix.rows. apply mapM_Some_2.
  rewrite of_rows_size. apply Forall2_same_length_lookup_2.
  - by rewrite length_seq.
  - intros i j y Hi Hy. apply lookup_seq in Hi as [-> _].
    by rewrite of_rows_row.
Qed.

Lemma of_rows_inj l1 l2 : matrix.of_rows l1 = matrix.of_rows l2 → l1 = l2.
Proof.
  intros E. apply (f_equal matrix.rows) in E. rewrite !of_rows_rows in E. congruence.
Qed.

Lemma wf_of_rows l : matrix.wf (matrix.of_rows l).
Proof. unfold matrix.wf, matrix.of_rows. simpl. by rewrite !length_fmap. Qed.

(** A well-formed matrix is the matrix of its rows. *)
Lemma wf_is_of_rows M :
  matrix.wf M →
  M = matrix.of_rows (zip (zip (matrix.A M) (matrix.b M)) (matrix.eq M)).
Proof.
  destruct M as [A b e]. unfold matrix.wf, matrix.of_rows. simpl. intros [Hb He].
  f_equal.
  - rewrite fst_zip; [by rewrite fst_zip by lia |].
    rewrite length_zip_with. lia.
  - rewrite fst_zip; [by rewrite snd_zip by lia |].
    rewrite length_zip_with. lia.
  - rewrite snd_zip; [done |]. rewrite length_zip_with. lia.
Qed.

Lemma of_rows_width n l :
  matrix.width n (matrix.of_rows l) ↔ Forall (λ r, length r.1.1 = n) l.
Proof.
  unfold matrix.width, matrix.of_rows. simpl.
  rewrite <- list_fmap_compose. by rewrite Forall_fmap.
Qed.

(** ** Meaning of the emitted formulas *)

Lemma holds_and x s args : holds x (mk_app OP_AND s args) ↔ Forall (holds x) args.
Proof.
  simpl. induction args as [|a args IH].
  - split; [constructor | done].
  - rewrite Forall_cons. by rewrite IH.
Qed.

Lemma holds_bool_rewriter_mk_and x args :
  holds x (bool_rewriter_mk_and args) ↔ Forall (holds x) args.
Proof.
  destruct args as [|a [|a' args]].
  - simpl. split; [constructor | done].
  - simpl. rewrite Forall_singleton. done.
  - unfold bool_rewriter_mk_and. apply holds_and.
Qed.

Lemma holds_mk_and x inv fml : holds x (mk_and inv fml) ↔ holds x inv ∧ holds x fml.
Proof. simpl. tauto. Qed.

Lemma holds_pinned_conjunct x i k : holds x (pinned_conjunct i k) ↔ x i = k.
Proof.
  unfold pinned_conjunct. rewrite is_zero_spec. case_bool_decide as Hk; simpl.
  - subst k. split; intros E.
    + rewrite <- E. ring.
    + rewrite E. ring.
  - split; intros E.
    + transitivity (x i + (- k + 0) + k); [ring | rewrite E; ring].
    + rewrite E. ring.
Qed.

(** ** add_fact *)

Lemma add_fact_rows_spec n f : ∀ i pre,
  add_fact_rows n i f (matrix.of_rows pre)
  = matrix.of_rows (pre ++ omap (pin n) (imap (λ j, pair (i + j)%nat) f)).
Proof.
  induction f as [|fi f IH]; intros i pre.
  - simpl. by rewrite app_nil_r.
  - assert (Hr : omap (pin n) (imap (λ j, pair (i + j)%nat) (fi :: f))
              = option_list (pin n (i, fi))
                ++ omap (pin n) (imap (λ j, pair (S i + j)%nat) f)).
    { cbn [imap omap list_omap]. rewrite Nat.add_0_r.
      rewrite (imap_ext _ (λ j, pair (S i + j)%nat)); [| intros; simpl; f_equal; lia].
      by destruct (pin n (i, fi)). }
    rewrite Hr. cbn [add_fact_rows]. unfold pin. cbn [fst snd].
    destruct (is_numeral fi) as [k|]; [destruct (is_int_rational k) |]; cbn [option_list app].
    + fold (unit_row n i). rewrite of_rows_push, IH. by rewrite <- app_assoc.
    + apply IH.
    + apply IH.
Qed.

Lemma add_fact_ineqs f r :
  m_ineqs r = matrix.empty →
  m_ineqs (add_fact f r) = matrix.of_rows (pinned_rows f).
Proof.
  intros E. unfold add_fact. simpl. rewrite E.
  change matrix.empty with (matrix.of_rows []).
  rewrite add_fact_rows_spec. simpl. done.
Qed.

Lemma to_formula_sum_zero_row n j : to_formula_sum j (zero_row n) = [].
Proof. revert j. induction n as [|n IH]; intros j; simpl; [done | apply IH]. Qed.

Lemma to_formula_sum_unit_row n : ∀ i j,
  (i < n)%nat → to_formula_sum j (unit_row n i) = [mk_var (j + i) mk_int].
Proof.
  induction n as [|n IH]; intros i j Hi; [lia |].
  destruct i as [|i]; simpl.
  - rewrite Nat.add_0_r. f_equal. apply to_formula_sum_zero_row.
  - fold (zero_row n). fold (unit_row n i). rewrite IH by lia. do 2 f_equal. lia.
Qed.

Lemma to_formula_row_pinned n i k :
  (i < n)%nat → to_formula_row (unit_row n i) (- k) true = pinned_conjunct i k.
Proof.
  intros Hi. unfold to_formula_row, pinned_conjunct.
  rewrite to_formula_sum_unit_row by done. rewrite is_zero_opp. done.
Qed.

Lemma pinned_rows_numerals (ks : list (Z * bool)) :
  pinned_rows (map (λ kb, mk_numeral (rational_of_Z kb.1) kb.2) ks)
  = imap (λ i kb, (unit_row (length ks) i, - rational_of_Z kb.1, true)) ks.
Proof.
  unfold pinned_rows. rewrite length_map.
  generalize (length ks) as n. intros n.
  change (imap pair) with (imap (λ j, pair (0 + j)%nat) (B:=nat * expr)).
  change (λ i kb, (unit_row n i, - rational_of_Z kb.1, true))
    with (λ i (kb : Z * bool), (unit_row n (0 + i), - rational_of_Z kb.1, true)).
  generalize 0%nat as i.
  induction ks as [|[k b] ks IH]; intros i; [done |].
  cbn [map imap omap list_omap]. unfold pin at 1. cbn [fst snd is_numeral].
  rewrite is_int_rational_of_Z. rewrite Nat.add_0_r. f_equal.
  rewrite (imap_ext _ (λ j, pair (S i + j)%nat)); [| intros; simpl; f_equal; lia].
  rewrite IH. apply imap_ext. intros j y _. simpl. do 3 f_equal. lia.
Qed.

Lemma unit_row_length n i : length (unit_row n i) = n.
Proof. unfold unit_row, zero_row. by rewrite length_insert, length_replicate. Qed.

Lemma unit_row_lookup_ne n i j : (j < n)%nat → i ≠ j → unit_row n i !! j = Some 0.
Proof.
  intros Hj Hne. unfold unit_row, zero_row.
  rewrite list_lookup_insert_ne by done. by apply lookup_replicate_2.
Qed.

Lemma unit_row_lookup_eq n i : (i < n)%nat → unit_row n i !! i = Some 1.
Proof.
  intros Hi. unfold unit_row, zero_row.
  apply list_lookup_insert_eq. by rewrite length_replicate.
Qed.

Lemma elem_of_pinned_rows f row :
  row ∈ pinned_rows f ↔ ∃ i fi, f !! i = Some fi ∧ pin (length f) (i, fi) = Some row.
Proof.
  unfold pinned_rows. rewrite list_elem_of_omap. split.
  - intros [[i fi] [Hin Hp]]. apply elem_of_lookup_imap in Hin as (j & y & E & Hj).
    injection E as -> ->. eauto.
  - intros (i & fi & Hi & Hp). exists (i, fi). split; [| done].
    apply elem_of_lookup_imap. eauto.
Qed.

(** ** filter_equal *)

Lemma get_ineqs_valid `{hilbert_basis} r : m_ineqs_valid r = true → get_ineqs r = Some r.
Proof. intros E. unfold get_ineqs, init_ineqs. by rewrite E. Qed.

Lemma set_zero_row n i : (i < n)%nat → set (zero_row n) i 1 = Some (unit_row n i).
Proof.
  intros Hi. unfold set. rewrite decide_True; [done |].
  unfold zero_row. by rewrite length_replicate.
Qed.

(** What [filter_equal_fn] does with a numeral [k]: the row pushed has the
    constant [−1], whatever [k] is; with another value nothing changes. *)
Lemma filter_equal_call_spec `{hilbert_basis} (value : expr) (col : nat) (r : karr_relation) :
  m_ineqs_valid r = true → (col < length (signature r))%nat →
  filter_equal_call (new_filter_equal_fn value col) r
  = Some (match is_numeral value with
          | Some k =>
              if is_int_rational k
              then with_basis_valid false
                     (with_ineqs (matrix.push (m_ineqs r)
                                    (unit_row (length (signature r)) col) (-1) true) r)
              else r
          | None => r
          end).
Proof.
  intros Hv Hc. unfold filter_equal_call, new_filter_equal_fn.
  destruct (is_numeral value) as [k|]; simpl; [| done].
  destruct (is_int_rational k); [| done].
  rewrite get_ineqs_valid by done. simpl. rewrite set_zero_row by done. done.
Qed.

(** C1 (the code departs from the claim).  [filter_equal_fn] built from the
    integer numeral [5] and column [0], applied to the full relation of
    arity one: the operation does add exactly one equality row with
    coefficient [1] at column [0] and does set [basis_valid] to false, but
    the constant of the row is [−1], not [−5]. *)
Theorem filter_equal_fn_pushes_minus_one `{hilbert_basis} :
  ∃ r', filter_equal_call (new_filter_equal_fn (int_numeral 5) 0) (mk_full None [int_sort])
        = Some r'
      ∧ m_ineqs r' = matrix.of_rows [(unit_row 1 0, -1, true)]
      ∧ m_basis_valid r' = false
      ∧ matrix.b (m_ineqs r') ≠ [- rational_of_Z 5].
Proof.
  eexists. split; [| split; [| split]].
  - rewrite filter_equal_call_spec; [| done | simpl; lia]. simpl. reflexivity.
  - reflexivity.
  - reflexivity.
  - simpl. intros E. discriminate E.
Qed.

(** C2.  [add_fact] on a freshly empty relation: the constraint matrix
    becomes the rows [(eᵢ, −kᵢ, equality)], one for each component that is
    an integer numeral [kᵢ], in order; a component that is not an integer
    numeral adds no row, and its column has coefficient zero in every row;
    afterwards [empty] is false, [ineqs_valid] is true (and [basis_valid]
    still false).  When every component is an integer numeral, the formula
    emitted is the conjunction of the conjuncts [xᵢ + (−kᵢ) = 0], which
    holds under a valuation exactly when [xᵢ = kᵢ] for every [i]. *)
Theorem add_fact_pins_integer_numerals `{hilbert_basis} (sig : list sort) (f : list expr) :
  let r := add_fact f (mk_empty sig) in
  m_ineqs r = matrix.of_rows (pinned_rows f)
  ∧ (∀ i fi k, f !! i = Some fi → is_numeral fi = Some k → is_int_rational k = true →
       (unit_row (length f) i, - k, true) ∈ pinned_rows f)
  ∧ (∀ i fi, f !! i = Some fi → is_integer_numeral fi = false →
       Forall (λ row, row.1.1 !! i = Some 0) (pinned_rows f))
  ∧ length (pinned_rows f) = length (filter (λ fi, is_integer_numeral fi = true) f)
  ∧ empty r = false ∧ m_ineqs_valid r = true ∧ m_basis_valid r = false
  ∧ ∀ ks : list (Z * bool),
      f = map (λ kb, mk_numeral (rational_of_Z kb.1) kb.2) ks →
      let fml := bool_rewriter_mk_and
                   (imap (λ i kb, pinned_conjunct i (rational_of_Z kb.1)) ks) in
      to_formula r = Some fml
      ∧ ∀ x, holds x fml ↔ ∀ i kb, ks !! i = Some kb → x i = rational_of_Z kb.1.
Proof.
  intros r.
  assert (Hrows : m_ineqs r = matrix.of_rows (pinned_rows f)) by by apply add_fact_ineqs.
  split; [done |]. split; [| split; [| split; [| split; [done | split; [done | split; [done |]]]]]].
  - intros i fi k Hi Hn Hk. apply elem_of_pinned_rows. exists i, fi. split; [done |].
    unfold pin. simpl. by rewrite Hn, Hk.
  - intros i fi Hi Hnot. apply Forall_forall. intros row Hrow.
    apply elem_of_pinned_rows in Hrow as (j & fj & Hj & Hp).
    unfold pin in Hp. simpl in Hp.
    destruct (is_numeral fj) as [k|] eqn:Hn; [| done].
    destruct (is_int_rational k) eqn:Hk; [| done].
    injection Hp as <-. simpl. apply unit_row_lookup_ne.
    + by apply lookup_lt_Some in Hi.
    + intros ->. rewrite Hi in Hj. injection Hj as ->.
      unfold is_integer_numeral in Hnot. rewrite Hn in Hnot. congruence.
  - unfold pinned_rows. generalize (length f) as n. intros n.
    change (imap pair) with (imap (λ j, pair (0 + j)%nat) (B:=nat * expr)).
    generalize 0%nat as i. clear. induction f as [|fi f IH]; intros i; [done |].
    cbn [imap omap list_omap].
    rewrite (imap_ext _ (λ j, pair (S i + j)%nat)); [| intros; simpl; f_equal; lia].
    assert (Hp : is_Some (pin n ((i + 0)%nat, fi)) ↔ is_integer_numeral fi = true).
    { unfold pin, is_integer_numeral. cbn [fst snd].
      destruct (is_numeral fi) as [k|]; [destruct (is_int_rational k) |];
        split; (done || by intros [? ?] || eauto). }
    destruct (decide (is_integer_numeral fi = true)) as [Hint | Hint].
    + rewrite filter_cons_True by done. apply Hp in Hint as [row ->].
      cbn [length]. f_equal. apply (IH (S i)).
    + rewrite filter_cons_False by done.
      destruct (pin n ((i + 0)%nat, fi)) eqn:E; [| apply (IH (S i))].
      exfalso. apply Hint, Hp. eauto.
  - intros ks -> fml. split.
    + unfold to_formula. change (empty r) with false. cbn match.
      rewrite get_ineqs_valid by done. cbn [mbind option_bind].
      rewrite Hrows, of_rows_rows. cbn [mbind option_bind]. f_equal. unfold fml. f_equal.
      rewrite pinned_rows_numerals. rewrite fmap_imap.
      apply imap_ext. intros i kb Hi. simpl.
      apply to_formula_row_pinned. by apply lookup_lt_Some in Hi.
    + intros x. unfold fml. rewrite holds_bool_rewriter_mk_and. rewrite Forall_lookup. split.
      * intros Hall i kb Hi. apply holds_pinned_conjunct.
        apply (Hall i). rewrite list_lookup_imap, Hi. done.
      * intros Hall i e He. rewrite list_lookup_imap in He.
        destruct (ks !! i) as [kb|] eqn:Hi; [| done]. injection He as <-.
        apply holds_pinned_conjunct. by apply Hall.
Qed.

Lemma add_fact_pins_integer_numerals_witness :
  let f := [int_numeral 3; x_ 0; int_numeral 5] in
  let r := @add_fact f (mk_empty [int_sort; int_sort; int_sort]) in
  m_ineqs r = matrix.of_rows (pinned_rows f)
  ∧ (unit_row 3 2, - rational_of_Z 5, true) ∈ pinned_rows f
  ∧ Forall (λ row, row.1.1 !! 1%nat = Some 0) (pinned_rows f)
  ∧ @to_formula (constant_hb None []) (add_fact [int_numeral 3; int_numeral 5] (mk_empty [int_sort; int_sort]))
    = Some (bool_rewriter_mk_and
              [pinned_conjunct 0 (rational_of_Z 3); pinned_conjunct 1 (rational_of_Z 5)]).
Proof.
  intros f r.
  pose proof (@add_fact_pins_integer_numerals (constant_hb None [])
                [int_sort; int_sort; int_sort] f) as (H1 & H2 & H3 & _).
  pose proof (@add_fact_pins_integer_numerals (constant_hb None [])
                [int_sort; int_sort] [int_numeral 3; int_numeral 5])
    as (_ & _ & _ & _ & _ & _ & _ & H8).
  split; [exact H1 |]. split; [| split].
  - apply (H2 2%nat (int_numeral 5) (rational_of_Z 5)); reflexivity.
  - apply (H3 1%nat (x_ 0)); reflexivity.
  - apply (H8 [(3%Z, true); (5%Z, true)]). reflexivity.
Defined.

(** ** dualizeI and init_basis *)

Lemma dualizeI_basis_rows sols : ∀ fi pre,
  dualizeI_basis sols fi (matrix.of_rows pre) = matrix.of_rows (pre ++ basis_rows sols fi).
Proof.
  induction sols as [|[soln init] sols IH]; intros fi pre; simpl.
  - by rewrite app_nil_r.
  - destruct init, fi; simpl; rewrite ?of_rows_push, IH, <- ?app_assoc; done.
Qed.

Lemma basis_rows_eq sols fi : Forall (λ r, r.2 = true) (basis_rows sols fi).
Proof.
  revert fi. induction sols as [|[soln init] sols IH]; intros fi; simpl; [constructor |].
  destruct init, fi; simpl; try constructor; auto.
Qed.

Lemma basis_rows_initial sols fi :
  filter (λ r, r.1.2 = 1) (basis_rows sols fi)
  = (λ v, (v, 1, true)) <$> (if fi then option_list (first_initial sols) else []).
Proof.
  revert fi. unfold first_initial.
  induction sols as [|[soln init] sols IH]; intros fi; [by destruct fi |].
  cbn [basis_rows]. rewrite (filter_cons (λ s, s.2 = true)).
  destruct init, fi; cbn [andb negb fst snd]; rewrite ?filter_cons; cbn [fst snd];
    repeat case_decide; try done.
  all: simpl; rewrite ?(IH false), ?(IH true); done.
Qed.

Lemma basis_rows_non_initial sols fi :
  filter (λ r, r.1.2 = 0) (basis_rows sols fi) = (λ v, (v, 0, true)) <$> non_initial sols.
Proof.
  revert fi. unfold non_initial.
  induction sols as [|[soln init] sols IH]; intros fi; [done |].
  cbn [basis_rows]. rewrite (filter_cons (λ s, s.2 = false)).
  destruct init, fi; cbn [andb negb fst snd]; rewrite ?filter_cons; cbn [fst snd];
    repeat case_decide; try done; rewrite ?fmap_cons; cbn [fst]; f_equal; apply IH.
Qed.

Lemma basis_rows_length sols fi :
  length (basis_rows sols fi)
  = (length (if fi then option_list (first_initial sols) else []) + length (non_initial sols))%nat.
Proof.
  revert fi. unfold first_initial, non_initial.
  induction sols as [|[soln init] sols IH]; intros fi; [by destruct fi |].
  cbn [basis_rows]. rewrite (filter_cons (λ s, s.2 = true)), (filter_cons (λ s, s.2 = false)).
  destruct init, fi; cbn [andb negb fst snd]; repeat case_decide; try done;
    cbn [length head fmap option_fmap option_map option_list list_fmap app].
  all: rewrite ?(IH false), ?(IH true); simpl; rewrite ?length_fmap; lia.
Qed.

Lemma basis_rows_sublist sols fi : sublist (basis_rows sols fi).*1.*1 sols.*1.
Proof.
  revert fi. induction sols as [|[soln init] sols IH]; intros fi; simpl; [constructor |].
  destruct init, fi; simpl; (by apply sublist_skip) || (by apply sublist_cons).
Qed.

Lemma wf_rows M : matrix.wf M → is_Some (matrix.rows M).
Proof. intros Hwf. rewrite (wf_is_of_rows M Hwf), of_rows_rows. eauto. Qed.

Lemma dualizeI_input_wf src : matrix.wf src → is_Some (dualizeI_input src).
Proof.
  intros Hwf. unfold dualizeI_input. destruct (wf_rows src Hwf) as [rows ->]. simpl. eauto.
Qed.

(** C7.  For a well-formed constraint matrix [src], [dualizeI] feeds the
    saturator and returns: failure exactly when the saturator reports
    UNSAT, and then [init_basis] marks the relation empty; success with an
    empty basis when the saturator reports UNDEF or throws (nothing
    escapes: the call returns); and after SAT a basis whose rows are all
    tagged equality, whose rows with constant [1] are the first initial
    solution alone, whose rows with constant [0] are the non-initial
    solutions in order, and which has no other row. *)
Theorem dualizeI_outcomes `{hilbert_basis} (src : matrix.t) :
  matrix.wf src →
  ∃ hb ok dst,
    dualizeI_input src = Some hb
    ∧ dualizeI src = Some (ok, dst)
    ∧ (ok = false ↔ saturate hb = Some l_false)
    ∧ (saturate hb = Some l_false →
       ∀ r, m_ineqs r = src → m_basis_valid r = false →
            ∃ r', init_basis r = Some r' ∧ empty r' = true)
    ∧ (saturate hb = Some l_undef ∨ saturate hb = None →
       ok = true ∧ dst = matrix.empty)
    ∧ (saturate hb = Some l_true →
       let sols := get_basis_solution hb in
       ∃ rows,
         ok = true ∧ dst = matrix.of_rows rows
         ∧ Forall (λ r, r.2 = true) rows
         ∧ filter (λ r, r.1.2 = 1) rows = (λ v, (v, 1, true)) <$> option_list (first_initial sols)
         ∧ filter (λ r, r.1.2 = 0) rows = (λ v, (v, 0, true)) <$> non_initial sols
         ∧ length rows
           = (length (option_list (first_initial sols)) + length (non_initial sols))%nat
         ∧ sublist rows.*1.*1 sols.*1).
Proof.
  intros Hwf. destruct (dualizeI_input_wf src Hwf) as [hb Hhb].
  assert (Hd : dualizeI src
               = Some (match saturate_guarded hb with
                       | l_false => (false, matrix.empty)
                       | l_undef => (true, matrix.empty)
                       | l_true => (true, dualizeI_basis (get_basis_solution hb) true
                                            matrix.empty)
                       end)).
  { unfold dualizeI. rewrite Hhb. simpl. by destruct (saturate_guarded hb). }
  unfold saturate_guarded in Hd.
  destruct (saturate hb) as [[| |]|] eqn:Hs.
  - exists hb, false, matrix.empty. rewrite !Hs.
    split; [done |]. split; [done |]. split; [done |]. split; [| split].
    + intros _ r Hr Hb. unfold init_basis. rewrite Hb, Hr, Hd. simpl. eauto.
    + intros [? | ?]; discriminate.
    + done.
  - exists hb, true, matrix.empty. rewrite !Hs.
    split; [done |]. split; [done |]. split; [done |]. split; [done |]. split; done.
  - exists hb, true, (dualizeI_basis (get_basis_solution hb) true matrix.empty). rewrite !Hs.
    split; [done |]. split; [done |]. split; [done |]. split; [done |]. split.
    + intros [? | ?]; discriminate.
    + intros _ sols. exists (basis_rows sols true).
      change matrix.empty with (matrix.of_rows []). rewrite dualizeI_basis_rows. simpl.
      split; [done |]. split; [done |]. split; [apply basis_rows_eq |].
      split; [apply (basis_rows_initial sols true) |].
      split; [apply basis_rows_non_initial |].
      split; [apply (basis_rows_length sols true) | apply basis_rows_sublist].
  - exists hb, true, matrix.empty. rewrite !Hs.
    split; [done |]. split; [done |]. split; [done |]. split; [done |]. split; done.
Qed.

Lemma dualizeI_outcomes_witness :
  let src := matrix.of_rows [([1; 1], -2, false)] in
  let H := constant_hb (Some l_true) [([2; 0], true); ([0; 2], true); ([1; -1], false)] in
  ∃ hb ok dst rows,
    dualizeI_input src = Some hb ∧ dualizeI src = Some (ok, dst)
    ∧ (ok = false ↔ saturate hb = Some l_false)
    ∧ ok = true ∧ dst = matrix.of_rows rows
    ∧ filter (λ r, r.1.2 = 1) rows = [([2; 0], 1, true)]
    ∧ filter (λ r, r.1.2 = 0) rows = [([1; -1], 0, true)]
    ∧ length rows = 2%nat.
Proof.
  intros src H.
  destruct (@dualizeI_outcomes H src) as (hb & ok & dst & H1 & H2 & H3 & _ & _ & H6).
  - split; reflexivity.
  - destruct (H6 eq_refl) as (rows & Hok & Hdst & _ & Hone & Hzero & Hlen & _).
    exists hb, ok, dst, rows.
    split; [exact H1 |]. split; [exact H2 |]. split; [exact H3 |].
    split; [exact Hok |]. split; [exact Hdst |].
    split; [exact Hone |]. split; [exact Hzero | exact Hlen].
Defined.

(** ** mk_union *)

Lemma Some_bool_decide_ext (P Q : Prop) `{Decision P, Decision Q} :
  (P ↔ Q) → Some (bool_decide P) = Some (bool_decide Q).
Proof. intros E. f_equal. by apply bool_decide_ext. Qed.

Lemma Some_bool_decide_true (P : Prop) `{Decision P} : P → Some true = Some (bool_decide P).
Proof. intros E. by rewrite bool_decide_eq_true_2. Qed.

Lemma Some_bool_decide_false (P : Prop) `{Decision P} :
  ¬ P → Some false = Some (bool_decide P).
Proof. intros E. by rewrite bool_decide_eq_false_2. Qed.

Lemma same_row_loop_spec r1 r2 k : ∀ i,
  length r1 = length r2 → (i + k = length r1)%nat →
  same_row_loop r1 r2 (seq i k) = Some (bool_decide (drop i r1 = drop i r2)).
Proof.
  induction k as [|k IH]; intros i Hlen Hik; simpl.
  - rewrite !drop_ge by lia. by rewrite bool_decide_eq_true_2.
  - unfold get.
    destruct (lookup_lt_is_Some_2 r1 i) as [x Hx]; [lia |].
    destruct (lookup_lt_is_Some_2 r2 i) as [y Hy]; [lia |].
    rewrite Hx, Hy. simpl.
    rewrite (drop_S r1 x i Hx), (drop_S r2 y i Hy).
    destruct (decide (x = y)) as [-> | Hne].
    + rewrite IH by lia. apply Some_bool_decide_ext. split; congruence.
    + apply Some_bool_decide_false. congruence.
Qed.

Lemma same_row_spec r1 r2 :
  length r1 = length r2 → same_row r1 r2 = Some (bool_decide (r1 = r2)).
Proof. intros Hlen. unfold same_row. by rewrite same_row_loop_spec. Qed.

Lemma found_at_spec m n i j rm rn :
  m !! i = Some rm → n !! j = Some rn → length rm.1.1 = length rn.1.1 →
  found_at (matrix.of_rows m) (matrix.of_rows n) i j = Some (bool_decide (rm = rn)).
Proof.
  intros Hm Hn Hlen. unfold found_at, get, matrix.of_rows. simpl.
  rewrite !list_lookup_fmap, Hm, Hn. simpl.
  destruct rm as [[a1 c1] e1], rn as [[a2 c2] e2]. simpl in *.
  rewrite same_row_spec by done. simpl.
  case_bool_decide as Ha; simpl.
  - subst a2. destruct (decide (c1 = c2)) as [-> | Hc].
    + apply Some_bool_decide_ext. split; congruence.
    + apply Some_bool_decide_false. congruence.
  - apply Some_bool_decide_false. congruence.
Qed.

Lemma find_row_spec w m n i rm js :
  m !! i = Some rm → length rm.1.1 = w →
  Forall (λ r, length r.1.1 = w) n →
  Forall (λ j, j < length n)%nat js →
  find_row (matrix.of_rows m) (matrix.of_rows n) i js
  = Some (bool_decide (Exists (λ j, n !! j = Some rm) js)).
Proof.
  intros Hm Hw Hn Hjs. induction Hjs as [|j js Hj Hjs IH]; simpl.
  - done.
  - destruct (lookup_lt_is_Some_2 n j Hj) as [rn Hrn].
    rewrite (found_at_spec m n i j rm rn) by
      (try done; rewrite Hw; symmetry; apply (Forall_lookup_1 _ _ _ _ Hn Hrn)).
    simpl. destruct (decide (rm = rn)) as [E | E];
      [rewrite (bool_decide_eq_true_2 (rm = rn)) by done
      | rewrite (bool_decide_eq_false_2 (rm = rn)) by done].
    + subst rn. apply Some_bool_decide_true. by left.
    + rewrite IH. apply Some_bool_decide_ext. rewrite Exists_cons.
      split; [tauto |]. intros [E' | ?]; [congruence | done].
Qed.

Lemma Exists_seq_take {T} (n : list T) (x : T) k :
  Exists (λ j, n !! j = Some x) (seq 0 k) ↔ x ∈ take k n.
Proof.
  rewrite Exists_exists, list_elem_of_lookup. split.
  - intros (j & Hj & Hx). apply elem_of_seq in Hj. exists j.
    rewrite lookup_take_lt by lia. done.
  - intros (j & Hj). apply lookup_take_Some in Hj as [Hx Hlt].
    exists j. split; [apply elem_of_seq; lia | done].
Qed.

Lemma union_loop_spec w m n0 k : ∀ i added,
  Forall (λ r, length r.1.1 = w) m →
  Forall (λ r, length r.1.1 = w) n0 →
  Forall (λ r, length r.1.1 = w) added →
  (i + k = length m)%nat →
  union_loop (matrix.of_rows m) (matrix.of_rows (n0 ++ added)) (length n0) (seq i k)
  = Some (matrix.of_rows (n0 ++ added ++ filter (λ r, r ∉ n0) (drop i m))).
Proof.
  induction k as [|k IH]; intros i added Hm Hn Ha Hik; simpl.
  - rewrite drop_ge by lia. by rewrite filter_nil, app_nil_r.
  - destruct (lookup_lt_is_Some_2 m i) as [rm Hrm]; [lia |].
    assert (Hw : length rm.1.1 = w) by apply (Forall_lookup_1 _ _ _ _ Hm Hrm).
    rewrite (find_row_spec w m (n0 ++ added) i rm); try done.
    2: { by apply Forall_app. }
    2: { apply Forall_forall. intros j Hj%elem_of_seq. rewrite length_app. lia. }
    simpl. rewrite (drop_S m rm i Hrm).
    assert (Hmem : Exists (λ j, (n0 ++ added) !! j = Some rm) (seq 0 (length n0)) ↔ rm ∈ n0).
    { rewrite Exists_seq_take. by rewrite take_app_length. }
    case_bool_decide as Hex.
    + apply Hmem in Hex. rewrite filter_cons_False; [| intros Hnot; by apply Hnot].
      apply IH; (done || lia).
    + rewrite of_rows_row, Hrm. simpl. destruct rm as [[r c] e].
      rewrite of_rows_push, <- app_assoc.
      rewrite IH; [| done | done | | lia].
      * rewrite filter_cons_True; [| intros Hin; apply Hex, Hmem, Hin].
        by rewrite <- app_assoc.
      * apply Forall_app. split; [done |]. by apply Forall_singleton.
Qed.

Lemma assign_eq M N : matrix.assign M N = N.
Proof. by destruct N. Qed.

(** The members that [copy] writes, and those it leaves. *)
Lemma copy_copy_of d target : copy_of (copy d target) d target.
Proof. unfold copy_of, copy. cbn. by rewrite !assign_eq. Qed.

Lemma with_empty_marked_empty d : marked_empty (with_empty true d) d.
Proof. by destruct d. Qed.

(** C3.  The three cases of [mk_union(src, delta)], called on the target
    [self].  (1) [src] empty: the target is unchanged and [delta], when
    supplied, is marked empty: its emptiness flag is set and nothing else
    of it changes.  (2) [src] not empty and the target empty: the
    target's basis becomes the (materialised) basis of [src], the basis
    is valid, the constraints are not, the target is no longer empty, and
    [delta], when supplied, receives a copy of the target: afterwards its
    two matrices, its two validity flags and its emptiness flag are the
    target's, its signature and predicate its own.  (3) otherwise, with
    both materialised bases well formed and of one width: the target's
    basis is its rows followed by the rows of [src]'s basis that have no
    exact duplicate among them, [ineqs_valid] is false, and [delta]
    receives such a copy of the updated target exactly when a row was
    appended, and is left as it was when none was.  No [delta] is made
    when none is supplied. *)
Theorem mk_union_cases `{hilbert_basis} (self src : karr_relation)
    (delta : option karr_relation) :
  (empty src = true →
   mk_union self src delta = Some (self, src, with_empty true <$> delta)
   ∧ ∃ delta', mk_union self src delta = Some (self, src, delta')
       ∧ (delta = None → delta' = None)
       ∧ ∀ d, delta = Some d → ∃ d', delta' = Some d' ∧ marked_empty d' d)
  ∧ (empty src = false → ∀ src', get_basis src = Some src' →
     (empty self = true →
      ∃ self', mk_union self src delta = Some (self', src', (λ d, copy d self') <$> delta)
        ∧ m_basis self' = m_basis src'
        ∧ m_basis_valid self' = true ∧ m_ineqs_valid self' = false ∧ empty self' = false
        ∧ m_ineqs self' = m_ineqs self
        ∧ ∃ delta', mk_union self src delta = Some (self', src', delta')
            ∧ (delta = None → delta' = None)
            ∧ ∀ d, delta = Some d →
                   ∃ d', delta' = Some d' ∧ copy_of d' d self'
                         ∧ m_basis d' = m_basis src' ∧ m_basis_valid d' = true
                         ∧ empty d' = false)
     ∧ (empty self = false → ∀ self1 w rowsN rowsM,
        get_basis self = Some self1 →
        m_basis self1 = matrix.of_rows rowsN → m_basis src' = matrix.of_rows rowsM →
        Forall (λ r, length r.1.1 = w) rowsN → Forall (λ r, length r.1.1 = w) rowsM →
        let appended := filter (λ r, r ∉ rowsN) rowsM in
        ∃ self2,
          mk_union self src delta
          = Some (self2, src',
                  if decide (appended ≠ []) then (λ d, copy d self2) <$> delta else delta)
          ∧ m_basis self2 = matrix.of_rows (rowsN ++ appended)
          ∧ m_basis self2 = matrix.of_rows (union_rows rowsN rowsM)
          ∧ m_ineqs_valid self2 = false
          ∧ self2 = with_ineqs_valid false (with_basis (m_basis self2) self1)
          ∧ ∃ delta', mk_union self src delta = Some (self2, src', delta')
              ∧ (delta = None → delta' = None)
              ∧ (appended = [] → delta' = delta)
              ∧ (appended ≠ [] → ∀ d, delta = Some d →
                   ∃ d', delta' = Some d' ∧ copy_of d' d self2
                         ∧ m_basis d' = matrix.of_rows (rowsN ++ appended)
                         ∧ m_ineqs_valid d' = false
                         ∧ empty d' = empty self1))).
Proof.
  split.
  { intros He. assert (Hu : mk_union self src delta
                            = Some (self, src, with_empty true <$> delta)).
    { unfold mk_union. by rewrite He. }
    split; [exact Hu |]. eexists. split; [exact Hu |]. split.
    - by intros ->.
    - intros d ->. eexists. split; [reflexivity |]. apply with_empty_marked_empty. }
  intros He src' Hsrc. split.
  - intros Hs.
    set (self' := with_ineqs_valid false (with_empty false (with_basis_valid true
                    (with_basis (matrix.assign (m_basis self) (m_basis src')) self)))).
    assert (Hu : mk_union self src delta
                 = Some (self', src', (λ d, copy d self') <$> delta)).
    { unfold mk_union. by rewrite He, Hsrc, Hs. }
    assert (Hb : m_basis self' = m_basis src') by (unfold self'; cbn; by rewrite assign_eq).
    exists self'. split; [exact Hu |]. split; [exact Hb |]. do 4 (split; [done |]).
    eexists. split; [exact Hu |]. split; [by intros -> |].
    intros d ->. eexists. split; [reflexivity |].
    pose proof (copy_copy_of d self') as Hc. split; [exact Hc |].
    unfold empty. destruct Hc as (_ & _ & -> & -> & -> & _). by rewrite Hb.
  - intros Hs self1 w rowsN rowsM Hg HN HM HwN HwM appended.
    set (self2 := with_ineqs_valid false
                    (with_basis (matrix.of_rows (rowsN ++ appended)) self1)).
    assert (Hu : mk_union self src delta
                 = Some (self2, src',
                         if decide (appended ≠ []) then (λ d, copy d self2) <$> delta
                         else delta)).
    { unfold mk_union. rewrite He, Hsrc, Hs. simpl. rewrite Hg. simpl.
      rewrite HN, HM, !of_rows_size.
      pose proof (union_loop_spec w rowsM rowsN (length rowsM) 0 [] HwM HwN) as Hloop.
      rewrite app_nil_r in Hloop. rewrite Hloop by (done || lia). simpl.
      rewrite drop_0. fold appended. rewrite of_rows_size, length_app. fold self2.
      destruct (decide (appended ≠ [])) as [Hne | Heq].
      + rewrite decide_True; [done |]. destruct appended; [done | simpl; lia].
      + rewrite decide_False; [done |]. intros Hlen. apply Hlen.
        destruct appended; [simpl; lia |]. exfalso. by apply Heq. }
    exists self2. split; [exact Hu |]. do 4 (split; [reflexivity |]).
    eexists. split; [exact Hu |]. split; [| split].
    + intros ->. by case_decide.
    + intros Hnil. rewrite decide_False; [done |]. intros Hne. by apply Hne.
    + intros Hne d ->. rewrite decide_True by done. eexists. split; [reflexivity |].
      pose proof (copy_copy_of d self2) as Hc. split; [exact Hc |].
      unfold empty. destruct Hc as (_ & -> & -> & _ & -> & _). done.
Qed.

Lemma mk_union_cases_witness :
  let H := constant_hb None [] in
  let rowsN := [([1; 0], 1, true)] in
  let rowsM := [([1; 0], 1, true); ([0; 1], 0, true)] in
  let sig := [int_sort; int_sort] in
  let self := mk_karr_relation sig None false matrix.empty false (matrix.of_rows rowsN) true in
  let src := mk_karr_relation sig None false matrix.empty false (matrix.of_rows rowsM) true in
  let gone := mk_karr_relation sig None true matrix.empty false matrix.empty false in
  let d := mk_full None sig in
  (mk_union self gone (Some d) = Some (self, gone, Some (with_empty true d))
   ∧ ∃ delta', mk_union self gone (Some d) = Some (self, gone, delta')
       ∧ ∃ d', delta' = Some d' ∧ marked_empty d' d)
  ∧ (∃ self' delta', mk_union gone src (Some d) = Some (self', src, delta')
       ∧ m_basis self' = m_basis src
       ∧ ∃ d', delta' = Some d' ∧ m_basis d' = matrix.of_rows rowsM ∧ empty d' = false)
  ∧ (∃ self2 delta', mk_union self src (Some d) = Some (self2, src, delta')
       ∧ m_basis self2 = matrix.of_rows (rowsN ++ [([0; 1], 0, true)])
       ∧ ∃ d', delta' = Some d' ∧ copy_of d' d self2
               ∧ m_basis d' = matrix.of_rows (rowsN ++ [([0; 1], 0, true)])).
Proof.
  intros H rowsN rowsM sig self src gone d. split; [| split].
  - destruct (proj1 (mk_union_cases self gone (Some d)) eq_refl)
      as (Hu & delta' & Hu' & _ & Hd).
    split; [exact Hu |]. exists delta'. split; [exact Hu' |]. by apply Hd.
  - destruct (proj2 (mk_union_cases gone src (Some d)) eq_refl src eq_refl) as [Hc _].
    destruct (Hc eq_refl) as (self' & _ & Hb & _ & _ & _ & _ & delta' & Hu & _ & Hd).
    destruct (Hd d eq_refl) as (d' & Hd' & _ & Hbd & _ & Hed).
    exists self', delta'. split; [exact Hu |]. split; [exact Hb |].
    exists d'. split; [exact Hd' |]. split; [exact Hbd | exact Hed].
  - destruct (proj2 (mk_union_cases self src (Some d)) eq_refl src eq_refl)
      as [_ Hc].
    destruct (Hc eq_refl self 2%nat rowsN rowsM eq_refl eq_refl eq_refl)
      as (self2 & _ & Hb & _ & _ & _ & delta' & Hu & _ & _ & Hd).
    + repeat constructor.
    + repeat constructor.
    + destruct (Hd ltac:(discriminate) d eq_refl) as (d' & Hd' & Hc' & Hbd & _).
      exists self2, delta'. split; [exact Hu |]. split; [exact Hb |].
      exists d'. split; [exact Hd' |]. split; [exact Hc' | exact Hbd].
Defined.

(** ** mk_rename *)

Lemma set_Some {T} (v : list T) i x :
  (i < length v)%nat → set v i x = Some (<[i:=x]> v).
Proof. intros Hi. unfold set. by rewrite decide_True. Qed.

(** The state of the row after the assignments for the indices below [i]. *)
Lemma rename_shift_spec cols row0 m : ∀ i row,
  NoDup cols →
  Forall (λ c, c < length row0)%nat cols →
  (i + m = length cols - 1)%nat →
  length row = length row0 →
  (∀ j c c', (j < i)%nat → cols !! j = Some c → cols !! (j + 1)%nat = Some c' →
             row !! c = row0 !! c') →
  (∀ c, (∀ j, (j < i)%nat → cols !! j ≠ Some c) → row !! c = row0 !! c) →
  ∃ row',
    rename_shift cols row (seq i m) = Some row'
    ∧ length row' = length row0
    ∧ (∀ j c c', (j < length cols - 1)%nat → cols !! j = Some c →
                 cols !! (j + 1)%nat = Some c' → row' !! c = row0 !! c')
    ∧ (∀ c, (∀ j, (j < length cols - 1)%nat → cols !! j ≠ Some c) → row' !! c = row0 !! c).
Proof.
  induction m as [|m IH]; intros i row Hnd Hrange Him Hlen Hdone Hrest.
  - simpl. exists row. assert (i = length cols - 1)%nat as -> by lia. eauto.
  - cbn [seq rename_shift]. unfold get.
    destruct (lookup_lt_is_Some_2 cols i) as [ci Hci]; [lia |].
    destruct (lookup_lt_is_Some_2 cols (i + 1)) as [cj Hcj]; [lia |].
    rewrite Hci, Hcj. cbn [mbind option_bind].
    assert (Hci_lt : (ci < length row0)%nat)
      by apply (Forall_lookup_1 _ _ _ _ Hrange Hci).
    assert (Hcj_lt : (cj < length row0)%nat)
      by apply (Forall_lookup_1 _ _ _ _ Hrange Hcj).
    destruct (lookup_lt_is_Some_2 row0 cj Hcj_lt) as [x Hx].
    assert (Hrow_cj : row !! cj = Some x).
    { rewrite Hrest; [done |]. intros j Hj Hcols.
      pose proof (NoDup_lookup _ _ _ _ Hnd Hcols Hcj). lia. }
    rewrite Hrow_cj. cbn [mbind option_bind].
    rewrite set_Some by lia. cbn [mbind option_bind].
    apply IH; try done; try lia.
    + by rewrite length_insert.
    + intros j c c' Hj Hc Hc'. destruct (decide (j = i)) as [-> | Hne].
      * rewrite Hci in Hc. injection Hc as <-. rewrite Hcj in Hc'. injection Hc' as <-.
        rewrite list_lookup_insert_eq by lia. done.
      * rewrite list_lookup_insert_ne.
        -- apply (Hdone j); (done || lia).
        -- intros ->. pose proof (NoDup_lookup _ _ _ _ Hnd Hci Hc). lia.
    + intros c Hc. rewrite list_lookup_insert_ne.
      * apply Hrest. intros j Hj. apply Hc. lia.
      * intros ->. by apply (Hc i); [lia |].
Qed.

Lemma rename_row_spec cols row :
  NoDup cols → cols ≠ [] → Forall (λ c, c < length row)%nat cols →
  ∃ row', rename_row cols row = Some row' ∧ cycled cols row row'.
Proof.
  intros Hnd Hne Hrange. unfold rename_row, get.
  assert (Hk : (0 < length cols)%nat) by (destruct cols; [done | simpl; lia]).
  destruct (lookup_lt_is_Some_2 cols 0 Hk) as [c0 Hc0].
  rewrite Hc0. cbn [mbind option_bind].
  assert (Hc0_lt : (c0 < length row)%nat) by apply (Forall_lookup_1 _ _ _ _ Hrange Hc0).
  destruct (lookup_lt_is_Some_2 row c0 Hc0_lt) as [tmp Htmp].
  rewrite Htmp. cbn [mbind option_bind].
  destruct (rename_shift_spec cols row (length cols - 1) 0 row)
    as (row1 & Hshift & Hlen1 & Hdone & Hrest); try done; try lia.
  rewrite Hshift. cbn [mbind option_bind].
  destruct (lookup_lt_is_Some_2 cols (length cols - 1)) as [cl Hcl]; [lia |].
  rewrite Hcl. cbn [mbind option_bind].
  assert (Hcl_lt : (cl < length row)%nat) by apply (Forall_lookup_1 _ _ _ _ Hrange Hcl).
  rewrite set_Some by lia. eexists. split; [reflexivity |].
  split; [by rewrite length_insert | split].
  - intros i c c' Hc Hc'. unfold cycle_source in Hc'.
    assert (Hi : (i < length cols)%nat) by by apply lookup_lt_Some in Hc.
    destruct (decide (i = length cols - 1)%nat) as [-> | Hne'].
    + rewrite Hcl in Hc. injection Hc as <-.
      replace (length cols - 1 + 1)%nat with (length cols) in Hc' by lia.
      rewrite Nat.Div0.mod_same in Hc'. rewrite Hc0 in Hc'. injection Hc' as <-.
      rewrite list_lookup_insert_eq by lia. done.
    + rewrite Nat.mod_small in Hc' by lia.
      rewrite list_lookup_insert_ne.
      * apply (Hdone i); (done || lia).
      * intros ->. pose proof (NoDup_lookup _ _ _ _ Hnd Hcl Hc). lia.
  - intros c Hc. rewrite list_lookup_insert_ne.
    + apply Hrest. intros j Hj Hcj. apply Hc. by apply list_elem_of_lookup_2 in Hcj.
    + intros ->. apply Hc. by apply list_elem_of_lookup_2 in Hcl.
Qed.

Lemma mk_rename_matrix_spec n cols M :
  NoDup cols → cols ≠ [] → Forall (λ c, c < n)%nat cols → matrix.width n M →
  ∃ M', mk_rename_matrix (matrix.append matrix.empty M) cols = Some M' ∧ renamed cols M M'.
Proof.
  intros Hnd Hne Hrange Hw. unfold mk_rename_matrix.
  assert (Happ : matrix.append matrix.empty M = M) by by destruct M.
  rewrite Happ.
  assert (HA : ∃ A', mapM (rename_row cols) (matrix.A M) = Some A'
                     ∧ Forall2 (cycled cols) (matrix.A M) A').
  { unfold matrix.width in Hw. induction Hw as [|row A Hrow HA IH].
    - exists []. split; [done | constructor].
    - destruct IH as (A' & HA' & Hall).
      destruct (rename_row_spec cols row) as (row' & Hrow' & Hcyc); try done.
      { by rewrite Hrow. }
      exists (row' :: A'). split; [| by constructor].
      simpl. rewrite Hrow'. simpl.
      change (mapM (rename_row cols) A) with (mapM (rename_row cols) A) in HA'.
      by rewrite HA'. }
  destruct HA as (A' & HA' & Hall). rewrite HA'. simpl.
  eexists. split; [reflexivity |]. by split.
Qed.

(** C4 as stated fails on an empty input: the guard [if (r.empty())] only
    marks the result empty.  The result of [rename_fn] on the empty
    relation made by [mk_empty] has [ineqs_valid = true] (it was created
    by [mk_full]) while the input has [ineqs_valid = false]; and on an
    empty relation whose constraints [x₀ − x₁ = 0] are valid the
    permutation is not applied: the result has no row. *)
Lemma mk_rename_empty_input_counterexample :
  let sig := [int_sort; int_sort; int_sort] in
  (∃ r', rename_fn sig [0; 1; 2]%nat (mk_empty sig) = Some r'
         ∧ m_ineqs_valid r' ≠ m_ineqs_valid (mk_empty sig))
  ∧ (let r := mk_karr_relation sig None true (matrix.of_rows [([1; -1; 0], 0, true)])
                true matrix.empty false in
     ∃ r', rename_fn sig [0; 1; 2]%nat r = Some r'
           ∧ m_ineqs_valid r = true ∧ m_ineqs r' = matrix.empty).
Proof.
  intros sig. split.
  - eexists. split; [reflexivity |]. simpl. discriminate.
  - intros r. eexists. split; [reflexivity |]. split; reflexivity.
Qed.

(** C4, amended.  On an empty input [mk_rename] only marks the result
    empty.  On a non-empty input, for a cycle of distinct columns within
    the width of the rows: the result's [ineqs_valid] and [basis_valid]
    equal the input's; each form that is valid is the input's form with
    every row run through the assignments [tmp ← row[cycle[0]]],
    [row[cycle[i]] ← row[cycle[i+1]]] for [i = 0..k−2],
    [row[cycle[k−1]] ← tmp], whose effect is the cyclic permutation of
    the columns; a form that is not valid is left empty.  The relation
    over three columns whose only constraint is [x₀ − x₁ = 0] becomes,
    under the cycle (0,1,2), the relation whose only constraint is
    [−x₀ + x₂ = 0]. *)
Theorem mk_rename_applies_cycle (sig : list sort) (cols : list nat) (r : karr_relation)
    (n : nat) :
  (empty r = true → rename_fn sig cols r = Some (with_empty true (mk_full None sig)))
  ∧ (empty r = false →
     NoDup cols → cols ≠ [] → Forall (λ c, c < n)%nat cols →
     (m_ineqs_valid r = true → matrix.width n (m_ineqs r)) →
     (m_basis_valid r = true → matrix.width n (m_basis r)) →
     ∃ r', rename_fn sig cols r = Some r'
       ∧ m_ineqs_valid r' = m_ineqs_valid r
       ∧ m_basis_valid r' = m_basis_valid r
       ∧ empty r' = false
       ∧ (if m_ineqs_valid r
          then mk_rename_matrix (m_ineqs r) cols = Some (m_ineqs r')
               ∧ renamed cols (m_ineqs r) (m_ineqs r')
          else m_ineqs r' = matrix.empty)
       ∧ (if m_basis_valid r
          then mk_rename_matrix (m_basis r) cols = Some (m_basis r')
               ∧ renamed cols (m_basis r) (m_basis r')
          else m_basis r' = matrix.empty))
  ∧ (let sig3 := [int_sort; int_sort; int_sort] in
     rename_fn sig3 [0; 1; 2]%nat
       (mk_karr_relation sig3 None false (matrix.of_rows [([1; -1; 0], 0, true)])
          true matrix.empty false)
     = Some (mk_karr_relation sig3 None false (matrix.of_rows [([-1; 0; 1], 0, true)])
               true matrix.empty false)).
Proof.
  split; [| split].
  - intros He. unfold rename_fn, mk_rename. by rewrite He.
  - intros He Hnd Hne Hrange Hwi Hwb. unfold rename_fn, mk_rename. rewrite He.
    assert (Happ : ∀ M, matrix.append matrix.empty M = M) by by intros [].
    destruct (m_ineqs_valid r) eqn:Hi; destruct (m_basis_valid r) eqn:Hb.
    + destruct (mk_rename_matrix_spec n cols (m_ineqs r)) as (Mi & HMi & Hri); auto.
      destruct (mk_rename_matrix_spec n cols (m_basis r)) as (Mb & HMb & Hrb); auto.
      rewrite HMi, HMb. simpl. eexists. split; [reflexivity |]. simpl.
      rewrite Happ in HMi, HMb. auto 10.
    + destruct (mk_rename_matrix_spec n cols (m_ineqs r)) as (Mi & HMi & Hri); auto.
      rewrite HMi. simpl. eexists. split; [reflexivity |]. simpl.
      rewrite Happ in HMi. auto 10.
    + destruct (mk_rename_matrix_spec n cols (m_basis r)) as (Mb & HMb & Hrb); auto.
      rewrite HMb. simpl. eexists. split; [reflexivity |]. simpl.
      rewrite Happ in HMb. auto 10.
    + simpl. eexists. split; [reflexivity |]. simpl. auto 10.
  - reflexivity.
Qed.

Lemma mk_rename_applies_cycle_witness :
  let sig := [int_sort; int_sort; int_sort] in
  let r := mk_karr_relation sig None false (matrix.of_rows [([1; -1; 0], 0, true)])
             true matrix.empty false in
  rename_fn sig [0; 1; 2]%nat (mk_empty sig) = Some (with_empty true (mk_full None sig))
  ∧ ∃ r', rename_fn sig [0; 1; 2]%nat r = Some r'
          ∧ m_ineqs_valid r' = m_ineqs_valid r
          ∧ m_basis_valid r' = m_basis_valid r
          ∧ renamed [0; 1; 2]%nat (m_ineqs r) (m_ineqs r').
Proof.
  intros sig r. split.
  - apply (proj1 (mk_rename_applies_cycle sig [0; 1; 2]%nat (mk_empty sig) 3)). reflexivity.
  - destruct (proj1 (proj2 (mk_rename_applies_cycle sig [0; 1; 2]%nat r 3)))
      as (r' & E & Hi & Hb & _ & [_ Hren] & _).
    + reflexivity.
    + apply (bool_decide_unpack _). reflexivity.
    + discriminate.
    + repeat constructor.
    + intros _. repeat constructor.
    + discriminate.
    + exists r'. auto.
Defined.

(** ** ConstraintParser *)

Lemma expr_ind' (P : expr → Prop) :
  (∀ idx s, P (mk_var idx s)) →
  (∀ n int, P (mk_numeral n int)) →
  (∀ k s args, Forall P args → P (mk_app k s args)) →
  (∀ body, P body → P (mk_quantifier body)) →
  ∀ e, P e.
Proof.
  intros Hvar Hnum Happ Hq. fix IH 1. intros [idx s | n int | k s args | body].
  - apply Hvar.
  - apply Hnum.
  - apply Happ. induction args as [|a args IHargs]; constructor; [apply IH | apply IHargs].
  - apply Hq, IH.
Qed.

Lemma dot_zero_row n j x : dot j (zero_row n) x = 0.
Proof.
  revert j. induction n as [|n IH]; intros j; simpl; [done |].
  fold (zero_row n). rewrite IH. ring.
Qed.

Lemma dot_insert row : ∀ i j c c' x,
  row !! i = Some c → dot j (<[i:=c']> row) x = dot j row x + (c' - c) * x (j + i)%nat.
Proof.
  induction row as [|a row IH]; intros i j c c' x Hi; [done |].
  destruct i as [|i]; simpl in *.
  - injection Hi as ->. rewrite Nat.add_0_r. ring.
  - rewrite (IH i (S j) c c' x Hi). replace (S j + i)%nat with (j + S i)%nat by lia. ring.
Qed.

Lemma dot_unit_row n i c x :
  (i < n)%nat → dot 0 (<[i:=c]> (zero_row n)) x = c * x i.
Proof.
  intros Hi. rewrite (dot_insert _ i 0 0 c x).
  - rewrite dot_zero_row. simpl. ring.
  - unfold zero_row. by apply lookup_replicate_2.
Qed.

(** [is_linear] succeeds on a linear term, keeps the width of the row, and
    adds [mul] times the term to the linear form [row·x + b]. *)
Lemma is_linear_sound n e : ∀ row b mul,
  linear n e = true → length row = n →
  ∃ row' b',
    is_linear e row b mul = Some (true, row', b')
    ∧ length row' = n
    ∧ ∀ x, dot 0 row' x + b' = dot 0 row x + b + mul * eval x e.
Proof.
  induction e as [idx s | k int | k s args IH | body IH] using expr_ind';
    intros row b mul Hlin Hlen.
  - cbn [linear] in Hlin. apply andb_true_iff in Hlin as [Hint Hidx].
    apply bool_decide_eq_true in Hidx.
    cbn [is_linear]. rewrite Hint. cbn [negb]. unfold get.
    destruct (lookup_lt_is_Some_2 row idx) as [c Hc]; [lia |].
    rewrite Hc. cbn [mbind option_bind]. rewrite set_Some by lia. cbn [mbind option_bind].
    eexists _, _. split; [reflexivity |]. split; [by rewrite length_insert |].
    intros x. rewrite (dot_insert row idx 0 c _ x Hc). simpl. ring.
  - cbn [linear] in Hlin. apply andb_true_iff in Hlin as [Hint _].
    cbn [is_linear]. rewrite Hint. cbn [negb].
    eexists _, _. split; [reflexivity |]. split; [done |]. intros x. simpl. ring.
  - cbn [linear] in Hlin. apply andb_true_iff in Hlin as [Hint Hlin].
    destruct k; try discriminate Hlin.
    + (* OP_ADD *)
      cbn [is_linear]. rewrite Hint. cbn [negb]. cbn [eval].
      clear Hint. revert row b Hlen.
      induction IH as [|a args Ha Hargs IHargs]; intros row b Hlen.
      * eexists _, _. split; [reflexivity |]. split; [done |]. intros x. ring.
      * cbn [forallb] in Hlin. apply andb_true_iff in Hlin as [Hla Hlargs].
        destruct (Ha row b mul Hla Hlen) as (row1 & b1 & E1 & Hlen1 & Hsem1).
        rewrite E1. cbn [mbind option_bind].
        destruct (IHargs Hlargs row1 b1 Hlen1) as (row2 & b2 & E2 & Hlen2 & Hsem2).
        exists row2, b2. split; [exact E2 |]. split; [done |].
        intros x. rewrite Hsem2, Hsem1. ring.
    + (* OP_SUB *)
      destruct args as [|e1 [|e2 [|? ?]]]; try discriminate Hlin.
      apply andb_true_iff in Hlin as [Hl1 Hl2].
      apply Forall_cons in IH as [IH1 IH]. apply Forall_cons in IH as [IH2 _].
      cbn [is_linear]. rewrite Hint. cbn [negb].
      destruct (IH1 row b mul Hl1 Hlen) as (row1 & b1 & E1 & Hlen1 & Hsem1).
      rewrite E1. cbn [mbind option_bind].
      destruct (IH2 row1 b1 (- mul) Hl2 Hlen1) as (row2 & b2 & E2 & Hlen2 & Hsem2).
      exists row2, b2. split; [exact E2 |]. split; [done |].
      intros x. rewrite Hsem2, Hsem1. simpl. ring.
    + (* OP_MUL *)
      destruct args as [|e1 [|e2 [|? ?]]]; try discriminate Hlin.
      apply Forall_cons in IH as [IH1 IH]. apply Forall_cons in IH as [IH2 _].
      cbn [is_linear]. rewrite Hint. cbn [negb].
      apply andb_true_iff in Hlin as [Hlin Hl2]. apply andb_true_iff in Hlin as [Hnum Hl1].
      destruct (is_numeral e1) as [k1|] eqn:Hn1.
      * destruct (IH2 row b (mul * k1) Hl2 Hlen) as (row2 & b2 & E2 & Hlen2 & Hsem2).
        exists row2, b2. split; [exact E2 |]. split; [done |].
        intros x. rewrite Hsem2. destruct e1; try discriminate Hn1.
        injection Hn1 as ->. simpl. ring.
      * apply orb_true_iff in Hnum as [Hnum | Hnum];
          apply bool_decide_eq_true in Hnum as [k2 Hn2]; [discriminate Hn2 |].
        rewrite Hn2.
        destruct (IH1 row b (mul * k2) Hl1 Hlen) as (row2 & b2 & E2 & Hlen2 & Hsem2).
        exists row2, b2. split; [exact E2 |]. split; [done |].
        intros x. rewrite Hsem2. destruct e2; try discriminate Hn2.
        injection Hn2 as ->. simpl. ring.
    + (* OP_UMINUS *)
      destruct args as [|e1 [|? ?]]; try discriminate Hlin.
      apply Forall_cons in IH as [IH1 _].
      cbn [is_linear]. rewrite Hint. cbn [negb].
      destruct (IH1 row b (- mul) Hlin Hlen) as (row1 & b1 & E1 & Hlen1 & Hsem1).
      exists row1, b1. split; [exact E1 |]. split; [done |].
      intros x. rewrite Hsem1. simpl. ring.
  - cbn [linear] in Hlin. by rewrite andb_false_r in Hlin.
Qed.

Lemma filter_interpreted_loop_app n pre post M :
  filter_interpreted_loop n (pre ++ post) M
  = filter_interpreted_loop n pre M ≫= filter_interpreted_loop n post.
Proof.
  revert M. induction pre as [|e pre IH]; intros M; simpl; [done |].
  destruct (filter_interpreted_conj n M e) as [M'|]; simpl; [apply IH | done].
Qed.

Lemma emits_intro n e rows :
  (∀ M, filter_interpreted_conj n M e = Some (matrix.append M (matrix.of_rows rows))) →
  emits n e rows.
Proof.
  intros Hconj. split; [done |]. intros pre post M M1 Hpre.
  rewrite filter_interpreted_loop_app, Hpre. simpl. by rewrite Hconj.
Qed.

(** With valid constraints, [filter_interpreted] is the loop over the
    conjuncts of the condition, run on the constraint matrix. *)
Lemma filter_interpreted_valid `{hilbert_basis, dl_util} cond r :
  m_ineqs_valid r = true →
  filter_interpreted cond r
  = M ← filter_interpreted_loop (length (signature r)) (flatten_and cond) (m_ineqs r);
    Some (with_ineqs M r).
Proof. intros Hv. unfold filter_interpreted. by rewrite get_ineqs_valid. Qed.

Lemma rational_gt_spec n1 n2 : rational_gt n1 n2 = true ↔ n2 < n1.
Proof.
  unfold rational_gt. rewrite (Qcgt_alt n1 n2).
  destruct (n1 ?= n2); split; done.
Qed.

Lemma push_push_append M r1 c1 e1 r2 c2 e2 :
  matrix.push (matrix.push M r1 c1 e1) r2 c2 e2
  = matrix.append M (matrix.of_rows [(r1, c1, e1); (r2, c2, e2)]).
Proof. unfold matrix.push, matrix.append, matrix.of_rows. simpl. by rewrite <- !app_assoc. Qed.

Lemma is_eq_var_eq_numeral flip v s k int :
  is_eq (var_eq_numeral flip v s k int) = Some (v, s, k).
Proof. by destruct flip. Qed.

(** ** InvariantDriver *)

Import mk_karr_invariants.

(** One step of the retrieval loop, on the invariant map. *)
Lemma get_invariants_step_lookup `{hilbert_basis} rctx st p st' :
  get_invariants_step rctx st p = Some st' →
  (∀ q, q ≠ p → m_fun2inv st' !! q = m_fun2inv st !! q)
  ∧ match rctx p with
    | Some rb => ∃ fml, to_formula rb = Some fml
                        ∧ m_fun2inv st' !! p = updated_entry (m_fun2inv st !! p) fml
    | None => m_fun2inv st' !! p = m_fun2inv st !! p
    end.
Proof.
  unfold get_invariants_step. intros Hstep.
  destruct (rctx p) as [rb|]; [| injection Hstep as <-; done].
  destruct (to_formula rb) as [fml|]; [| done]. simpl in Hstep.
  destruct (m_is_true fml) eqn:Ht.
  - injection Hstep as <-. split; [done |]. exists fml. split; [done |].
    unfold updated_entry. by rewrite Ht.
  - injection Hstep as <-. simpl. split.
    + intros q Hq. by rewrite lookup_insert_ne.
    + exists fml. split; [done |]. unfold updated_entry. rewrite Ht.
      by rewrite lookup_insert_eq.
Qed.

(** The retrieval loop, on the invariant map: each predicate of the list
    is updated once, with the formula of its relation. *)
Lemma get_invariants_loop_lookup `{hilbert_basis} rctx ps : ∀ st st',
  NoDup ps →
  get_invariants_loop rctx st ps = Some st' →
  ∀ q,
    match (if decide (q ∈ ps) then rctx q else None) with
    | Some rb => ∃ fml, to_formula rb = Some fml
                        ∧ m_fun2inv st' !! q = updated_entry (m_fun2inv st !! q) fml
    | None => m_fun2inv st' !! q = m_fun2inv st !! q
    end.
Proof.
  induction ps as [|p ps IH]; intros st st' Hnd Hloop q.
  - simpl in Hloop. injection Hloop as <-. by rewrite decide_False by apply not_elem_of_nil.
  - simpl in Hloop. apply NoDup_cons in Hnd as [Hp Hnd].
    destruct (get_invariants_step rctx st p) as [st1|] eqn:Hstep; [| done].
    simpl in Hloop. apply get_invariants_step_lookup in Hstep as [Hother Hself].
    specialize (IH st1 st' Hnd Hloop q).
    destruct (decide (q = p)) as [-> | Hne].
    + rewrite decide_True by (apply elem_of_cons; auto). rewrite decide_False in IH by done.
      rewrite IH. exact Hself.
    + rewrite <- (Hother q Hne). destruct (decide (q ∈ ps)) as [Hin | Hin].
      * rewrite decide_True by (apply elem_of_cons; auto). exact IH.
      * rewrite decide_False by (rewrite elem_of_cons; tauto). exact IH.
Qed.

Lemma grouped_rules_NoDup src : NoDup (grouped_rules src).
Proof. apply NoDup_remove_dups. Qed.


(** The literal [true] holds under every valuation. *)
Lemma holds_is_true x fml : m_is_true fml = true → holds x fml.
Proof.
  intros Ht. destruct fml as [| |k s args|]; try discriminate Ht.
  destruct k; try discriminate Ht. by destruct args.
Qed.

(** C8.  The invariant map is updated monotonically.  A predicate that
    has the entry [inv] before [get_invariants] has an entry afterwards,
    and that entry implies [inv]: no entry is removed or weakened.
    Whenever a new formula [fml] is computed for the predicate — it heads
    a rule and the engine has a relation for it — the entry afterwards is
    the conjunction of [inv] with [fml]: it holds exactly when [inv] and
    [fml] both hold; as a term it is [mk_and inv fml], or [inv] itself
    when [fml] is the literal [true].  When no formula is computed the
    entry stays [inv].  So an entry is never replaced by anything other
    than a conjunction with it. *)
Theorem get_invariants_conjoins `{hilbert_basis, driver_context}
    (src : rule_set) (st st' : t) (q : func_decl) (inv : expr) :
  get_invariants src st = Some st' →
  m_fun2inv st !! q = Some inv →
  ∃ entry,
    m_fun2inv st' !! q = Some entry
    ∧ (∀ x, holds x entry → holds x inv)
    ∧ (entry = inv ∨ ∃ fml, entry = mk_and inv fml)
    ∧ match (if decide (q ∈ grouped_rules src) then rel_query src q else None) with
      | Some rb =>
          ∃ fml, to_formula rb = Some fml
                 ∧ entry = (if m_is_true fml then inv else mk_and inv fml)
                 ∧ ∀ x, holds x entry ↔ holds x inv ∧ holds x fml
      | None => entry = inv
      end.
Proof.
  intros Hget Hq. unfold get_invariants in Hget.
  pose proof (get_invariants_loop_lookup _ _ _ _ (grouped_rules_NoDup src) Hget q) as Hl.
  destruct (if decide (q ∈ grouped_rules src) then rel_query src q else None) as [rb|].
  - destruct Hl as (fml & Hf & Hl). rewrite Hq in Hl. unfold updated_entry in Hl.
    destruct (m_is_true fml) eqn:Ht.
    + exists inv. split; [done |]. split; [done |]. split; [by left |].
      exists fml. split; [done |]. rewrite Ht. split; [done |].
      intros x. split; [| tauto]. intros Hx. split; [done |]. by apply holds_is_true.
    + exists (mk_and inv fml). split; [done |]. split.
      { intros x Hx. by apply holds_mk_and in Hx as [Hx _]. }
      split; [right; by exists fml |].
      exists fml. split; [done |]. rewrite Ht. split; [done |]. intros x. apply holds_mk_and.
  - exists inv. rewrite Hl. split; [done |]. split; [done |]. split; [by left | done].
Qed.

Lemma get_invariants_conjoins_witness :
  let hb := constant_hb None [] in
  let p := pred 0 1 in
  let q := pred 1 1 in
  let inv := mk_ge (x_ 0) (int_numeral 0) in
  let rb := add_fact [int_numeral 3] (mk_empty [int_sort]) in
  let top := mk_full (Some q) [int_sort] in
  let ctx := simple_context true
               (λ f, if decide (f = p) then Some rb
                     else if decide (f = q) then Some top else None) in
  let st := mk {[p := inv; q := inv]} [inv; inv] false [] in
  ∃ st',
    get_invariants [simple_rule p [] 0; simple_rule q [] 0] st = Some st'
    ∧ m_fun2inv st' !! p = Some (mk_and inv (pinned_conjunct 0 (rational_of_Z 3)))
    ∧ m_fun2inv st' !! q = Some inv
    ∧ (∀ x, holds x (mk_and inv (pinned_conjunct 0 (rational_of_Z 3))) → holds x inv).
Proof.
  intros hb p q inv rb top ctx st.
  assert (∃ st', get_invariants [simple_rule p [] 0; simple_rule q [] 0] st = Some st'
                 ∧ m_fun2inv st' !! p
                   = Some (mk_and inv (pinned_conjunct 0 (rational_of_Z 3)))
                 ∧ m_fun2inv st' !! q = Some inv) as (st' & Hget & Hp & Hq).
  { eexists. split; [vm_compute; reflexivity |]. split; vm_compute; reflexivity. }
  exists st'. split; [exact Hget |]. split; [exact Hp |]. split; [exact Hq |].
  destruct (@get_invariants_conjoins hb ctx _ st st' p inv Hget)
    as (entry & Hentry & Himp & _).
  - vm_compute. reflexivity.
  - rewrite Hp in Hentry. injection Hentry as <-. exact Himp.
Defined.

(** C9.  With the [karr] flag off, or with a rule that has a negated
    atom in the input, [operator()] returns [0] and touches none of its
    members: no transformation is performed, and by the plugin convention
    the rule set stays the input. *)
Theorem operator_call_refuses `{hilbert_basis, driver_context}
    (source : rule_set) (st : t) :
  karr = false ∨ Exists (λ r, has_negation r = true) source →
  operator_call source st = Some (None, st)
  ∧ rule_transformer_result source None = source.
Proof.
  intros Hoff. split; [| done]. unfold operator_call.
  destruct karr; simpl; [| done].
  destruct Hoff as [? | Hneg]; [done |].
  assert (Hex : existsb has_negation source = true).
  { apply existsb_exists. apply Exists_exists in Hneg as (r & Hr & Hn).
    exists r. split; [by apply list_elem_of_In | done]. }
  by rewrite Hex.
Qed.

Lemma operator_call_refuses_witness :
  let hb := constant_hb None [] in
  let p := pred 0 1 in
  let negated := mk_rule (mk_app (OP_UNINTERPRETED p) bool_sort [x_ 0])
                         [mk_app (OP_UNINTERPRETED p) bool_sort [x_ 0]] 1 [true] 0 in
  let st := mk ∅ [] false [] in
  @operator_call hb (simple_context false (λ _, None)) [simple_rule p [] 0] st
  = Some (None, st)
  ∧ @operator_call hb (simple_context true (λ _, None)) [simple_rule p [] 0; negated] st
    = Some (None, st).
Proof.
  intros hb p negated st. split.
  - apply (@operator_call_refuses hb (simple_context false (λ _, None))).
    left. reflexivity.
  - apply (@operator_call_refuses hb (simple_context true (λ _, None))).
    right. apply Exists_cons_tl, Exists_cons_hd. reflexivity.
Defined.

(** ** ModelConverter *)

Import add_invariant_model_converter.











(** * Further properties of the code *)

(** ** FormulaEmitter *)

Lemma eval_mk_add x args :
  eval x (mk_add args) = foldr (λ a acc, eval x a + acc) 0 args.
Proof. unfold mk_add. simpl. induction args as [|a args IH]; simpl; [done | by rewrite IH]. Qed.

Lemma foldr_eval_app x l1 l2 :
  foldr (λ a acc, eval x a + acc) 0 (l1 ++ l2)
  = foldr (λ a acc, eval x a + acc) 0 l1 + foldr (λ a acc, eval x a + acc) 0 l2.
Proof. induction l1 as [|a l1 IH]; simpl; [ring | rewrite IH; ring]. Qed.

Lemma eval_to_formula_sum x row : ∀ i,
  foldr (λ a acc, eval x a + acc) 0 (to_formula_sum i row) = dot i row x.
Proof.
  induction row as [|c row IH]; intros i; simpl; [done |].
  rewrite is_zero_spec, is_one_spec.
  case_bool_decide as Hz; [| case_bool_decide as Ho]; simpl; rewrite IH.
  - subst c. ring.
  - subst c. ring.
  - ring.
Qed.

Lemma eval_to_formula_lhs x row b :
  eval x (mk_add (to_formula_sum 0 row ++ (if is_zero b then [] else [mk_numeral b true])))
  = row_value row b x.
Proof.
  rewrite eval_mk_add, foldr_eval_app, eval_to_formula_sum. unfold row_value. f_equal.
  rewrite is_zero_spec. case_bool_decide as Hz; simpl; [by subst b | ring].
Qed.

Lemma holds_to_formula_row x row b is_eq :
  holds x (to_formula_row row b is_eq) ↔ row_holds x (row, b, is_eq).
Proof.
  unfold to_formula_row, row_holds. cbn [fst snd].
  destruct is_eq; cbn [holds mk_eq mk_ge]; rewrite eval_to_formula_lhs; done.
Qed.

(** X1.  The conjunct emitted for a row means the row: it holds under a
    valuation exactly when [row·x + b = 0] (equality) or [row·x + b ≥ 0]
    (inequality); eliding zero coefficients and the zero constant and
    writing the coefficient one bare change nothing. *)
Theorem to_formula_row_faithful (x : nat → rational) (row : list rational) (b : rational)
    (is_eq : bool) :
  holds x (to_formula_row row b is_eq) ↔ row_holds x (row, b, is_eq).
Proof.
  unfold to_formula_row, row_holds. cbn [fst snd].
  destruct is_eq; cbn [holds mk_eq mk_ge]; rewrite eval_to_formula_lhs; done.
Qed.

Lemma get_ineqs_empty_flag `{hilbert_basis} r r' : get_ineqs r = Some r' → empty r' = empty r.
Proof.
  unfold get_ineqs, init_ineqs. destruct (m_ineqs_valid r); [by intros [= <-] |].
  destruct (dualizeH (m_basis r)); [| done]. by intros [= <-].
Qed.

Lemma to_formula_nonempty `{hilbert_basis} r r' rows :
  empty r = false → get_ineqs r = Some r' → m_ineqs r' = matrix.of_rows rows →
  ∃ fml, to_formula r = Some fml ∧ ∀ x, holds x fml ↔ Forall (row_holds x) rows.
Proof.
  intros He Hg HM. unfold to_formula. rewrite He, Hg. simpl.
  rewrite HM, of_rows_rows. simpl. eexists. split; [reflexivity |].
  intros x. rewrite holds_bool_rewriter_mk_and, Forall_fmap.
  apply Forall_iff. intros [[row c] e]. apply holds_to_formula_row.
Qed.

(** X2.  The formula of a relation means its constraint form: the formula
    of an empty relation is [false], which holds under no valuation; the
    formula of a non-empty relation holds exactly when every row of its
    (materialised) constraint matrix holds. *)
Theorem to_formula_faithful `{hilbert_basis} (r : karr_relation) :
  (empty r = true → to_formula r = Some mk_false ∧ ∀ x, ¬ holds x mk_false)
  ∧ (empty r = false → ∀ r' rows,
       get_ineqs r = Some r' → m_ineqs r' = matrix.of_rows rows →
       ∃ fml, to_formula r = Some fml ∧ ∀ x, holds x fml ↔ Forall (row_holds x) rows).
Proof.
  split.
  - intros He. unfold to_formula. rewrite He. split; [done |]. intros x. simpl. tauto.
  - intros He r' rows. by apply to_formula_nonempty.
Qed.

Lemma to_formula_faithful_witness :
  let H := constant_hb None [] in
  let r := mk_karr_relation [int_sort; int_sort] None false
             (matrix.of_rows [([1; -1], 0, true); ([0; 2], -2, false)]) true
             matrix.empty false in
  ∃ fml, to_formula r = Some fml
         ∧ ∀ x, holds x fml
                ↔ Forall (row_holds x) [([1; -1], 0, true); ([0; 2], -2, false)].
Proof.
  intros H r.
  exact (proj2 (to_formula_faithful r) eq_refl r _ eq_refl eq_refl).
Defined.

Lemma row_holds_pin n i fi row x :
  (i < n)%nat → pin n (i, fi) = Some row →
  ∃ k, is_numeral fi = Some k ∧ is_int_rational k = true ∧ (row_holds x row ↔ x i = k).
Proof.
  intros Hi. unfold pin. cbn [fst snd].
  destruct (is_numeral fi) as [k|]; [| done].
  destruct (is_int_rational k) eqn:Hk; [| done]. intros [= <-].
  exists k. split; [done |]. split; [done |].
  unfold row_holds, row_value, unit_row. cbn [fst snd]. rewrite dot_unit_row by done.
  split; intros E.
  - transitivity (1 * x i + - k + k); [ring | rewrite E; ring].
  - rewrite E. ring.
Qed.

(** X3.  A fact added to a freshly empty relation pins exactly its
    integer numerals: the formula of the relation holds under a valuation
    exactly when [xᵢ = k] for every component [i] of the fact that is an
    integer numeral [k]; the other components put no condition on their
    column. *)
Theorem add_fact_formula `{hilbert_basis} (sig : list sort) (f : list expr) :
  ∃ fml,
    to_formula (add_fact f (mk_empty sig)) = Some fml
    ∧ ∀ x, holds x fml
           ↔ ∀ i fi k, f !! i = Some fi → is_numeral fi = Some k →
                       is_int_rational k = true → x i = k.
Proof.
  destruct (to_formula_nonempty (add_fact f (mk_empty sig))
              (add_fact f (mk_empty sig)) (pinned_rows f) eq_refl eq_refl)
    as (fml & Hf & Hsem).
  { by apply add_fact_ineqs. }
  exists fml. split; [done |]. intros x. rewrite Hsem, Forall_forall. split.
  - intros Hall i fi k Hi Hn Hk.
    assert (Hp : pin (length f) (i, fi) = Some (unit_row (length f) i, - k, true)).
    { unfold pin. cbn [fst snd]. by rewrite Hn, Hk. }
    assert (Hi' : (i < length f)%nat) by by apply lookup_lt_Some in Hi.
    destruct (row_holds_pin _ _ _ _ x Hi' Hp) as (k' & Hn' & _ & Hiff).
    rewrite Hn in Hn'. injection Hn' as <-. apply Hiff, Hall.
    apply elem_of_pinned_rows. eauto.
  - intros Hall row Hrow. apply elem_of_pinned_rows in Hrow as (i & fi & Hi & Hp).
    assert (Hi' : (i < length f)%nat) by by apply lookup_lt_Some in Hi.
    destruct (row_holds_pin _ _ _ _ x Hi' Hp) as (k & Hn & Hk & Hiff).
    apply Hiff. by apply (Hall i fi k).
Qed.

(** ** ConstraintParser: what a successful [is_linear] has computed *)

Lemma set_inv {T} (v : list T) i x v' :
  set v i x = Some v' → (i < length v)%nat ∧ v' = <[i:=x]> v.
Proof. unfold set. case_decide; [by intros [= <-] | done]. Qed.

Lemma is_linear_inv (e : expr) :
  ∀ (row : list rational) (b mul : rational) ok row' b',
    is_linear e row b mul = Some (ok, row', b') →
    length row' = length row
    ∧ (ok = true → ∀ x, dot 0 row' x + b' = dot 0 row x + b + mul * eval x e).
Proof.
  induction e as [idx s | k int | k s args IH | body IH] using expr_ind';
    intros row b mul ok row' b' Hlin; cbn [is_linear] in Hlin.
  - destruct (negb (is_int (mk_var idx s))); [by injection Hlin as <- <- <- |].
    unfold get in Hlin. destruct (row !! idx) as [c|] eqn:Hc; [| done].
    cbn [mbind option_bind] in Hlin.
    destruct (set row idx (c + mul)) as [row1|] eqn:Hset; [| done].
    apply set_inv in Hset as [Hidx ->]. injection Hlin as <- <- <-.
    split; [by rewrite length_insert |]. intros _ x.
    rewrite (dot_insert row idx 0 c _ x Hc). simpl. ring.
  - destruct (negb (is_int (mk_numeral k int))); injection Hlin as <- <- <-;
      (split; [done |]); [done |]. intros _ x. simpl. ring.
  - destruct (negb (is_int (mk_app k s args))); [by injection Hlin as <- <- <- |].
    destruct k; try (injection Hlin as <- <- <-; by split).
    + (* OP_ADD *)
      cbn [eval].
      revert row b ok row' b' Hlin.
      induction IH as [|a args Ha Hargs IHargs]; intros row b ok row' b' Hlin.
      * injection Hlin as <- <- <-. split; [done |]. intros _ x. ring.
      * destruct (is_linear a row b mul) as [[[ok1 row1] b1]|] eqn:E1; [| done].
        cbn [mbind option_bind] in Hlin.
        destruct (Ha _ _ _ _ _ _ E1) as [Hlen1 Hsem1].
        destruct ok1.
        -- destruct (IHargs _ _ _ _ _ Hlin) as [Hlen2 Hsem2].
           split; [congruence |]. intros Hok x.
           rewrite (Hsem2 Hok x), (Hsem1 eq_refl x). ring.
        -- injection Hlin as <- <- <-. by split.
    + (* OP_SUB *)
      destruct args as [|e1 [|e2 [|? ?]]]; try (injection Hlin as <- <- <-; by split).
      apply Forall_cons in IH as [IH1 IH]. apply Forall_cons in IH as [IH2 _].
      destruct (is_linear e1 row b mul) as [[[ok1 row1] b1]|] eqn:E1; [| done].
      cbn [mbind option_bind] in Hlin.
      destruct (IH1 _ _ _ _ _ _ E1) as [Hlen1 Hsem1].
      destruct ok1.
      * destruct (IH2 _ _ _ _ _ _ Hlin) as [Hlen2 Hsem2].
        split; [congruence |]. intros Hok x.
        rewrite (Hsem2 Hok x), (Hsem1 eq_refl x). simpl. ring.
      * injection Hlin as <- <- <-. by split.
    + (* OP_MUL *)
      destruct args as [|e1 [|e2 [|? ?]]]; try (injection Hlin as <- <- <-; by split).
      apply Forall_cons in IH as [IH1 IH]. apply Forall_cons in IH as [IH2 _].
      destruct (is_numeral e1) as [k1|] eqn:Hn1.
      * destruct (IH2 _ _ _ _ _ _ Hlin) as [Hlen2 Hsem2].
        split; [done |]. intros Hok x. rewrite (Hsem2 Hok x).
        destruct e1; try discriminate Hn1. injection Hn1 as ->. simpl. ring.
      * destruct (is_numeral e2) as [k2|] eqn:Hn2.
        -- destruct (IH1 _ _ _ _ _ _ Hlin) as [Hlen1 Hsem1].
           split; [done |]. intros Hok x. rewrite (Hsem1 Hok x).
           destruct e2; try discriminate Hn2. injection Hn2 as ->. simpl. ring.
        -- injection Hlin as <- <- <-. by split.
    + (* OP_UMINUS *)
      destruct args as [|e1 [|? ?]]; try (injection Hlin as <- <- <-; by split).
      apply Forall_cons in IH as [IH1 _].
      destruct (IH1 _ _ _ _ _ _ Hlin) as [Hlen1 Hsem1].
      split; [done |]. intros Hok x. rewrite (Hsem1 Hok x). simpl. ring.
  - destruct (negb (is_int (mk_quantifier body))); injection Hlin as <- <- <-; by split.
Qed.

(** X4.  Whatever the term, a call of [is_linear] that returns keeps the
    width of the row, also when it reports failure; and when it reports
    success the linear form has grown by [mul] times the term:
    [row'·x + b' = row·x + b + mul·e] under every valuation. *)
Theorem is_linear_adds_term (e : expr) (row : list rational) (b mul : rational)
    (ok : bool) (row' : list rational) (b' : rational) :
  is_linear e row b mul = Some (ok, row', b') →
  length row' = length row
  ∧ (ok = true → ∀ x, dot 0 row' x + b' = dot 0 row x + b + mul * eval x e).
Proof. apply is_linear_inv. Qed.

Lemma is_linear_adds_term_witness :
  let e := mk_app OP_SUB int_sort [mk_mul (int_numeral 2) (x_ 0); x_ 1] in
  is_linear e [0; 0] 0 1 = Some (true, [2; -1], 0)
  ∧ ∀ x, dot 0 [2; -1] x + 0 = dot 0 [0; 0] x + 0 + 1 * eval x e.
Proof.
  intros e.
  assert (is_linear e [0; 0] 0 1 = Some (true, [2; -1], 0)) as Hlin
    by (vm_compute; reflexivity).
  split; [exact Hlin |].
  apply (proj2 (is_linear_adds_term e [0; 0] 0 1 true [2; -1] 0 Hlin) eq_refl).
Defined.

(** ** ConstraintParser: the shapes recognised and the rows pushed *)

Lemma is_binary_inv f e e1 e2 :
  is_binary f e = Some (e1, e2) → ∃ k s, e = mk_app k s [e1; e2] ∧ f k = true.
Proof.
  unfold is_binary. intros H. destruct e as [| |k s args|]; try done.
  destruct args as [|a1 [|a2 [|a3 args]]]; try done.
  destruct (f k) eqn:Hk; [| done]. injection H as <- <-. eauto.
Qed.

Lemma m_is_eq_inv e e1 e2 :
  m_is_eq e = Some (e1, e2) → ∃ s, e = mk_app OP_EQ s [e1; e2].
Proof.
  intros H. apply is_binary_inv in H as (k & s & -> & Hk). destruct k; try done. eauto.
Qed.

Lemma is_or_inv e e1 e2 : is_or e = Some (e1, e2) → ∃ s, e = mk_app OP_OR s [e1; e2].
Proof.
  intros H. apply is_binary_inv in H as (k & s & -> & Hk). destruct k; try done. eauto.
Qed.

Lemma pattern_le_inv e e1 e2 :
  pattern_le e = Some (e1, e2) →
  (∃ s, e = mk_app OP_LE s [e1; e2]) ∨ (∃ s, e = mk_app OP_GE s [e2; e1]).
Proof.
  unfold pattern_le, is_le, is_ge, is_binary. intros H. destruct e as [| |k s args|]; try done.
  destruct args as [|a1 [|a2 [|a3 args]]]; try (by destruct k).
  destruct k; try done; simpl in H; injection H as <- <-; eauto.
Qed.

Lemma pattern_lt_inv e e1 e2 :
  pattern_lt e = Some (e1, e2) →
  (∃ s, e = mk_app OP_LT s [e1; e2]) ∨ (∃ s, e = mk_app OP_GT s [e2; e1]).
Proof.
  unfold pattern_lt, is_lt, is_gt, is_binary. intros H. destruct e as [| |k s args|]; try done.
  destruct args as [|a1 [|a2 [|a3 args]]]; try (by destruct k).
  destruct k; try done; simpl in H; injection H as <- <-; eauto.
Qed.

Lemma is_not_inv e en : is_not e = Some en → ∃ s, e = mk_app OP_NOT s [en].
Proof.
  unfold is_not. intros H. destruct e as [| |k s args|]; try done.
  destruct k; try done. destruct args as [|a1 [|a2 args]]; try done.
  injection H as <-. eauto.
Qed.

Lemma pattern_not_lt_inv e e1 e2 :
  pattern_not_lt e = Some (e1, e2) →
  (∃ s s', e = mk_app OP_NOT s [mk_app OP_LT s' [e2; e1]])
  ∨ (∃ s s', e = mk_app OP_NOT s [mk_app OP_GT s' [e1; e2]]).
Proof.
  unfold pattern_not_lt. intros H.
  destruct (is_not e) as [en|] eqn:Hn; [| done]. apply is_not_inv in Hn as [s ->].
  unfold is_lt, is_gt, is_binary in H. destruct en as [| |k s' args|]; try done.
  destruct args as [|a1 [|a2 [|a3 args]]]; try (by destruct k).
  destruct k; try done; simpl in H; injection H as <- <-; eauto.
Qed.

Lemma pattern_not_le_inv e e1 e2 :
  pattern_not_le e = Some (e1, e2) →
  (∃ s s', e = mk_app OP_NOT s [mk_app OP_LE s' [e2; e1]])
  ∨ (∃ s s', e = mk_app OP_NOT s [mk_app OP_GE s' [e1; e2]]).
Proof.
  unfold pattern_not_le. intros H.
  destruct (is_not e) as [en|] eqn:Hn; [| done]. apply is_not_inv in Hn as [s ->].
  unfold is_le, is_ge, is_binary in H. destruct en as [| |k s' args|]; try done.
  destruct args as [|a1 [|a2 [|a3 args]]]; try (by destruct k).
  destruct k; try done; simpl in H; injection H as <- <-; eauto.
Qed.

Lemma is_eq_inv d v s k :
  is_eq d = Some (v, s, k) →
  ∃ s' int, d = mk_app OP_EQ s' [mk_var v s; mk_numeral k int]
            ∨ d = mk_app OP_EQ s' [mk_numeral k int; mk_var v s].
Proof.
  unfold is_eq. intros H. destruct (m_is_eq d) as [[a1 a2]|] eqn:Hd; [| done].
  apply m_is_eq_inv in Hd as [s' ->]. exists s'.
  destruct a1 as [i1 s1|k1 int1|?|?], a2 as [i2 s2|k2 int2|?|?];
    simpl in H; try done; injection H as -> -> ->; eauto.
Qed.

Lemma linear_arm_Some_inv e1 e2 m1 m2 emit row b a :
  linear_arm (Some (e1, e2)) m1 m2 emit row b = Some a →
  (∃ row1 b1 row2 b2,
      is_linear e1 row b m1 = Some (true, row1, b1)
      ∧ is_linear e2 row1 b1 m2 = Some (true, row2, b2)
      ∧ a = processed (emit row2 b2))
  ∨ (∃ row' b', a = next_arm row' b').
Proof.
  unfold linear_arm. intros H.
  destruct (is_linear e1 row b m1) as [[[ok1 row1] b1]|] eqn:E1; [| done].
  cbn [mbind option_bind] in H.
  destruct ok1; [| injection H as <-; right; by exists row1, b1].
  destruct (is_linear e2 row1 b1 m2) as [[[ok2 row2] b2]|] eqn:E2; [| done].
  cbn [mbind option_bind] in H. destruct ok2; injection H as <-.
  - left. by exists row1, b1, row2, b2.
  - right. by exists row2, b2.
Qed.

(** The arm that fires for a conjunct, and the rows it pushes. *)
Lemma filter_interpreted_conj_cases n M e M' :
  filter_interpreted_conj n M e = Some M' →
  M' = M
  ∨ (∃ e1 e2 row b, m_is_eq e = Some (e1, e2) ∧ both_linear e1 e2 1 (-1) n row b
                    ∧ M' = matrix.push M row b true)
  ∨ (∃ e1 e2 row b, pattern_le e = Some (e1, e2) ∧ both_linear e1 e2 (-1) 1 n row b
                    ∧ M' = matrix.push M row b false)
  ∨ (∃ e1 e2 row b, pattern_lt e = Some (e1, e2) ∧ both_linear e1 e2 (-1) 1 n row b
                    ∧ M' = matrix.push M row (b - 1) false)
  ∨ (∃ e1 e2 row b, pattern_not_lt e = Some (e1, e2) ∧ both_linear e1 e2 (-1) 1 n row b
                    ∧ M' = matrix.push M row b false)
  ∨ (∃ e1 e2 row b, pattern_not_le e = Some (e1, e2) ∧ both_linear e1 e2 (-1) 1 n row b
                    ∧ M' = matrix.push M row (b - 1) false)
  ∨ (∃ d1 d2 v s n1 n2,
        is_or e = Some (d1, d2) ∧ is_eq d1 = Some (v, s, n1) ∧ is_eq d2 = Some (v, s, n2)
        ∧ (v < n)%nat
        ∧ M' = matrix.push
                 (matrix.push M (unit_row n v) (- (if rational_gt n1 n2 then n2 else n1)) false)
                 (<[v:=-1]> (zero_row n)) (if rational_gt n1 n2 then n1 else n2) false).
Proof.
  unfold filter_interpreted_conj. intros H.
  destruct (m_is_eq e) as [[e1 e2]|] eqn:H1.
  { destruct (m_is_eq_inv _ _ _ H1) as [s ->].
    destruct (linear_arm (Some (e1, e2)) 1 (-1) (λ row b, matrix.push M row b true)
                (zero_row n) 0) as [a|] eqn:Harm; [| done].
    apply linear_arm_Some_inv in Harm as [(row1 & b1 & row2 & b2 & E1 & E2 & ->)
                                         | (row' & b' & ->)]; cbn in H; injection H as <-.
    - right; left. exists e1, e2, row2, b2. split; [done |]. split; [| done].
      exists row1, b1. done.
    - by left. }
  cbn [linear_arm else_if mbind option_bind] in H.
  destruct (pattern_le e) as [[e1 e2]|] eqn:H2.
  { destruct (linear_arm (Some (e1, e2)) (-1) 1 (λ row b, matrix.push M row b false)
                (zero_row n) 0) as [a|] eqn:Harm; [| done].
    apply linear_arm_Some_inv in Harm as [(row1 & b1 & row2 & b2 & E1 & E2 & ->)
                                         | (row' & b' & ->)].
    - cbn in H. injection H as <-. right; right; left. exists e1, e2, row2, b2.
      split; [done |]. split; [| done]. exists row1, b1. done.
    - destruct (pattern_le_inv _ _ _ H2) as [[s ->] | [s ->]];
        cbn in H; injection H as <-; by left. }
  cbn [linear_arm else_if mbind option_bind] in H.
  destruct (pattern_lt e) as [[e1 e2]|] eqn:H3.
  { destruct (linear_arm (Some (e1, e2)) (-1) 1 (λ row b, matrix.push M row (b - 1) false)
                (zero_row n) 0) as [a|] eqn:Harm; [| done].
    apply linear_arm_Some_inv in Harm as [(row1 & b1 & row2 & b2 & E1 & E2 & ->)
                                         | (row' & b' & ->)].
    - cbn in H. injection H as <-. do 3 right; left. exists e1, e2, row2, b2.
      split; [done |]. split; [| done]. exists row1, b1. done.
    - destruct (pattern_lt_inv _ _ _ H3) as [[s ->] | [s ->]];
        cbn in H; injection H as <-; by left. }
  cbn [linear_arm else_if mbind option_bind] in H.
  destruct (pattern_not_lt e) as [[e1 e2]|] eqn:H4.
  { destruct (linear_arm (Some (e1, e2)) (-1) 1 (λ row b, matrix.push M row b false)
                (zero_row n) 0) as [a|] eqn:Harm; [| done].
    apply linear_arm_Some_inv in Harm as [(row1 & b1 & row2 & b2 & E1 & E2 & ->)
                                         | (row' & b' & ->)].
    - cbn in H. injection H as <-. do 4 right; left. exists e1, e2, row2, b2.
      split; [done |]. split; [| done]. exists row1, b1. done.
    - destruct (pattern_not_lt_inv _ _ _ H4) as [(s & s' & ->) | (s & s' & ->)];
        cbn in H; injection H as <-; by left. }
  cbn [linear_arm else_if mbind option_bind] in H.
  destruct (pattern_not_le e) as [[e1 e2]|] eqn:H5.
  { destruct (linear_arm (Some (e1, e2)) (-1) 1 (λ row b, matrix.push M row (b - 1) false)
                (zero_row n) 0) as [a|] eqn:Harm; [| done].
    apply linear_arm_Some_inv in Harm as [(row1 & b1 & row2 & b2 & E1 & E2 & ->)
                                         | (row' & b' & ->)].
    - cbn in H. injection H as <-. do 5 right; left. exists e1, e2, row2, b2.
      split; [done |]. split; [| done]. exists row1, b1. done.
    - destruct (pattern_not_le_inv _ _ _ H5) as [(s & s' & ->) | (s & s' & ->)];
        cbn in H; injection H as <-; by left. }
  cbn [linear_arm else_if mbind option_bind] in H.
  unfold or_arm in H.
  destruct (is_or e) as [[d1 d2]|] eqn:H6; [| injection H as <-; by left].
  destruct (is_eq d1) as [[[v sv] n1]|] eqn:Hd1; [| injection H as <-; by left].
  destruct (is_eq d2) as [[[w sw] n2]|] eqn:Hd2; [| injection H as <-; by left].
  destruct (decide ((v, sv) = (w, sw))) as [[= <- <-] | Hne]; [| injection H as <-; by left].
  do 6 right. exists d1, d2, v, sv, n1, n2.
  destruct (rational_gt n1 n2).
  - destruct (set (zero_row n) v 1) as [row1|] eqn:Hs1; [| done].
    apply set_inv in Hs1 as [Hv ->]. cbn [mbind option_bind] in H.
    destruct (set (<[v:=1]> (zero_row n)) v (-1)) as [row2|] eqn:Hs2; [| done].
    apply set_inv in Hs2 as [_ ->]. cbn [mbind option_bind] in H. injection H as <-.
    unfold zero_row in Hv. rewrite length_replicate in Hv.
    rewrite list_insert_insert_eq. done.
  - destruct (set (zero_row n) v 1) as [row1|] eqn:Hs1; [| done].
    apply set_inv in Hs1 as [Hv ->]. cbn [mbind option_bind] in H.
    destruct (set (<[v:=1]> (zero_row n)) v (-1)) as [row2|] eqn:Hs2; [| done].
    apply set_inv in Hs2 as [_ ->]. cbn [mbind option_bind] in H. injection H as <-.
    unfold zero_row in Hv. rewrite length_replicate in Hv.
    rewrite list_insert_insert_eq. done.
Qed.

Lemma push_as_append M row c e :
  matrix.push M row c e = matrix.append M (matrix.of_rows [(row, c, e)]).
Proof. done. Qed.

Lemma append_nil M : matrix.append M (matrix.of_rows []) = M.
Proof. destruct M. unfold matrix.append. simpl. by rewrite !app_nil_r. Qed.

Lemma append_append M l1 l2 :
  matrix.append (matrix.append M (matrix.of_rows l1)) (matrix.of_rows l2)
  = matrix.append M (matrix.of_rows (l1 ++ l2)).
Proof.
  unfold matrix.append, matrix.of_rows. simpl. by rewrite !fmap_app, !app_assoc.
Qed.

Lemma both_linear_value e1 e2 m1 m2 n row b :
  both_linear e1 e2 m1 m2 n row b →
  length row = n ∧ ∀ x, row_value row b x = m1 * eval x e1 + m2 * eval x e2.
Proof.
  intros (row1 & b1 & E1 & E2).
  destruct (is_linear_inv _ _ _ _ _ _ _ E1) as [Hlen1 Hsem1].
  destruct (is_linear_inv _ _ _ _ _ _ _ E2) as [Hlen2 Hsem2].
  split.
  - rewrite Hlen2, Hlen1. unfold zero_row. by rewrite length_replicate.
  - intros x. unfold row_value. rewrite (Hsem2 eq_refl), (Hsem1 eq_refl), dot_zero_row. ring.
Qed.

(** X5.  The body of the parser's loop never touches the rows that are
    there: what it returns is the matrix it was given followed by at most
    two new rows, each as wide as the signature. *)
Theorem filter_interpreted_conj_appends (n : nat) (M M' : matrix.t) (e : expr) :
  filter_interpreted_conj n M e = Some M' →
  ∃ rows, M' = matrix.append M (matrix.of_rows rows)
          ∧ (length rows ≤ 2)%nat
          ∧ Forall (λ r, length r.1.1 = n) rows.
Proof.
  intros H. apply filter_interpreted_conj_cases in H.
  destruct H as [-> | [H | [H | [H | [H | [H | H]]]]]].
  - exists []. rewrite append_nil. split; [done |]. split; [simpl; lia | constructor].
  - destruct H as (e1 & e2 & row & b & _ & [Hlen _]%both_linear_value & ->).
    exists [(row, b, true)]. split; [done |]. split; [simpl; lia |]. by constructor.
  - destruct H as (e1 & e2 & row & b & _ & [Hlen _]%both_linear_value & ->).
    exists [(row, b, false)]. split; [done |]. split; [simpl; lia |]. by constructor.
  - destruct H as (e1 & e2 & row & b & _ & [Hlen _]%both_linear_value & ->).
    exists [(row, b - 1, false)]. split; [done |]. split; [simpl; lia |]. by constructor.
  - destruct H as (e1 & e2 & row & b & _ & [Hlen _]%both_linear_value & ->).
    exists [(row, b, false)]. split; [done |]. split; [simpl; lia |]. by constructor.
  - destruct H as (e1 & e2 & row & b & _ & [Hlen _]%both_linear_value & ->).
    exists [(row, b - 1, false)]. split; [done |]. split; [simpl; lia |]. by constructor.
  - destruct H as (d1 & d2 & v & s & n1 & n2 & _ & _ & _ & Hv & ->).
    eexists [(_, _, false); (_, _, false)]. rewrite push_push_append.
    split; [done |]. split; [simpl; lia |].
    repeat constructor; simpl.
    + apply unit_row_length.
    + unfold zero_row. by rewrite length_insert, length_replicate.
Qed.

Lemma filter_interpreted_conj_appends_witness :
  ∃ rows, matrix.of_rows [([1; 0], 0, true); ([-1; 1], 2, false)]
          = matrix.append (matrix.of_rows [([1; 0], 0, true)]) (matrix.of_rows rows)
          ∧ (length rows ≤ 2)%nat
          ∧ Forall (λ r, length r.1.1 = 2%nat) rows.
Proof.
  apply (filter_interpreted_conj_appends 2 (matrix.of_rows [([1; 0], 0, true)]) _
           (mk_lt (x_ 0) (mk_add [x_ 1; int_numeral 3]))).
  vm_compute. reflexivity.
Defined.

(** ** ConstraintParser: soundness *)

Lemma holds_pattern_le x e e1 e2 :
  pattern_le e = Some (e1, e2) → (holds x e ↔ eval x e1 <= eval x e2).
Proof. intros [[s ->] | [s ->]]%pattern_le_inv; done. Qed.

Lemma holds_pattern_lt x e e1 e2 :
  pattern_lt e = Some (e1, e2) → (holds x e ↔ eval x e1 < eval x e2).
Proof. intros [[s ->] | [s ->]]%pattern_lt_inv; done. Qed.

Lemma holds_pattern_not_lt x e e1 e2 :
  pattern_not_lt e = Some (e1, e2) → (holds x e ↔ ¬ eval x e2 < eval x e1).
Proof. intros [(s & s' & ->) | (s & s' & ->)]%pattern_not_lt_inv; done. Qed.

Lemma holds_pattern_not_le x e e1 e2 :
  pattern_not_le e = Some (e1, e2) → (holds x e ↔ ¬ eval x e2 <= eval x e1).
Proof. intros [(s & s' & ->) | (s & s' & ->)]%pattern_not_le_inv; done. Qed.

Lemma holds_is_eq x d v s k : is_eq d = Some (v, s, k) → (holds x d ↔ x v = k).
Proof. intros (s' & int & [-> | ->])%is_eq_inv; simpl; [done | split; congruence]. Qed.

Lemma Qc_le_sub a b : a <= b ↔ 0 <= b - a.
Proof. unfold Qcminus. apply Qcle_minus_iff. Qed.

Lemma integer_gap q : is_int_rational q = true → 0 < q → 1 <= q.
Proof.
  unfold is_int_rational. intros Hden%Pos.eqb_eq Hpos.
  destruct q as [[num den] Hc]. simpl in Hden. subst den.
  unfold Qclt, Qcle, Qlt, Qle in *. simpl in *. lia.
Qed.

Lemma strict_gap a b : is_int_rational (b - a) = true → a < b → 0 <= b - a - 1.
Proof.
  intros Hint Hlt. apply (proj1 (Qc_le_sub 1 (b - a))).
  apply integer_gap; [done |].
  exact (proj1 (Qclt_minus_iff a b) Hlt).
Qed.

Lemma row_value_insert_neg n v b x :
  (v < n)%nat → row_value (<[v:=-1]> (zero_row n)) b x = b - x v.
Proof. intros Hv. unfold row_value. rewrite dot_unit_row by done. ring. Qed.

Lemma row_value_unit_row n v b x : (v < n)%nat → row_value (unit_row n v) b x = x v + b.
Proof. intros Hv. unfold row_value, unit_row. rewrite dot_unit_row by done. ring. Qed.

Lemma filter_interpreted_conj_sound n M e M' :
  filter_interpreted_conj n M e = Some M' →
  ∃ rows, M' = matrix.append M (matrix.of_rows rows)
          ∧ (length rows ≤ 2)%nat
          ∧ ∀ x, holds x e → integral_gap x e → Forall (row_holds x) rows.
Proof.
  intros H. apply filter_interpreted_conj_cases in H.
  destruct H as [-> | [H | [H | [H | [H | [H | H]]]]]].
  - exists []. rewrite append_nil. split; [done |]. split; [simpl; lia | by constructor].
  - destruct H as (e1 & e2 & row & b & Hp & [_ Hv]%both_linear_value & ->).
    exists [(row, b, true)]. split; [done |]. split; [simpl; lia |].
    intros x Hx _. constructor; [| constructor]. unfold row_holds; simpl. rewrite Hv.
    destruct (m_is_eq_inv _ _ _ Hp) as [s ->]. simpl in Hx. rewrite Hx. ring.
  - destruct H as (e1 & e2 & row & b & Hp & [_ Hv]%both_linear_value & ->).
    exists [(row, b, false)]. split; [done |]. split; [simpl; lia |].
    intros x Hx _. constructor; [| constructor]. unfold row_holds; simpl. rewrite Hv.
    apply (holds_pattern_le x) in Hp. apply Hp in Hx. apply Qc_le_sub in Hx.
    replace (-1 * eval x e1 + 1 * eval x e2) with (eval x e2 - eval x e1) by ring. done.
  - destruct H as (e1 & e2 & row & b & Hp & [_ Hv]%both_linear_value & ->).
    exists [(row, b - 1, false)]. split; [done |]. split; [simpl; lia |].
    intros x Hx Hint. constructor; [| constructor]. unfold row_holds, row_value in *; simpl.
    specialize (Hv x). specialize (Hint e1 e2 (or_introl Hp)).
    apply (holds_pattern_lt x) in Hp. apply Hp in Hx.
    pose proof (strict_gap _ _ Hint Hx) as Hgap.
    replace (dot 0 row x + (b - 1)) with (eval x e2 - eval x e1 - 1); [done |].
    replace (dot 0 row x + (b - 1)) with (dot 0 row x + b - 1) by ring.
    rewrite Hv. ring.
  - destruct H as (e1 & e2 & row & b & Hp & [_ Hv]%both_linear_value & ->).
    exists [(row, b, false)]. split; [done |]. split; [simpl; lia |].
    intros x Hx _. constructor; [| constructor]. unfold row_holds; simpl. rewrite Hv.
    apply (holds_pattern_not_lt x) in Hp. apply Hp in Hx. apply Qcnot_lt_le in Hx.
    apply Qc_le_sub in Hx.
    replace (-1 * eval x e1 + 1 * eval x e2) with (eval x e2 - eval x e1) by ring. done.
  - destruct H as (e1 & e2 & row & b & Hp & [_ Hv]%both_linear_value & ->).
    exists [(row, b - 1, false)]. split; [done |]. split; [simpl; lia |].
    intros x Hx Hint. constructor; [| constructor]. unfold row_holds, row_value in *; simpl.
    specialize (Hv x). specialize (Hint e1 e2 (or_intror Hp)).
    apply (holds_pattern_not_le x) in Hp. apply Hp in Hx. apply Qcnot_le_lt in Hx.
    pose proof (strict_gap _ _ Hint Hx) as Hgap.
    replace (dot 0 row x + (b - 1)) with (eval x e2 - eval x e1 - 1); [done |].
    replace (dot 0 row x + (b - 1)) with (dot 0 row x + b - 1) by ring.
    rewrite Hv. ring.
  - destruct H as (d1 & d2 & v & s & n1 & n2 & Hor & Hd1 & Hd2 & Hv & ->).
    eexists [(_, _, false); (_, _, false)]. rewrite push_push_append.
    split; [done |]. split; [simpl; lia |].
    intros x Hx _.
    destruct (is_binary_inv _ _ _ _ Hor) as (k & s' & -> & Hk).
    destruct k; try done. simpl in Hx.
    rewrite (holds_is_eq x _ _ _ _ Hd1), (holds_is_eq x _ _ _ _ Hd2) in Hx.
    assert (∀ a c : rational, a <= c → 0 <= c + - a) as Hadd.
    { intros a c Hac. by apply (proj1 (Qcle_minus_iff a c)). }
    assert (∀ a c : rational, a <= c → 0 <= c - a) as Hsub.
    { intros a c Hac. by apply (proj1 (Qc_le_sub a c)). }
    repeat constructor; unfold row_holds; simpl.
    + rewrite row_value_unit_row by done.
      destruct (rational_gt n1 n2) eqn:Hgt.
      * apply rational_gt_spec in Hgt. apply Hadd.
        destruct Hx as [Hx | [Hx | []]]; rewrite Hx; [by apply Qclt_le_weak | apply Qcle_refl].
      * assert (n1 <= n2) as Hle.
        { apply Qcnot_lt_le. intros Hlt. apply rational_gt_spec in Hlt. congruence. }
        apply Hadd.
        destruct Hx as [Hx | [Hx | []]]; rewrite Hx; [apply Qcle_refl | done].
    + rewrite row_value_insert_neg by done.
      destruct (rational_gt n1 n2) eqn:Hgt.
      * apply rational_gt_spec in Hgt. apply Hsub.
        destruct Hx as [Hx | [Hx | []]]; rewrite Hx; [apply Qcle_refl | by apply Qclt_le_weak].
      * assert (n1 <= n2) as Hle.
        { apply Qcnot_lt_le. intros Hlt. apply rational_gt_spec in Hlt. congruence. }
        apply Hsub.
        destruct Hx as [Hx | [Hx | []]]; rewrite Hx; [done | apply Qcle_refl].
Qed.

Lemma filter_interpreted_loop_sound n conjs M M' :
  filter_interpreted_loop n conjs M = Some M' →
  ∃ rows, M' = matrix.append M (matrix.of_rows rows)
          ∧ (length rows ≤ 2 * length conjs)%nat
          ∧ ∀ x, (∀ c, c ∈ conjs → holds x c ∧ integral_gap x c) → Forall (row_holds x) rows.
Proof.
  revert M. induction conjs as [|e conjs IH]; intros M H; simpl in H.
  - injection H as <-. exists []. rewrite append_nil.
    split; [done |]. split; [simpl; lia | by constructor].
  - destruct (filter_interpreted_conj n M e) as [M1|] eqn:Hc; [| done]. simpl in H.
    apply filter_interpreted_conj_sound in Hc as (rows1 & -> & Hlen1 & Hs1).
    apply IH in H as (rows2 & -> & Hlen2 & Hs2).
    exists (rows1 ++ rows2). rewrite append_append. split; [done |].
    split; [rewrite length_app; simpl; lia |].
    intros x Hx. apply Forall_app. split.
    + apply Hs1; apply Hx; left.
    + apply Hs2. intros c Hc. apply Hx. by right.
Qed.

(** ** ConstraintParser: the rows reach the constraints of the relation *)

Lemma get_ineqs_signature `{hilbert_basis} r r1 :
  get_ineqs r = Some r1 → signature r1 = signature r.
Proof.
  unfold get_ineqs, init_ineqs. destruct (m_ineqs_valid r); [by intros [= <-] |].
  destruct (dualizeH (m_basis r)); [| done]. by intros [= <-].
Qed.

(** What the body of the loop emits for a conjunct is what
    [filter_interpreted] adds to the constraints of the relation. *)
Lemma emits_reaches `{hilbert_basis, dl_util} n e rows :
  emits n e rows → reaches_constraints n e rows.
Proof.
  intros [Hconj Hloop] cond r r1 pre post Hg Hn Hflat.
  assert (Hsig : length (signature r1) = n) by by rewrite (get_ineqs_signature r r1 Hg).
  split.
  - intros M1 Hpre. unfold filter_interpreted. rewrite Hg. cbn [mbind option_bind].
    by rewrite Hflat, Hsig, (Hloop pre post (m_ineqs r1) M1 Hpre).
  - intros r' Hf. unfold filter_interpreted in Hf. rewrite Hg in Hf.
    cbn [mbind option_bind] in Hf. rewrite Hflat, Hsig in Hf.
    destruct (filter_interpreted_loop n (pre ++ e :: post) (m_ineqs r1)) as [M|] eqn:HM;
      [| done].
    cbn [mbind option_bind] in Hf. injection Hf as <-.
    rewrite filter_interpreted_loop_app in HM.
    destruct (filter_interpreted_loop n pre (m_ineqs r1)) as [M1|] eqn:Hpre; [| done].
    cbn [mbind option_bind filter_interpreted_loop] in HM. rewrite Hconj in HM.
    cbn [mbind option_bind] in HM.
    apply filter_interpreted_loop_sound in Hpre as (before & -> & _).
    apply filter_interpreted_loop_sound in HM as (after & -> & _).
    exists before, after. rewrite !append_append. split; [done |].
    by destruct r1.
Qed.

(** C5.  Let [e₁] and [e₂] be linear integer terms over [n] columns.
    There is one row [(row, b)] with [row·x + b = e₂ − e₁] under every
    valuation, the inequality row of [e₂ − e₁ ≥ 0], which the parser
    emits for [e₁ ≤ e₂] and [e₂ ≥ e₁], such that: for [e₁ < e₂] and
    [e₂ > e₁] the parser emits that row with the constant decremented by
    one; for [¬(e₂ ≤ e₁)] and [¬(e₁ ≥ e₂)] the same decremented row; for
    [¬(e₂ < e₁)] and [¬(e₁ > e₂)] the row itself; always tagged as an
    inequality, and nothing else.  And the row reaches the relation: for
    every relation over [n] columns and every condition that has one of
    these shapes among its conjuncts, [filter_interpreted] pushes the
    row of that shape onto the constraint matrix left by the conjuncts
    before it and goes on with the conjuncts after it; the constraint
    matrix of the relation it returns holds that row between the rows of
    the conjuncts before and the rows of the conjuncts after. *)
Theorem filter_interpreted_strict_tightening `{hilbert_basis, dl_util}
    (n : nat) (e1 e2 : expr) :
  linear n e1 = true → linear n e2 = true →
  ∃ row b,
    length row = n
    ∧ (∀ x, row_value row b x = eval x e2 - eval x e1)
    ∧ emits n (mk_le e1 e2) [(row, b, false)]
    ∧ emits n (mk_ge e2 e1) [(row, b, false)]
    ∧ emits n (mk_lt e1 e2) [(row, b - 1, false)]
    ∧ emits n (mk_gt e2 e1) [(row, b - 1, false)]
    ∧ emits n (mk_not (mk_le e2 e1)) [(row, b - 1, false)]
    ∧ emits n (mk_not (mk_ge e1 e2)) [(row, b - 1, false)]
    ∧ emits n (mk_not (mk_lt e2 e1)) [(row, b, false)]
    ∧ emits n (mk_not (mk_gt e1 e2)) [(row, b, false)]
    ∧ reaches_constraints n (mk_le e1 e2) [(row, b, false)]
    ∧ reaches_constraints n (mk_ge e2 e1) [(row, b, false)]
    ∧ reaches_constraints n (mk_lt e1 e2) [(row, b - 1, false)]
    ∧ reaches_constraints n (mk_gt e2 e1) [(row, b - 1, false)]
    ∧ reaches_constraints n (mk_not (mk_le e2 e1)) [(row, b - 1, false)]
    ∧ reaches_constraints n (mk_not (mk_ge e1 e2)) [(row, b - 1, false)]
    ∧ reaches_constraints n (mk_not (mk_lt e2 e1)) [(row, b, false)]
    ∧ reaches_constraints n (mk_not (mk_gt e1 e2)) [(row, b, false)].
Proof.
  intros Hl1 Hl2.
  destruct (is_linear_sound n e1 (zero_row n) 0 (-1) Hl1)
    as (row1 & b1 & E1 & Hlen1 & Hsem1).
  { unfold zero_row. by rewrite length_replicate. }
  destruct (is_linear_sound n e2 row1 b1 1 Hl2 Hlen1) as (row & b & E2 & Hlen & Hsem2).
  exists row, b. split; [done |]. split.
  { intros x. unfold row_value. rewrite Hsem2, Hsem1, dot_zero_row. ring. }
  assert (Hle : emits n (mk_le e1 e2) [(row, b, false)]).
  { apply emits_intro; intros M. unfold filter_interpreted_conj, else_if, linear_arm; cbn.
    rewrite E1; cbn. by rewrite E2. }
  assert (Hge : emits n (mk_ge e2 e1) [(row, b, false)]).
  { apply emits_intro; intros M. unfold filter_interpreted_conj, else_if, linear_arm; cbn.
    rewrite E1; cbn. by rewrite E2. }
  assert (Hlt : emits n (mk_lt e1 e2) [(row, b - 1, false)]).
  { apply emits_intro; intros M. unfold filter_interpreted_conj, else_if, linear_arm; cbn.
    rewrite E1; cbn. by rewrite E2. }
  assert (Hgt : emits n (mk_gt e2 e1) [(row, b - 1, false)]).
  { apply emits_intro; intros M. unfold filter_interpreted_conj, else_if, linear_arm; cbn.
    rewrite E1; cbn. by rewrite E2. }
  assert (Hnle : emits n (mk_not (mk_le e2 e1)) [(row, b - 1, false)]).
  { apply emits_intro; intros M. unfold filter_interpreted_conj, else_if, linear_arm; cbn.
    rewrite E1; cbn. by rewrite E2. }
  assert (Hnge : emits n (mk_not (mk_ge e1 e2)) [(row, b - 1, false)]).
  { apply emits_intro; intros M. unfold filter_interpreted_conj, else_if, linear_arm; cbn.
    rewrite E1; cbn. by rewrite E2. }
  assert (Hnlt : emits n (mk_not (mk_lt e2 e1)) [(row, b, false)]).
  { apply emits_intro; intros M. unfold filter_interpreted_conj, else_if, linear_arm; cbn.
    rewrite E1; cbn. by rewrite E2. }
  assert (Hngt : emits n (mk_not (mk_gt e1 e2)) [(row, b, false)]).
  { apply emits_intro; intros M. unfold filter_interpreted_conj, else_if, linear_arm; cbn.
    rewrite E1; cbn. by rewrite E2. }
  do 8 (split; [assumption |]).
  do 7 (split; [by apply emits_reaches |]). by apply emits_reaches.
Qed.

Lemma filter_interpreted_strict_tightening_witness :
  let hb := constant_hb None [] in
  let r := mk_full None [int_sort; int_sort] in
  let e2 := mk_add [x_ 1; int_numeral 3] in
  ∃ row b,
    (∀ x, row_value row b x = eval x e2 - eval x (x_ 0))
    ∧ emits 2 (mk_lt (x_ 0) e2) [(row, b - 1, false)]
    ∧ emits 2 (mk_not (mk_le e2 (x_ 0))) [(row, b - 1, false)]
    ∧ emits 2 (mk_not (mk_lt e2 (x_ 0))) [(row, b, false)]
    ∧ @filter_interpreted hb split_and (mk_lt (x_ 0) e2) r
      = Some (with_ineqs (matrix.of_rows [(row, b - 1, false)]) r)
    ∧ @filter_interpreted hb split_and
        (mk_and (mk_le (x_ 0) (int_numeral 7)) (mk_not (mk_le e2 (x_ 0)))) r
      = Some (with_ineqs (matrix.of_rows [([-1; 0], rational_of_Z 7, false);
                                          (row, b - 1, false)]) r).
Proof.
  intros hb r e2.
  destruct (@filter_interpreted_strict_tightening hb split_and 2 (x_ 0) e2)
    as (row & b & _ & Hsem & _ & _ & Hlt & _ & Hnle & _ & Hnlt & _
        & _ & _ & Rlt & _ & Rnle & _).
  - reflexivity.
  - reflexivity.
  - exists row, b. do 4 (split; [assumption |]). split.
    + exact (proj1 (Rlt (mk_lt (x_ 0) e2) r r [] [] eq_refl eq_refl eq_refl) _ eq_refl).
    + exact (proj1 (Rnle (mk_and (mk_le (x_ 0) (int_numeral 7)) (mk_not (mk_le e2 (x_ 0))))
                      r r [mk_le (x_ 0) (int_numeral 7)] [] eq_refl eq_refl eq_refl)
               (matrix.of_rows [([-1; 0], rational_of_Z 7, false)])
               ltac:(vm_compute; reflexivity)).
Defined.

(** C6.  For the conjunct [(v = n₁) ∨ (v = n₂)], each disjunct an
    equation between the same variable [v] (a column of the relation) and
    a numeral, in either orientation, the parser emits exactly two
    inequality rows, [v − lo ≥ 0] and [−v + hi ≥ 0], where [lo ≤ hi] are
    [n₁] and [n₂] in ascending order: [lo = min(n₁,n₂)] and
    [hi = max(n₁,n₂)].  And the two rows reach the relation: for every
    relation over [n] columns and every condition that has the
    disjunction among its conjuncts, [filter_interpreted] pushes the two
    rows onto the constraint matrix left by the conjuncts before it and
    goes on with the conjuncts after it; the constraint matrix of the
    relation it returns holds the two rows, in this order, between the
    rows of the conjuncts before and the rows of the conjuncts after. *)
Theorem filter_interpreted_or_hull `{hilbert_basis, dl_util} (n v : nat) (s : sort)
    (n1 n2 : rational) (flip1 flip2 int1 int2 : bool) :
  (v < n)%nat →
  ∃ lo hi,
    lo <= hi
    ∧ ((lo = n1 ∧ hi = n2) ∨ (lo = n2 ∧ hi = n1))
    ∧ emits n (mk_or (var_eq_numeral flip1 v s n1 int1) (var_eq_numeral flip2 v s n2 int2))
        [(unit_row n v, - lo, false); (<[v:=-1]> (zero_row n), hi, false)]
    ∧ (∀ x, row_value (unit_row n v) (- lo) x = x v - lo)
    ∧ (∀ x, row_value (<[v:=-1]> (zero_row n)) hi x = - x v + hi)
    ∧ reaches_constraints n
        (mk_or (var_eq_numeral flip1 v s n1 int1) (var_eq_numeral flip2 v s n2 int2))
        [(unit_row n v, - lo, false); (<[v:=-1]> (zero_row n), hi, false)].
Proof.
  intros Hv.
  assert (Hemit : emits n (mk_or (var_eq_numeral flip1 v s n1 int1)
                                 (var_eq_numeral flip2 v s n2 int2))
                    [(unit_row n v, - (if rational_gt n1 n2 then n2 else n1), false);
                     (<[v:=-1]> (zero_row n), if rational_gt n1 n2 then n1 else n2, false)]).
  { apply emits_intro. intros M.
    unfold filter_interpreted_conj, else_if, linear_arm.
    assert (Hshape : ∀ f1 f2, m_is_eq (mk_or f1 f2) = None ∧ pattern_le (mk_or f1 f2) = None
              ∧ pattern_lt (mk_or f1 f2) = None ∧ pattern_not_lt (mk_or f1 f2) = None
              ∧ pattern_not_le (mk_or f1 f2) = None) by done.
    destruct (Hshape (var_eq_numeral flip1 v s n1 int1) (var_eq_numeral flip2 v s n2 int2))
      as (-> & -> & -> & -> & ->).
    cbn [mbind option_bind]. unfold or_arm. cbn [is_or is_binary mk_or].
    rewrite !is_eq_var_eq_numeral. rewrite decide_True by done.
    destruct (rational_gt n1 n2).
    + rewrite set_zero_row by done. cbn [mbind option_bind].
      rewrite set_Some by (rewrite unit_row_length; lia). cbn [mbind option_bind].
      unfold unit_row. rewrite list_insert_insert_eq. by rewrite push_push_append.
    + rewrite set_zero_row by done. cbn [mbind option_bind].
      rewrite set_Some by (rewrite unit_row_length; lia). cbn [mbind option_bind].
      unfold unit_row. rewrite list_insert_insert_eq. by rewrite push_push_append. }
  exists (if rational_gt n1 n2 then n2 else n1), (if rational_gt n1 n2 then n1 else n2).
  split; [| split; [| split; [| split; [| split]]]].
  - destruct (rational_gt n1 n2) eqn:Hgt.
    + apply rational_gt_spec in Hgt. by apply Qclt_le_weak.
    + apply Qcnot_lt_le. intros Hlt. apply rational_gt_spec in Hlt. congruence.
  - destruct (rational_gt n1 n2); auto.
  - exact Hemit.
  - intros x. unfold row_value, unit_row. rewrite dot_unit_row by done. ring.
  - intros x. unfold row_value. rewrite dot_unit_row by done. ring.
  - by apply emits_reaches.
Qed.

Lemma filter_interpreted_or_hull_witness :
  let hb := constant_hb None [] in
  let r := mk_full None [int_sort; int_sort] in
  let e := mk_or (mk_eq (x_ 0) (int_numeral 3)) (mk_eq (int_numeral 1) (x_ 0)) in
  ∃ lo hi,
    lo <= hi
    ∧ ((lo = rational_of_Z 3 ∧ hi = rational_of_Z 1)
       ∨ (lo = rational_of_Z 1 ∧ hi = rational_of_Z 3))
    ∧ emits 2 e [(unit_row 2 0, - lo, false); (<[0%nat:=-1]> (zero_row 2), hi, false)]
    ∧ @filter_interpreted hb split_and e r
      = Some (with_ineqs (matrix.of_rows [(unit_row 2 0, - lo, false);
                                          (<[0%nat:=-1]> (zero_row 2), hi, false)]) r).
Proof.
  intros hb r e.
  destruct (@filter_interpreted_or_hull hb split_and 2 0 int_sort
              (rational_of_Z 3) (rational_of_Z 1) false true true true)
    as (lo & hi & Hle & Hor & Hemit & _ & _ & Hreach).
  - lia.
  - exists lo, hi. do 3 (split; [assumption |]).
    exact (proj1 (Hreach e r r [] [] eq_refl eq_refl eq_refl) _ eq_refl).
Defined.

(** X6.  [filter_interpreted] is sound and append-only.  When it returns,
    the relation it leaves is the relation with its constraints
    materialised, with new rows after the rows that were there — at most
    two for each conjunct of the condition — and nothing else changed;
    every valuation that satisfies the conjuncts (with an integral gap at
    the strict comparisons) satisfies every new row. *)
Theorem filter_interpreted_sound `{hilbert_basis, dl_util} (cond : expr)
    (r r' : karr_relation) :
  filter_interpreted cond r = Some r' →
  ∃ r1 rows,
    get_ineqs r = Some r1
    ∧ r' = with_ineqs (matrix.append (m_ineqs r1) (matrix.of_rows rows)) r1
    ∧ (length rows ≤ 2 * length (flatten_and cond))%nat
    ∧ ∀ x, (∀ c, c ∈ flatten_and cond → holds x c ∧ integral_gap x c) →
           Forall (row_holds x) rows.
Proof.
  unfold filter_interpreted. intros Hf.
  destruct (get_ineqs r) as [r1|] eqn:Hr1; [| done]. simpl in Hf.
  destruct (filter_interpreted_loop _ _ _) as [M|] eqn:HM; [| done]. simpl in Hf.
  injection Hf as <-.
  apply filter_interpreted_loop_sound in HM as (rows & -> & Hlen & Hs).
  by exists r1, rows.
Qed.

Lemma filter_interpreted_sound_witness :
  let hb := constant_hb None [] in
  let r := mk_full None [int_sort; int_sort] in
  let cond := mk_and (mk_lt (x_ 0) (x_ 1)) (mk_or (mk_eq (x_ 0) (int_numeral 1))
                                                  (mk_eq (x_ 0) (int_numeral 0))) in
  ∃ r1 rows,
    @get_ineqs hb r = Some r1
    ∧ @filter_interpreted hb split_and cond r
      = Some (with_ineqs (matrix.append (m_ineqs r1) (matrix.of_rows rows)) r1)
    ∧ (length rows ≤ 2 * length (@flatten_and split_and cond))%nat
    ∧ ∀ x, (∀ c, c ∈ @flatten_and split_and cond → holds x c ∧ integral_gap x c) →
           Forall (row_holds x) rows.
Proof.
  intros hb r cond.
  destruct (@filter_interpreted_sound hb split_and cond r
              (with_ineqs (matrix.of_rows [([-1; 1], -1, false); ([1; 0], 0, false);
                                           ([-1; 0], 1, false)]) r))
    as (r1 & rows & H1 & H2 & H3 & H4).
  - vm_compute. reflexivity.
  - exists r1, rows. rewrite <- H2. split; [done |]. split; [| done].
    vm_compute. reflexivity.
Defined.

(** ** ConstraintParser: no access out of range *)

Lemma is_linear_total e : ∀ row b mul,
  vars_below (length row) e = true → is_Some (is_linear e row b mul).
Proof.
  induction e as [idx s | k int | k s args IH | body IH] using expr_ind';
    intros row b mul Hv; cbn [is_linear].
  - destruct (negb (is_int (mk_var idx s))); [done |].
    simpl in Hv. apply bool_decide_eq_true in Hv.
    unfold get. destruct (lookup_lt_is_Some_2 row idx Hv) as [c ->].
    cbn [mbind option_bind]. unfold set. by rewrite decide_True.
  - by destruct (negb (is_int (mk_numeral k int))).
  - destruct (negb (is_int (mk_app k s args))); [done |].
    cbn [vars_below] in Hv. apply Is_true_true, forallb_True in Hv.
    destruct k; try done.
    + revert row b Hv. induction IH as [|a args Ha Hargs IHargs]; intros row b Hv; [done |].
      apply Forall_cons in Hv as [Hva Hv].
      destruct (Ha row b mul) as [[[ok1 row1] b1] E1]; [by apply Is_true_true |].
      rewrite E1. cbn [mbind option_bind].
      destruct ok1; [| done]. apply IHargs.
      destruct (is_linear_inv _ _ _ _ _ _ _ E1) as [-> _]. done.
    + destruct args as [|e1 [|e2 [|? ?]]]; try done.
      apply Forall_cons in IH as [IH1 IH]. apply Forall_cons in IH as [IH2 _].
      apply Forall_cons in Hv as [Hv1 Hv]. apply Forall_cons in Hv as [Hv2 _].
      destruct (IH1 row b mul) as [[[ok1 row1] b1] E1]; [by apply Is_true_true |].
      rewrite E1. cbn [mbind option_bind].
      destruct ok1; [| done]. apply IH2.
      destruct (is_linear_inv _ _ _ _ _ _ _ E1) as [-> _]. by apply Is_true_true.
    + destruct args as [|e1 [|e2 [|? ?]]]; try done.
      apply Forall_cons in IH as [IH1 IH]. apply Forall_cons in IH as [IH2 _].
      apply Forall_cons in Hv as [Hv1 Hv]. apply Forall_cons in Hv as [Hv2 _].
      destruct (is_numeral e1); [apply IH2; by apply Is_true_true |].
      destruct (is_numeral e2); [apply IH1; by apply Is_true_true | done].
    + destruct args as [|e1 [|? ?]]; try done.
      apply Forall_cons in IH as [IH1 _]. apply Forall_cons in Hv as [Hv1 _].
      apply IH1. by apply Is_true_true.
  - by destruct (negb (is_int (mk_quantifier body))).
Qed.

Lemma vars_below_binary n k s e1 e2 :
  vars_below n (mk_app k s [e1; e2]) = true →
  vars_below n e1 = true ∧ vars_below n e2 = true.
Proof. simpl. rewrite andb_true_r. apply andb_true_iff. Qed.

Lemma vars_below_pattern_le n e e1 e2 :
  pattern_le e = Some (e1, e2) → vars_below n e = true →
  vars_below n e1 = true ∧ vars_below n e2 = true.
Proof.
  intros [[s ->] | [s ->]]%pattern_le_inv Hv; apply vars_below_binary in Hv; tauto.
Qed.

Lemma vars_below_pattern_lt n e e1 e2 :
  pattern_lt e = Some (e1, e2) → vars_below n e = true →
  vars_below n e1 = true ∧ vars_below n e2 = true.
Proof.
  intros [[s ->] | [s ->]]%pattern_lt_inv Hv; apply vars_below_binary in Hv; tauto.
Qed.

Lemma vars_below_pattern_not_lt n e e1 e2 :
  pattern_not_lt e = Some (e1, e2) → vars_below n e = true →
  vars_below n e1 = true ∧ vars_below n e2 = true.
Proof.
  intros [(s & s' & ->) | (s & s' & ->)]%pattern_not_lt_inv Hv;
    simpl in Hv; rewrite !andb_true_r in Hv; apply andb_true_iff in Hv; tauto.
Qed.

Lemma vars_below_pattern_not_le n e e1 e2 :
  pattern_not_le e = Some (e1, e2) → vars_below n e = true →
  vars_below n e1 = true ∧ vars_below n e2 = true.
Proof.
  intros [(s & s' & ->) | (s & s' & ->)]%pattern_not_le_inv Hv;
    simpl in Hv; rewrite !andb_true_r in Hv; apply andb_true_iff in Hv; tauto.
Qed.

Lemma vars_below_is_eq n d v s k :
  is_eq d = Some (v, s, k) → vars_below n d = true → (v < n)%nat.
Proof.
  intros (s' & int & [-> | ->])%is_eq_inv Hv; simpl in Hv;
    rewrite ?andb_true_r in Hv; by apply bool_decide_eq_true in Hv.
Qed.

(** An arm of the chain returns, and hands a row of the same width to the
    next arm. *)
Lemma linear_arm_total n e pat mul1 mul2 emit row b :
  (∀ e1 e2, pat = Some (e1, e2) → vars_below n e = true →
            vars_below n e1 = true ∧ vars_below n e2 = true) →
  vars_below n e = true → length row = n →
  ∃ a, linear_arm pat mul1 mul2 emit row b = Some a
       ∧ ∀ row' b', a = next_arm row' b' → length row' = n.
Proof.
  intros Hsub Hv Hlen. unfold linear_arm. destruct pat as [[e1 e2]|].
  - destruct (Hsub e1 e2 eq_refl Hv) as [Hv1 Hv2].
    destruct (is_linear_total e1 row b mul1) as [[[ok1 row1] b1] E1]; [by rewrite Hlen |].
    rewrite E1. cbn [mbind option_bind].
    destruct (is_linear_inv _ _ _ _ _ _ _ E1) as [Hlen1 _].
    destruct ok1.
    + destruct (is_linear_total e2 row1 b1 mul2) as [[[ok2 row2] b2] E2];
        [by rewrite Hlen1, Hlen |].
      rewrite E2. cbn [mbind option_bind].
      destruct (is_linear_inv _ _ _ _ _ _ _ E2) as [Hlen2 _].
      destruct ok2; eexists; (split; [reflexivity |]); intros row' b' [= <- <-]; congruence.
    + eexists. split; [reflexivity |]. intros row' b' [= <- <-]. congruence.
  - eexists. split; [reflexivity |]. by intros row' b' [= <- <-].
Qed.

Lemma or_arm_total n e M row b :
  vars_below n e = true → length row = n → is_Some (or_arm e M row b).
Proof.
  intros Hv Hlen. unfold or_arm.
  destruct (is_or e) as [[d1 d2]|] eqn:Hor; [| done].
  destruct (is_binary_inv _ _ _ _ Hor) as (k & s & -> & _).
  apply vars_below_binary in Hv as [Hv1 Hv2].
  destruct (is_eq d1) as [[[v sv] n1]|] eqn:Hd1; [| done].
  destruct (is_eq d2) as [[[w sw] n2]|] eqn:Hd2; [| done].
  case_decide; [| done].
  pose proof (vars_below_is_eq _ _ _ _ _ Hd1 Hv1) as Hvn.
  destruct (rational_gt n1 n2); unfold set;
    rewrite decide_True by lia; cbn [mbind option_bind];
    rewrite decide_True by (rewrite length_insert; lia); done.
Qed.

Lemma else_if_total n a k :
  (∃ a', a = Some a' ∧ ∀ row b, a' = next_arm row b → length row = n) →
  (∀ row b, length row = n → is_Some (k row b)) →
  is_Some (else_if a k).
Proof.
  intros (a' & -> & Hnext) Hk. unfold else_if. cbn [mbind option_bind].
  destruct a' as [M | row b]; [done |]. apply Hk. by eapply Hnext.
Qed.

Lemma else_if_total_next n a k :
  (∃ a', a = Some a' ∧ ∀ row b, a' = next_arm row b → length row = n) →
  (∀ row b, length row = n →
     ∃ a', k row b = Some a' ∧ ∀ row' b', a' = next_arm row' b' → length row' = n) →
  ∃ a', else_if a k = Some a' ∧ ∀ row b, a' = next_arm row b → length row = n.
Proof.
  intros (a' & -> & Hnext) Hk. unfold else_if. cbn [mbind option_bind].
  destruct a' as [M | row b]; [by eexists |]. apply Hk. by eapply Hnext.
Qed.

Lemma filter_interpreted_conj_total n M e :
  vars_below n e = true → is_Some (filter_interpreted_conj n M e).
Proof.
  intros Hv. unfold filter_interpreted_conj.
  assert (length (zero_row n) = n) as Hz by (unfold zero_row; by rewrite length_replicate).
  match goal with
  | |- is_Some (?c ≫= _) => assert (is_Some c) as [a ->]
  end; [| cbn [mbind option_bind]; by destruct a].
  apply (else_if_total n).
  { apply linear_arm_total with (e := e); [| done | done].
    intros e1 e2 Hp Hv'. destruct (m_is_eq_inv _ _ _ Hp) as [s ->].
    by apply vars_below_binary in Hv'. }
  intros row1 b1 Hl1. apply (else_if_total n).
  { apply linear_arm_total with (e := e); [| done | done].
    intros e1 e2 Hp. by apply vars_below_pattern_le. }
  intros row2 b2 Hl2. apply (else_if_total n).
  { apply linear_arm_total with (e := e); [| done | done].
    intros e1 e2 Hp. by apply vars_below_pattern_lt. }
  intros row3 b3 Hl3. apply (else_if_total n).
  { apply linear_arm_total with (e := e); [| done | done].
    intros e1 e2 Hp. by apply vars_below_pattern_not_lt. }
  intros row4 b4 Hl4. apply (else_if_total n).
  { apply linear_arm_total with (e := e); [| done | done].
    intros e1 e2 Hp. by apply vars_below_pattern_not_le. }
  intros row5 b5 Hl5. by apply or_arm_total with (n := n).
Qed.

Lemma filter_interpreted_loop_total n conjs : ∀ M,
  Forall (λ c, vars_below n c = true) conjs → is_Some (filter_interpreted_loop n conjs M).
Proof.
  induction conjs as [|e conjs IH]; intros M Hv; simpl; [done |].
  apply Forall_cons in Hv as [Hve Hv].
  destruct (filter_interpreted_conj_total n M e Hve) as [M1 ->]. simpl. by apply IH.
Qed.

(** X7.  The parser stays inside its rows.  On a relation whose
    constraints are valid, [filter_interpreted] returns for every
    condition all of whose variables are columns of the signature: no row
    is read or written out of range, whatever the shape and the sorts of
    the conjuncts. *)
Theorem filter_interpreted_in_range `{hilbert_basis, dl_util} (cond : expr)
    (r : karr_relation) :
  m_ineqs_valid r = true →
  Forall (λ c, vars_below (length (signature r)) c = true) (flatten_and cond) →
  is_Some (filter_interpreted cond r).
Proof.
  intros Hvalid Hv. rewrite filter_interpreted_valid by done.
  destruct (filter_interpreted_loop_total _ _ (m_ineqs r) Hv) as [M ->]. done.
Qed.

Lemma filter_interpreted_in_range_witness :
  is_Some (@filter_interpreted (constant_hb None []) split_and
             (mk_and (mk_not (mk_le (mk_mul (x_ 0) (x_ 1)) (int_numeral 2)))
                     (mk_eq (x_ 1) (mk_app OP_SUB int_sort [x_ 0; mk_numeral 1 false])))
             (mk_full None [int_sort; int_sort])).
Proof.
  apply (@filter_interpreted_in_range (constant_hb None []) split_and).
  - reflexivity.
  - vm_compute. repeat constructor.
Defined.

(** X8.  [filter_interpreted] does not invalidate the basis.  What it
    returns differs from the relation with materialised constraints in
    the constraint matrix only: the basis matrix and its validity flag
    are as they were, also when rows have been added, and so are the
    emptiness flag, the signature and the predicate. *)
Theorem filter_interpreted_keeps_basis `{hilbert_basis, dl_util} (cond : expr)
    (r r' : karr_relation) :
  filter_interpreted cond r = Some r' →
  m_basis r' = m_basis r ∧ m_basis_valid r' = m_basis_valid r
  ∧ m_empty r' = m_empty r ∧ signature r' = signature r ∧ m_fn r' = m_fn r
  ∧ m_ineqs_valid r' = true.
Proof.
  unfold filter_interpreted, get_ineqs, init_ineqs. intros Hf.
  destruct (m_ineqs_valid r) eqn:Hvalid; cbn [mbind option_bind] in Hf.
  - destruct (filter_interpreted_loop _ _ _) as [M|]; [| done].
    injection Hf as <-. by destruct r.
  - destruct (dualizeH (m_basis r)) as [dst|]; [| done]. cbn [mbind option_bind] in Hf.
    destruct (filter_interpreted_loop _ _ _) as [M|]; [| done].
    injection Hf as <-. by destruct r.
Qed.

Lemma filter_interpreted_keeps_basis_witness :
  let hb := constant_hb None [] in
  let r := mk_karr_relation [int_sort] None false
             (matrix.of_rows [([1], 0, false)]) true
             (matrix.of_rows [([1], 0, false)]) true in
  let r' := with_ineqs (matrix.of_rows [([1], 0, false); ([1], -2, true)]) r in
  @filter_interpreted hb split_and (mk_eq (x_ 0) (int_numeral 2)) r = Some r'
  ∧ m_basis r' = m_basis r ∧ m_basis_valid r' = true.
Proof.
  intros hb r r'.
  assert (@filter_interpreted hb split_and (mk_eq (x_ 0) (int_numeral 2)) r = Some r') as Hf
    by (vm_compute; reflexivity).
  split; [exact Hf |].
  destruct (@filter_interpreted_keeps_basis hb split_and _ r r' Hf) as (Hb & Hbv & _).
  by split.
Defined.

(** ** mk_join *)

Lemma dot_app l1 : ∀ j l2 x,
  dot j (l1 ++ l2) x = dot j l1 x + dot (j + length l1) l2 x.
Proof.
  induction l1 as [|c l1 IH]; intros j l2 x; simpl.
  - rewrite Nat.add_0_r. ring.
  - rewrite IH. replace (S j + length l1)%nat with (j + S (length l1))%nat by lia. ring.
Qed.

Lemma dot_replicate_zero n j x : dot j (replicate n 0) x = 0.
Proof. apply dot_zero_row. Qed.

Lemma dot_shift row : ∀ j k x, dot j row (λ i, x (k + i)%nat) = dot (k + j) row x.
Proof.
  induction row as [|c row IH]; intros j k x; simpl; [done |].
  rewrite IH. by replace (k + S j)%nat with (S (k + j)) by lia.
Qed.

Lemma dot_resize n row x : (length row ≤ n)%nat → dot 0 (resize n row) x = dot 0 row x.
Proof.
  intros Hlen. unfold resize. rewrite take_ge by done.
  rewrite dot_app, dot_replicate_zero. ring.
Qed.

Lemma join_left_rows sig rows : ∀ acc,
  join_left sig rows (matrix.of_rows acc)
  = matrix.of_rows (acc ++ ((λ r, (resize sig r.1.1, r.1.2, r.2)) <$> rows)).
Proof.
  unfold join_left.
  induction rows as [|[[r c] e] rows IH]; intros acc; simpl.
  - by rewrite app_nil_r.
  - rewrite of_rows_push, IH, <- app_assoc. done.
Qed.

Lemma join_shift_seq n1 todo : ∀ done a z c,
  length a = (n1 + length done)%nat → length z = length todo →
  join_shift n1 (done ++ todo) (seq (length done) (length todo)) (a ++ z ++ c)
  = Some (a ++ todo ++ c).
Proof.
  induction todo as [|t todo IH]; intros done a z c Ha Hz.
  - destruct z; [done | done].
  - destruct z as [|z0 z]; [done |]. simpl in Hz.
    cbn [length seq join_shift]. unfold get.
    rewrite lookup_app_r by lia. rewrite Nat.sub_diag. cbn [lookup list_lookup mbind option_bind].
    rewrite set_Some by (rewrite length_app; simpl; lia).
    cbn [mbind option_bind].
    rewrite <- Ha. rewrite insert_app_r_alt by lia. rewrite Nat.sub_diag.
    cbn [insert list_insert].
    specialize (IH (done ++ [t]) (a ++ [t]) z c).
    rewrite !length_app in IH. simpl in IH.
    rewrite <- !app_assoc in IH. simpl in IH.
    replace (length done + 1)%nat with (S (length done)) in IH by lia.
    apply IH; lia.
Qed.

Lemma join_shift_row n1 sig r :
  (n1 + length r ≤ sig)%nat →
  join_shift n1 r (seq 0 (length r)) (zero_row sig)
  = Some (replicate n1 0 ++ r ++ replicate (sig - n1 - length r) 0).
Proof.
  intros Hle.
  replace (zero_row sig)
    with (replicate n1 0 ++ replicate (length r) 0 ++ replicate (sig - n1 - length r) 0).
  - apply (join_shift_seq n1 r [] (replicate n1 0)).
    + rewrite length_replicate. simpl. lia.
    + by rewrite length_replicate.
  - unfold zero_row. rewrite <- !replicate_add. f_equal. lia.
Qed.

Lemma join_right_rows n1 sig rows : ∀ acc,
  Forall (λ r, n1 + length r.1.1 ≤ sig)%nat rows →
  join_right n1 sig rows (matrix.of_rows acc)
  = Some (matrix.of_rows
            (acc ++ ((λ r, (replicate n1 0 ++ r.1.1 ++ replicate (sig - n1 - length r.1.1) 0,
                            r.1.2, r.2)) <$> rows))).
Proof.
  induction rows as [|[[r c] e] rows IH]; intros acc Hw; simpl.
  - by rewrite app_nil_r.
  - apply Forall_cons in Hw as [Hr Hw]. simpl in Hr.
    rewrite join_shift_row by done. cbn [mbind option_bind].
    rewrite of_rows_push, IH by done. by rewrite <- app_assoc.
Qed.

Lemma join_pairs_rows n1 sig cols1 cols2 ixs : ∀ acc,
  Forall (λ i, ∃ c1 c2, cols1 !! i = Some c1 ∧ cols2 !! i = Some c2
                        ∧ c1 < sig ∧ n1 + c2 < sig)%nat ixs →
  ∃ rows,
    join_pairs n1 sig cols1 cols2 ixs (matrix.of_rows acc) = Some (matrix.of_rows (acc ++ rows))
    ∧ Forall2 (λ i r, ∃ c1 c2, cols1 !! i = Some c1 ∧ cols2 !! i = Some c2
                 ∧ r = (<[(n1 + c2)%nat := -1]> (<[c1 := 1]> (zero_row sig)), 0, true)) ixs rows.
Proof.
  induction ixs as [|i ixs IH]; intros acc Hix; simpl.
  - exists []. by rewrite app_nil_r.
  - apply Forall_cons in Hix as [(c1 & c2 & H1 & H2 & Hc1 & Hc2) Hix].
    unfold get. rewrite H1, H2. cbn [mbind option_bind].
    rewrite set_Some by (unfold zero_row; by rewrite length_replicate).
    cbn [mbind option_bind].
    rewrite set_Some by (unfold zero_row; by rewrite length_insert, length_replicate).
    cbn [mbind option_bind].
    rewrite of_rows_push.
    destruct (IH (acc ++ [(<[(n1 + c2)%nat := -1]> (<[c1 := 1]> (zero_row sig)), 0, true)]) Hix)
      as (rows & -> & Hrows).
    eexists (_ :: rows). rewrite <- app_assoc. split; [done |].
    constructor; [| done]. by exists c1, c2.
Qed.

Lemma row_holds_resize sig x r :
  (length r.1.1 ≤ sig)%nat →
  row_holds x (resize sig r.1.1, r.1.2, r.2) ↔ row_holds x r.
Proof.
  intros Hlen. unfold row_holds, row_value. cbn [fst snd]. by rewrite dot_resize.
Qed.

Lemma row_holds_shifted n1 m x (r : list rational * rational * bool) :
  row_holds x (replicate n1 0 ++ r.1.1 ++ replicate m 0, r.1.2, r.2)
  ↔ row_holds (λ j, x (n1 + j)%nat) r.
Proof.
  unfold row_holds, row_value. cbn [fst snd].
  rewrite !dot_app, !dot_replicate_zero, dot_shift, length_replicate.
  replace (n1 + 0)%nat with (0 + n1)%nat by lia.
  replace (dot (0 + n1) r.1.1 x + 0) with (dot (0 + n1) r.1.1 x) by ring.
  replace (0 + dot (0 + n1) r.1.1 x) with (dot (0 + n1) r.1.1 x) by ring.
  done.
Qed.

Lemma row_holds_pair n1 sig c1 c2 x :
  (c1 < n1)%nat → (n1 + c2 < sig)%nat →
  row_holds x (<[(n1 + c2)%nat := -1]> (<[c1 := 1]> (zero_row sig)), 0, true)
  ↔ x c1 = x (n1 + c2)%nat.
Proof.
  intros H1 H2. unfold row_holds, row_value. cbn [fst snd].
  rewrite (dot_insert _ (n1 + c2) 0 0 (-1) x).
  2:{ rewrite list_lookup_insert_ne by lia. unfold zero_row. apply lookup_replicate_2. lia. }
  rewrite dot_unit_row by lia. simpl. split; intros E.
  - transitivity (1 * x c1 + (-1 - 0) * x (n1 + c2)%nat + 0 + x (n1 + c2)%nat); [ring |].
    rewrite E. ring.
  - rewrite E. ring.
Qed.

(** X9.  The join means the conjunction of its operands and of the
    column equalities.  For two non-empty operands whose constraint rows
    have the widths [n₁] and [n₂] of their signatures, a result signature
    of width [n₁ + n₂] and column pairs in range, [mk_join] returns a
    non-empty relation with valid constraints and an invalid basis; its
    rows hold under a valuation [x] exactly when the rows of the first
    operand hold under [x], the rows of the second hold under [x] shifted
    by [n₁], and [x c₁ = x (n₁ + c₂)] for every pair of columns. *)
Theorem mk_join_semantics `{hilbert_basis} (self r1 r2 r1' r2' : karr_relation)
    (rows1 rows2 : list (list rational * rational * bool)) (cols1 cols2 : list nat)
    (n1 n2 : nat) :
  empty r1 = false → empty r2 = false →
  get_ineqs r1 = Some r1' → get_ineqs r2 = Some r2' →
  m_ineqs r1' = matrix.of_rows rows1 → m_ineqs r2' = matrix.of_rows rows2 →
  length (signature r1') = n1 → length (signature self) = (n1 + n2)%nat →
  Forall (λ r, length r.1.1 = n1) rows1 → Forall (λ r, length r.1.1 = n2) rows2 →
  length cols1 = length cols2 →
  Forall (λ c, c < n1)%nat cols1 → Forall (λ c, c < n2)%nat cols2 →
  ∃ self' rows,
    mk_join self r1 r2 cols1 cols2 = Some (self', r1', r2')
    ∧ m_ineqs self' = matrix.of_rows rows
    ∧ m_ineqs_valid self' = true ∧ m_basis_valid self' = false ∧ empty self' = false
    ∧ signature self' = signature self
    ∧ ∀ x, Forall (row_holds x) rows
           ↔ Forall (row_holds x) rows1
             ∧ Forall (row_holds (λ j, x (n1 + j)%nat)) rows2
             ∧ ∀ i c1 c2, cols1 !! i = Some c1 → cols2 !! i = Some c2 →
                          x c1 = x (n1 + c2)%nat.
Proof.
  intros He1 He2 Hg1 Hg2 HM1 HM2 Hn1 Hsig Hw1 Hw2 Hcols Hc1 Hc2.
  unfold mk_join. rewrite He1, He2. cbn [orb]. rewrite Hg1, Hg2. cbn [mbind option_bind].
  rewrite HM1, HM2, !of_rows_rows. cbn [mbind option_bind].
  rewrite Hn1, Hsig.
  change matrix.empty with (matrix.of_rows []). rewrite join_left_rows. cbn [app].
  rewrite join_right_rows.
  2:{ eapply Forall_impl; [exact Hw2 |]. intros r Hr. simpl in Hr. lia. }
  cbn [mbind option_bind].
  destruct (join_pairs_rows n1 (n1 + n2) cols1 cols2 (seq 0 (length cols1))
              (((λ r, (resize (n1 + n2) r.1.1, r.1.2, r.2)) <$> rows1) ++
               ((λ r, (replicate n1 0 ++ r.1.1 ++ replicate (n1 + n2 - n1 - length r.1.1) 0,
                       r.1.2, r.2)) <$> rows2)))
    as (prs & -> & Hprs).
  { apply Forall_forall. intros i Hi%elem_of_seq.
    destruct (lookup_lt_is_Some_2 cols1 i) as [c1 E1]; [lia |].
    destruct (lookup_lt_is_Some_2 cols2 i) as [c2 E2]; [lia |].
    exists c1, c2. split; [done |]. split; [done |].
    pose proof (proj1 (Forall_lookup _ _) Hc1 i c1 E1).
    pose proof (proj1 (Forall_lookup _ _) Hc2 i c2 E2). simpl in *. lia. }
  cbn [mbind option_bind].
  eexists _, _. split; [reflexivity |]. cbn.
  split; [reflexivity |]. do 4 (split; [done |]).
  intros x. rewrite !Forall_app, !Forall_fmap.
  assert (Forall (row_holds x ∘ (λ r, (resize (n1 + n2) r.1.1, r.1.2, r.2))) rows1
          ↔ Forall (row_holds x) rows1) as ->.
  { rewrite !Forall_forall. split; intros Hall r Hr; specialize (Hall r Hr);
      pose proof (proj1 (Forall_forall _ _) Hw1 r Hr) as Hlen; simpl in Hlen;
      unfold compose in *; apply (row_holds_resize (n1 + n2) x r); (lia || done). }
  assert (Forall (row_holds x ∘
                    (λ r, (replicate n1 0 ++ r.1.1 ++ replicate (n1 + n2 - n1 - length r.1.1) 0,
                           r.1.2, r.2))) rows2
          ↔ Forall (row_holds (λ j, x (n1 + j)%nat)) rows2) as ->.
  { apply Forall_iff. intros r. unfold compose. apply row_holds_shifted. }
  assert (Forall (row_holds x) prs
          ↔ ∀ i c1 c2, cols1 !! i = Some c1 → cols2 !! i = Some c2 → x c1 = x (n1 + c2)%nat)
    as ->; [| tauto].
  split.
  - intros Hall i c1 c2 E1 E2.
    assert (i < length cols1)%nat as Hi by by apply lookup_lt_Some in E1.
    assert (seq 0 (length cols1) !! i = Some i) as Hseq by by apply lookup_seq.
    destruct (Forall2_lookup_l _ _ _ _ _ Hprs Hseq) as (r & Hr & c1' & c2' & E1' & E2' & ->).
    rewrite E1 in E1'. rewrite E2 in E2'. injection E1' as <-. injection E2' as <-.
    pose proof (proj1 (Forall_lookup _ _) Hall _ _ Hr) as Hrow.
    pose proof (proj1 (Forall_lookup _ _) Hc1 i c1 E1).
    pose proof (proj1 (Forall_lookup _ _) Hc2 i c2 E2). simpl in *.
    apply (row_holds_pair n1 (n1 + n2) c1 c2 x); [lia | lia | done].
  - intros Hall. apply Forall_lookup. intros j r Hr.
    destruct (Forall2_lookup_r _ _ _ _ _ Hprs Hr) as (i & Hi & c1 & c2 & E1 & E2 & ->).
    pose proof (proj1 (Forall_lookup _ _) Hc1 i c1 E1).
    pose proof (proj1 (Forall_lookup _ _) Hc2 i c2 E2). simpl in *.
    apply (row_holds_pair n1 (n1 + n2) c1 c2 x); [lia | lia |]. by apply (Hall i).
Qed.

Lemma mk_join_semantics_witness :
  let hb := constant_hb None [] in
  let r1 := mk_karr_relation [int_sort] None false
              (matrix.of_rows [([1], -1, true)]) true matrix.empty false in
  let r2 := mk_karr_relation [int_sort] None false
              (matrix.of_rows [([2], 0, false)]) true matrix.empty false in
  ∃ self' rows,
    @mk_join hb (mk_full None [int_sort; int_sort]) r1 r2 [0%nat] [0%nat] = Some (self', r1, r2)
    ∧ m_ineqs self' = matrix.of_rows rows
    ∧ ∀ x, Forall (row_holds x) rows
           ↔ Forall (row_holds x) [([1], -1, true)]
             ∧ Forall (row_holds (λ j, x (1 + j)%nat)) [([2], 0, false)]
             ∧ ∀ i c1 c2, [0%nat] !! i = Some c1 → [0%nat] !! i = Some c2 →
                          x c1 = x (1 + c2)%nat.
Proof.
  intros hb r1 r2.
  destruct (@mk_join_semantics hb (mk_full None [int_sort; int_sort]) r1 r2 r1 r2
              [([1], -1, true)] [([2], 0, false)] [0%nat] [0%nat] 1 1)
    as (self' & rows & Hj & HM & _ & _ & _ & _ & Hsem);
    try reflexivity; try (repeat constructor).
  exists self', rows. by split.
Defined.

(** ** mk_project *)

Lemma project_row_kept cols : ascending cols → ∀ src k j,
  (∀ k' c, cols !! k' = Some c → ((k' < k)%nat → (c < j)%nat) ∧ ((k ≤ k')%nat → (j ≤ c)%nat)) →
  project_row cols k j src
  = snd <$> filter (λ p : nat * rational, p.1 ∉ cols) (imap (λ i x, ((j + i)%nat, x)) src).
Proof.
  intros Hasc. induction src as [|x src IH]; intros k j Hinv; [done |].
  cbn [project_row imap]. rewrite Nat.add_0_r.
  rewrite (imap_ext _ (λ i x, ((S j + i)%nat, x))) by (intros; simpl; f_equal; lia).
  rewrite filter_cons. cbn [fst].
  destruct (bool_decide (k < length cols)%nat && bool_decide (cols !! k = Some j)) eqn:Hc.
  - apply andb_true_iff in Hc as [_ Hk%bool_decide_eq_true].
    rewrite decide_False by (intros Hn; apply Hn; by eapply list_elem_of_lookup_2).
    apply IH. intros k' c Hk'. split; intros Hlt.
    + destruct (decide (k' = k)) as [-> | Hne].
      * rewrite Hk in Hk'. injection Hk' as <-. lia.
      * destruct (Hinv k' c Hk') as [Hl _]. specialize (Hl ltac:(lia)). lia.
    + specialize (Hasc k k' j c ltac:(lia) Hk Hk'). lia.
  - assert (j ∉ cols) as Hnotin.
    { intros (k' & Hk')%list_elem_of_lookup_1.
      destruct (Hinv k' j Hk') as [Hl Hg].
      destruct (decide (k' < k)%nat) as [Hlt | Hge]; [specialize (Hl Hlt); lia |].
      apply andb_false_iff in Hc as [Hc | Hc].
      - apply bool_decide_eq_false in Hc. apply lookup_lt_Some in Hk'. lia.
      - apply bool_decide_eq_false in Hc.
        destruct (decide (k' = k)) as [-> | Hne]; [done |].
        destruct (lookup_lt_is_Some_2 cols k) as [ck Hck];
          [apply lookup_lt_Some in Hk'; lia |].
        specialize (Hasc k k' ck j ltac:(lia) Hck Hk').
        destruct (Hinv k ck Hck) as [_ Hg']. specialize (Hg' ltac:(lia)). lia. }
    rewrite decide_True by done. cbn [fmap list_fmap snd]. f_equal.
    apply IH. intros k' c Hk'. destruct (Hinv k' c Hk') as [Hl Hg]. split; intros Hlt.
    + specialize (Hl Hlt). lia.
    + specialize (Hg Hlt).
      assert (c ≠ j) by (intros ->; apply Hnotin; by eapply list_elem_of_lookup_2). lia.
Qed.

Lemma project_row_kept_columns cols row :
  ascending cols → project_row cols 0 0 row = kept_columns cols row.
Proof.
  intros Hasc. rewrite (project_row_kept cols Hasc row 0 0).
  - unfold kept_columns. do 2 f_equal.
  - intros k' c _. split; lia.
Qed.

Lemma project_rows_spec cols m k : ∀ i acc,
  (i + k = length m)%nat →
  project_rows cols (matrix.of_rows m) (seq i k) (matrix.of_rows acc)
  = Some (matrix.of_rows
            (acc ++ ((λ r, (project_row cols 0 0 r.1.1, r.1.2, true)) <$> drop i m))).
Proof.
  induction k as [|k IH]; intros i acc Hik; simpl.
  - rewrite drop_ge by lia. by rewrite app_nil_r.
  - destruct (lookup_lt_is_Some_2 m i) as [[[r c] e] Hr]; [lia |].
    unfold get, matrix.of_rows. cbn [matrix.A matrix.b].
    rewrite !list_lookup_fmap, Hr. cbn [fmap option_fmap option_map mbind option_bind fst snd].
    fold (matrix.of_rows acc). rewrite of_rows_push.
    fold (matrix.of_rows m). rewrite IH by lia.
    rewrite (drop_S m (r, c, e) i Hr). cbn [fmap list_fmap fst snd].
    by rewrite <- app_assoc.
Qed.

(** X10.  Projection removes exactly the listed columns.  For a relation
    that is not flagged empty, with its basis materialised and the
    removed columns listed in ascending order, [mk_project] returns a
    relation that is not empty, whose basis is valid and whose constraints
    are not; every basis row is carried over with its constant, tagged an
    equality, and keeps exactly the entries whose column is not removed,
    in order. *)
Theorem mk_project_keeps_other_columns `{hilbert_basis} (self r r' : karr_relation)
    (rows : list (list rational * rational * bool)) (cols : list nat) :
  m_empty r = false → get_basis r = Some r' → m_basis r' = matrix.of_rows rows →
  ascending cols →
  ∃ self',
    mk_project self r cols = Some (self', r')
    ∧ m_basis self'
      = matrix.of_rows ((λ row, (kept_columns cols row.1.1, row.1.2, true)) <$> rows)
    ∧ m_basis_valid self' = true ∧ m_ineqs_valid self' = false ∧ m_empty self' = false
    ∧ signature self' = signature self ∧ m_fn self' = m_fn r'.
Proof.
  intros He Hg HM Hasc. unfold mk_project. rewrite He, Hg. cbn [mbind option_bind].
  rewrite HM, of_rows_size. change matrix.empty with (matrix.of_rows []).
  rewrite project_rows_spec by lia. cbn [mbind option_bind app drop].
  eexists. split; [reflexivity |]. cbn. split; [| done].
  f_equal. apply list_fmap_ext. intros i row _. by rewrite project_row_kept_columns.
Qed.

Lemma mk_project_keeps_other_columns_witness :
  let hb := constant_hb None [] in
  let r := mk_karr_relation [int_sort; int_sort; int_sort] None false
             matrix.empty false
             (matrix.of_rows [([1; 2; -1], 1, true); ([0; 1; 1], 0, true)]) true in
  ∃ self',
    @mk_project hb (mk_full None [int_sort]) r [0%nat; 2%nat] = Some (self', r)
    ∧ m_basis self' = matrix.of_rows [([2], 1, true); ([1], 0, true)]
    ∧ m_empty self' = false.
Proof.
  intros hb r.
  destruct (@mk_project_keeps_other_columns hb (mk_full None [int_sort]) r r
              [([1; 2; -1], 1, true); ([0; 1; 1], 0, true)] [0%nat; 2%nat])
    as (self' & Hp & Hb & _ & _ & He & _).
  - reflexivity.
  - reflexivity.
  - reflexivity.
  - intros i j a b Hij Hi Hj.
    destruct i as [|[|i]], j as [|[|[|j]]]; simpl in *; try lia; try discriminate.
    injection Hi as <-. injection Hj as <-. lia.
  - exists self'. split; [done |]. split; [| done]. rewrite Hb. vm_compute. reflexivity.
Defined.

(** X11.  Projection forgets infeasibility.  [mk_project] looks at the
    emptiness flag before it asks for the basis: when the relation is not
    flagged empty, its basis is not valid and the saturator finds its
    constraints infeasible, the operand becomes empty, but the projection
    is a non-empty relation with a valid basis of no rows — and the
    formula of that relation is [true]. *)
Theorem mk_project_of_infeasible `{hilbert_basis} (self r : karr_relation) (cols : list nat)
    (dst : matrix.t) :
  m_empty r = false → m_basis_valid r = false →
  dualizeI (m_ineqs r) = Some (false, dst) →
  ∃ self' r',
    mk_project self r cols = Some (self', r')
    ∧ empty r' = true
    ∧ empty self' = false ∧ m_basis_valid self' = true ∧ m_basis self' = matrix.empty
    ∧ to_formula self' = Some mk_true.
Proof.
  intros He Hbv Hd. unfold mk_project, get_basis, init_basis. rewrite He, Hbv, Hd.
  cbn [mbind option_bind].
  assert (dst = matrix.empty) as ->.
  { unfold dualizeI in Hd. destruct (dualizeI_input (m_ineqs r)); [| done].
    cbn [mbind option_bind] in Hd. destruct (saturate_guarded h); try discriminate Hd. by injection Hd as <-. }
  cbn. eexists _, _. split; [reflexivity |]. cbn. do 4 (split; [done |]).
  unfold to_formula, get_ineqs, init_ineqs, dualizeH. cbn.
  rewrite decide_True by done. done.
Qed.

Lemma mk_project_of_infeasible_witness :
  let hb := constant_hb (Some l_false) [] in
  let r := mk_karr_relation [int_sort; int_sort] None false
             (matrix.of_rows [([1; 0], -1, true); ([1; 0], 0, true)]) true
             matrix.empty false in
  ∃ self' r',
    @mk_project hb (mk_full None [int_sort]) r [1%nat] = Some (self', r')
    ∧ empty r' = true ∧ empty self' = false
    ∧ @to_formula hb self' = Some mk_true.
Proof.
  intros hb r.
  destruct (@mk_project_of_infeasible hb (mk_full None [int_sort]) r [1%nat] matrix.empty)
    as (self' & r' & Hp & He' & He & _ & _ & Hf); try reflexivity.
  by exists self', r'.
Defined.

(** ** filter_identical_fn *)

Lemma row_holds_difference n a c x :
  (a < n)%nat → (c < n)%nat → a ≠ c →
  row_holds x (<[c := -1]> (<[a := 1]> (zero_row n)), 0, true) ↔ x a = x c.
Proof.
  intros Ha Hc Hne. unfold row_holds, row_value. cbn [fst snd].
  rewrite (dot_insert _ c 0 0 (-1) x).
  2:{ rewrite list_lookup_insert_ne by done. unfold zero_row. by apply lookup_replicate_2. }
  rewrite dot_unit_row by done. simpl. split; intros E.
  - transitivity (1 * x a + (-1 - 0) * x c + 0 + x c); [ring | rewrite E; ring].
  - rewrite E. ring.
Qed.

Lemma row_holds_overwritten n a x :
  (a < n)%nat →
  row_holds x (<[a := -1]> (<[a := 1]> (zero_row n)), 0, true) ↔ x a = 0.
Proof.
  intros Ha. unfold row_holds, row_value. cbn [fst snd].
  rewrite list_insert_insert_eq, dot_unit_row by done. split; intros E.
  - transitivity (- (-1 * x a + 0)); [ring | rewrite E; ring].
  - rewrite E. ring.
Qed.

Lemma filter_identical_loop_spec n cols c0 ixs :
  cols !! 0%nat = Some c0 → (c0 < n)%nat → ∀ r, length (signature r) = n →
  Forall (λ i, ∃ ci, cols !! i = Some ci ∧ ci < n)%nat ixs →
  ∃ rows,
    filter_identical_loop cols ixs r
    = Some (with_basis_valid (match ixs with [] => m_basis_valid r | _ => false end)
              (with_ineqs (matrix.append (m_ineqs r) (matrix.of_rows rows)) r))
    ∧ Forall2 (λ i row, ∃ ci, cols !! i = Some ci
                 ∧ row = (<[ci := -1]> (<[c0 := 1]> (zero_row n)), 0, true)) ixs rows.
Proof.
  intros H0 Hc0. induction ixs as [|i ixs IH]; intros r Hsig Hix.
  - exists []. rewrite append_nil. split; [by destruct r | constructor].
  - apply Forall_cons in Hix as [(ci & Hi & Hci) Hix].
    cbn [filter_identical_loop]. unfold get. rewrite H0, Hi, Hsig. cbn [mbind option_bind].
    rewrite set_Some by (unfold zero_row; by rewrite length_replicate).
    cbn [mbind option_bind].
    rewrite set_Some by (unfold zero_row; by rewrite length_insert, length_replicate).
    cbn [mbind option_bind].
    destruct (IH (with_basis_valid false
                    (with_ineqs (matrix.push (m_ineqs r)
                                   (<[ci := -1]> (<[c0 := 1]> (zero_row n))) 0 true) r)))
      as (rows & -> & Hrows); [by destruct r | done |].
    eexists (_ :: rows). split.
    + f_equal. destruct r; cbn. rewrite push_as_append, append_append. cbn [app].
      by destruct ixs.
    + constructor; [| done]. by exists ci.
Qed.

(** X12.  What [filter_identical_fn] adds.  With the columns in range,
    the call returns the relation with materialised constraints followed
    by one equality row for each listed column after the first.  The rows
    hold under a valuation exactly when every later column that differs
    from the first has the first's value — and every later column that
    repeats the first is zero, because the row's entry [1] is overwritten
    by [-1].  The basis is invalidated only when a row is added, that is,
    when at least two columns are listed. *)
Theorem filter_identical_semantics `{hilbert_basis} (cols : list nat)
    (r r1 : karr_relation) (n : nat) :
  get_ineqs r = Some r1 → length (signature r1) = n →
  Forall (λ c, c < n)%nat cols →
  ∃ r' rows,
    filter_identical_call cols r = Some r'
    ∧ m_ineqs r' = matrix.append (m_ineqs r1) (matrix.of_rows rows)
    ∧ length rows = (length cols - 1)%nat
    ∧ m_basis_valid r' = (if decide (length cols ≤ 1)%nat then m_basis_valid r1 else false)
    ∧ m_basis r' = m_basis r1 ∧ m_empty r' = m_empty r1
    ∧ ∀ x, Forall (row_holds x) rows
           ↔ ∀ i c0 ci, (0 < i)%nat → cols !! 0%nat = Some c0 → cols !! i = Some ci →
                        if decide (ci = c0) then x c0 = 0 else x c0 = x ci.
Proof.
  intros Hg Hsig Hcols. unfold filter_identical_call. rewrite Hg. cbn [mbind option_bind].
  destruct cols as [|c0 cols].
  { exists r1, []. cbn. rewrite append_nil. do 6 (split; [done |]).
    intros x. split; [done | constructor]. }
  apply Forall_cons in Hcols as [Hc0 Hcols].
  destruct (filter_identical_loop_spec n (c0 :: cols) c0 (seq 1 (length cols))
              eq_refl Hc0 r1)
    as (rows & Hloop & Hrows); [done | |].
  { apply Forall_forall. intros i Hi%elem_of_seq.
    destruct i as [|i]; [lia |].
    destruct (lookup_lt_is_Some_2 cols i) as [ci Hi']; [lia |].
    exists ci. split; [done |]. by apply (proj1 (Forall_lookup _ _) Hcols i ci). }
  replace (length (c0 :: cols) - 1)%nat with (length cols) by (simpl; lia). rewrite Hloop.
  eexists _, rows. split; [reflexivity |]. cbn.
  split; [done |].
  split; [by rewrite <- (Forall2_length _ _ _ Hrows), length_seq |].
  split.
  { destruct cols; cbn; [done |]. by rewrite decide_False by lia. }
  do 2 (split; [done |]).
  intros x. split.
  - intros Hall i c0' ci Hi [= <-] Hci.
    destruct i as [|i]; [lia |]. cbn in Hci.
    assert (seq 1 (length cols) !! i = Some (S i)) as Hseq.
    { apply lookup_seq. split; [done |]. by apply lookup_lt_Some in Hci. }
    destruct (Forall2_lookup_l _ _ _ _ _ Hrows Hseq) as (row & Hrow & ci' & Hci' & ->).
    cbn in Hci'. rewrite Hci in Hci'. injection Hci' as <-.
    pose proof (proj1 (Forall_lookup _ _) Hall _ _ Hrow) as Hh.
    pose proof (proj1 (Forall_lookup _ _) Hcols i ci Hci) as Hlt. simpl in Hlt.
    case_decide as Hd.
    + subst ci. by apply (row_holds_overwritten n).
    + apply (row_holds_difference n c0 ci x); [done | done | congruence | done].
  - intros Hall. apply Forall_lookup. intros j row Hrow.
    destruct (Forall2_lookup_r _ _ _ _ _ Hrows Hrow) as (i & Hi & ci & Hci & ->).
    apply lookup_seq in Hi as [-> Hj]. cbn in Hci.
    pose proof (proj1 (Forall_lookup _ _) Hcols j ci Hci) as Hlt. simpl in Hlt.
    specialize (Hall (1 + j)%nat c0 ci ltac:(lia) eq_refl Hci).
    case_decide as Hd.
    + subst ci. by apply (row_holds_overwritten n).
    + apply (row_holds_difference n c0 ci x); [done | done | congruence | done].
Qed.

Lemma filter_identical_semantics_witness :
  let hb := constant_hb None [] in
  let r := mk_karr_relation [int_sort; int_sort] None false
             matrix.empty true matrix.empty true in
  ∃ r' rows,
    @filter_identical_call hb [0%nat; 1%nat; 0%nat] r = Some r'
    ∧ m_ineqs r' = matrix.append (m_ineqs r) (matrix.of_rows rows)
    ∧ m_basis_valid r' = false
    ∧ ∀ x, Forall (row_holds x) rows
           ↔ ∀ i c0 ci, (0 < i)%nat → [0%nat; 1%nat; 0%nat] !! 0%nat = Some c0 →
                        [0%nat; 1%nat; 0%nat] !! i = Some ci →
                        if decide (ci = c0) then x c0 = 0 else x c0 = x ci.
Proof.
  intros hb r.
  destruct (@filter_identical_semantics hb [0%nat; 1%nat; 0%nat] r r 2)
    as (r' & rows & Hf & HM & _ & Hbv & _ & _ & Hsem).
  - reflexivity.
  - reflexivity.
  - repeat constructor.
  - exists r', rows. split; [done |]. split; [done |]. split; [| done].
    rewrite Hbv. reflexivity.
Defined.

(** ** dualizeH *)

Lemma dualizeH_input_wf src :
  matrix.wf src → matrix.size src ≠ 0%nat → is_Some (dualizeH_input src).
Proof.
  intros Hwf Hsize. unfold dualizeH_input. destruct (wf_rows src Hwf) as [rows ->].
  cbn [mbind option_bind]. unfold get, matrix.size in *.
  destruct (matrix.A src) as [|r0 A]; [done |]. simpl. eauto.
Qed.

Lemma dualizeH_basis_rows sols : ∀ acc,
  Forall (λ v : list rational, v ≠ []) (non_initial sols) →
  ∃ rows,
    dualizeH_basis sols (matrix.of_rows acc) = Some (matrix.of_rows (acc ++ rows))
    ∧ Forall (λ r, r.2 = true) rows
    ∧ (λ r, r.1.1 ++ [r.1.2]) <$> rows = non_initial sols.
Proof.
  unfold non_initial.
  induction sols as [|[soln ini] sols IH]; intros acc Hne.
  - exists []. simpl. by rewrite app_nil_r.
  - rewrite filter_cons in Hne. cbn [snd] in Hne. rewrite filter_cons. cbn [snd].
    cbn [dualizeH_basis]. destruct ini.
    + rewrite decide_False in Hne by done. rewrite decide_False by done. by apply IH.
    + rewrite decide_True in Hne by done. rewrite decide_True by done.
      cbn [fmap list_fmap fst] in *. apply Forall_cons in Hne as [Hsoln Hne].
      destruct (exists_last Hsoln) as (front & back & ->).
      rewrite last_snoc, removelast_last. cbn [mbind option_bind]. rewrite of_rows_push.
      destruct (IH (acc ++ [(front, back, true)]) Hne) as (rows & -> & Heq & Hmap).
      exists ((front, back, true) :: rows). rewrite <- app_assoc.
      split; [done |]. split; [by constructor |]. cbn. by rewrite Hmap.
Qed.

(** X13.  What [dualizeH] reads back.  For a well-formed basis matrix: a
    matrix without rows gives a constraint matrix without rows, and so
    does every answer of the saturator other than SAT, an escaping
    exception included — the relation is then unconstrained; after SAT
    the constraint rows are the non-initial solutions in order, each split
    into its coefficients and its last component as the constant, and
    every one of them is tagged an equality. *)
Theorem dualizeH_outcomes `{hilbert_basis} (src : matrix.t) :
  matrix.wf src →
  (matrix.size src = 0%nat → dualizeH src = Some matrix.empty)
  ∧ (matrix.size src ≠ 0%nat →
     ∃ hb, dualizeH_input src = Some hb
           ∧ (saturate hb ≠ Some l_true → dualizeH src = Some matrix.empty)
           ∧ (saturate hb = Some l_true →
              Forall (λ v : list rational, v ≠ []) (non_initial (get_basis_solution hb)) →
              ∃ rows, dualizeH src = Some (matrix.of_rows rows)
                      ∧ Forall (λ r, r.2 = true) rows
                      ∧ (λ r, r.1.1 ++ [r.1.2]) <$> rows
                        = non_initial (get_basis_solution hb))).
Proof.
  intros Hwf. split.
  - intros Hsize. unfold dualizeH. by rewrite decide_True.
  - intros Hsize. destruct (dualizeH_input_wf src Hwf Hsize) as [hb Hhb].
    exists hb. split; [done |]. unfold dualizeH. rewrite decide_False by done.
    rewrite Hhb. cbn [mbind option_bind]. unfold saturate_guarded. split.
    + intros Hs. destruct (saturate hb) as [[| |]|]; done.
    + intros Hs Hne. rewrite Hs. change matrix.empty with (matrix.of_rows []).
      destruct (dualizeH_basis_rows (get_basis_solution hb) [] Hne) as (rows & -> & Hrows).
      by exists rows.
Qed.

Lemma dualizeH_outcomes_witness :
  let hb := constant_hb (Some l_true) [([1; -1; 0], false); ([0; 0; 1], true); ([0; 1; 2], false)] in
  ∃ rows, @dualizeH hb (matrix.of_rows [([1; 0], 0, true)]) = Some (matrix.of_rows rows)
          ∧ Forall (λ r, r.2 = true) rows
          ∧ (λ r, r.1.1 ++ [r.1.2]) <$> rows = [[1; -1; 0]; [0; 1; 2]].
Proof.
  intros hb.
  destruct (proj2 (@dualizeH_outcomes hb (matrix.of_rows [([1; 0], 0, true)])
                     (wf_of_rows _)) ltac:(done))
    as (hb' & Hin & _ & Hsat).
  apply Hsat.
  - reflexivity.
  - repeat constructor; done.
Defined.

(** ** mk_union and infeasible operands *)

Lemma dualizeI_failure_dst `{hilbert_basis} src dst :
  dualizeI src = Some (false, dst) → dst = matrix.empty.
Proof.
  unfold dualizeI. destruct (dualizeI_input src) as [hb|]; [| done].
  cbn [mbind option_bind]. destruct (saturate_guarded hb); intros Hd; try discriminate Hd.
  by injection Hd as <-.
Qed.

Lemma union_loop_into_empty m k : ∀ i acc,
  (i + k = length m)%nat →
  union_loop (matrix.of_rows m) (matrix.of_rows acc) 0 (seq i k)
  = Some (matrix.of_rows (acc ++ drop i m)).
Proof.
  induction k as [|k IH]; intros i acc Hik; simpl.
  - rewrite drop_ge by lia. by rewrite app_nil_r.
  - rewrite of_rows_row.
    destruct (lookup_lt_is_Some_2 m i) as [[[r c] e] Hr]; [lia |].
    rewrite Hr. cbn [mbind option_bind]. rewrite of_rows_push, IH by lia.
    rewrite (drop_S m (r, c, e) i Hr). by rewrite <- app_assoc.
Qed.

(** X14.  A union can turn an infeasible source into the full relation.
    [mk_union] looks at the source's emptiness flag before it asks for the
    source's basis.  When the source is not flagged empty, its basis is
    not valid and the saturator finds its constraints infeasible, the
    source becomes empty — but an empty target still adopts the source's
    basis of no rows: it becomes a non-empty relation whose formula is
    [true], and [delta] receives a copy of it. *)
Theorem mk_union_of_infeasible_source `{hilbert_basis} (self src : karr_relation)
    (delta : option karr_relation) (dst : matrix.t) :
  empty src = false → m_basis_valid src = false →
  dualizeI (m_ineqs src) = Some (false, dst) →
  empty self = true →
  ∃ self' src',
    mk_union self src delta = Some (self', src', (λ d, copy d self') <$> delta)
    ∧ empty src' = true
    ∧ empty self' = false ∧ m_basis_valid self' = true ∧ m_basis self' = matrix.empty
    ∧ to_formula self' = Some mk_true.
Proof.
  intros Hes Hbv Hd Het. pose proof (dualizeI_failure_dst _ _ Hd) as ->.
  unfold mk_union, get_basis, init_basis. rewrite Hes, Hbv, Hd. cbn [mbind option_bind].
  cbn. rewrite Het. eexists _, _. split; [reflexivity |]. cbn.
  do 4 (split; [done |]).
  unfold to_formula, get_ineqs, init_ineqs, dualizeH. cbn.
  by rewrite decide_True.
Qed.

Lemma mk_union_of_infeasible_source_witness :
  let hb := constant_hb (Some l_false) [] in
  let src := mk_karr_relation [int_sort] None false
               (matrix.of_rows [([1], -1, true); ([1], 0, true)]) true matrix.empty false in
  ∃ self' src',
    @mk_union hb (mk_empty [int_sort]) src None = Some (self', src', None)
    ∧ empty src' = true ∧ empty self' = false
    ∧ @to_formula hb self' = Some mk_true.
Proof.
  intros hb src.
  destruct (@mk_union_of_infeasible_source hb (mk_empty [int_sort]) src None matrix.empty)
    as (self' & src' & Hu & Hs & He & _ & _ & Hf); try reflexivity.
  by exists self', src'.
Defined.

(** X15.  A union into an infeasible target loses the source.  When the
    target is not flagged empty, its basis is not valid and the saturator
    finds its constraints infeasible, asking for the target's basis marks
    the target empty; the rows of the source's basis are still appended,
    but the flag stays: the result of the union is empty, with neither
    form valid, and its formula is [false], whatever the (non-empty)
    source contains. *)
Theorem mk_union_into_infeasible_target `{hilbert_basis} (self src src' : karr_relation)
    (delta : option karr_relation) (dst : matrix.t)
    (rowsM : list (list rational * rational * bool)) :
  empty src = false → get_basis src = Some src' → m_basis src' = matrix.of_rows rowsM →
  empty self = false → m_basis_valid self = false →
  dualizeI (m_ineqs self) = Some (false, dst) →
  ∃ self',
    mk_union self src delta
    = Some (self', src', if decide (rowsM ≠ []) then (λ d, copy d self') <$> delta else delta)
    ∧ empty self' = true
    ∧ m_basis self' = matrix.of_rows rowsM
    ∧ m_basis_valid self' = false ∧ m_ineqs_valid self' = false
    ∧ to_formula self' = Some mk_false.
Proof.
  intros Hes Hg HM Het Hbv Hd. pose proof (dualizeI_failure_dst _ _ Hd) as ->.
  unfold mk_union. rewrite Hes, Hg. cbn [mbind option_bind]. rewrite Het.
  unfold get_basis at 1. unfold init_basis. rewrite Hbv, Hd. cbn [mbind option_bind].
  cbn [m_basis with_empty with_basis]. rewrite HM, of_rows_size.
  change matrix.empty with (matrix.of_rows []). rewrite of_rows_size.
  rewrite union_loop_into_empty by (simpl; lia). cbn [mbind option_bind app drop].
  rewrite of_rows_size. cbn [length].
  eexists. split.
  - f_equal. f_equal.
    destruct rowsM as [|row rowsM]; cbn [length].
    + rewrite !decide_False by (intros Hn; by apply Hn). done.
    + rewrite !decide_True by done. done.
  - cbn. rewrite Hbv. done.
Qed.

Lemma mk_union_into_infeasible_target_witness :
  let hb := constant_hb (Some l_false) [] in
  let self := mk_karr_relation [int_sort] None false
                (matrix.of_rows [([1], -1, true); ([1], 0, true)]) true matrix.empty false in
  let src := mk_karr_relation [int_sort] None false
               matrix.empty false (matrix.of_rows [([2], 1, true)]) true in
  ∃ self',
    @mk_union hb self src None = Some (self', src, None)
    ∧ empty self' = true
    ∧ @to_formula hb self' = Some mk_false.
Proof.
  intros hb self src.
  destruct (@mk_union_into_infeasible_target hb self src src None matrix.empty
              [([2], 1, true)])
    as (self' & Hu & He & _ & _ & _ & Hf); try reflexivity.
  exists self'. split; [| by split]. rewrite Hu. by rewrite decide_True.
Defined.

(** ** mk_rename: undoing a cycle *)

Lemma cycled_reverse cols row row' row'' :
  NoDup cols → cols ≠ [] →
  cycled cols row row' → cycled (reverse cols) row' row'' → row'' = row.
Proof.
  intros Hnd Hne (Hlen1 & Hcyc1 & Hrest1) (Hlen2 & Hcyc2 & Hrest2).
  assert (0 < length cols)%nat as Hpos by (destruct cols; [done | simpl; lia]).
  apply list_eq. intros c.
  destruct (decide (c ∈ cols)) as [Hin | Hnotin].
  - apply list_elem_of_lookup_1 in Hin as [k Hk].
    assert (k < length cols)%nat as Hklt by by apply lookup_lt_Some in Hk.
    (* the position of [c] in the reversed cycle *)
    assert (reverse cols !! (length cols - S k)%nat = Some c) as Hrk.
    { rewrite reverse_lookup by lia.
      replace (length cols - S (length cols - S k))%nat with k by lia. done. }
    (* the column the reversed cycle reads for [c] *)
    set (k' := if decide (k = 0)%nat then (length cols - 1)%nat else (k - 1)%nat).
    assert (k' < length cols)%nat as Hk'lt by (unfold k'; case_decide; lia).
    destruct (lookup_lt_is_Some_2 cols k' Hk'lt) as [c' Hc'].
    assert (cycle_source (reverse cols) (length cols - S k)%nat = Some c') as Hsrc2.
    { unfold cycle_source. rewrite length_reverse.
      unfold k' in Hc'. case_decide as Hk0.
      - subst k. replace (length cols - 1 + 1)%nat with (length cols) by lia.
        rewrite Nat.Div0.mod_same.
        by rewrite reverse_lookup by lia.
      - rewrite Nat.mod_small by lia. rewrite reverse_lookup by lia.
        replace (length cols - S (length cols - S k + 1))%nat with (k - 1)%nat by lia. done. }
    assert (cycle_source cols k' = Some c) as Hsrc1.
    { unfold cycle_source. unfold k'. case_decide as Hk0.
      - subst k. replace (length cols - 1 + 1)%nat with (length cols) by lia.
        by rewrite Nat.Div0.mod_same.
      - replace (k - 1 + 1)%nat with k by lia. by rewrite Nat.mod_small by lia. }
    rewrite (Hcyc2 _ _ _ Hrk Hsrc2). by rewrite (Hcyc1 _ _ _ Hc' Hsrc1).
  - rewrite Hrest2 by (by rewrite elem_of_reverse). by apply Hrest1.
Qed.

(** X16.  Renaming by the reversed cycle undoes a renaming.  For a cycle
    of distinct columns within the width of the rows, [mk_rename] on a
    matrix returns, and running it on the result with the cycle reversed
    returns the matrix one started from. *)
Theorem mk_rename_matrix_round_trip (n : nat) (cols : list nat) (M : matrix.t) :
  NoDup cols → cols ≠ [] → Forall (λ c, c < n)%nat cols → matrix.width n M →
  ∃ M', mk_rename_matrix M cols = Some M'
        ∧ mk_rename_matrix M' (reverse cols) = Some M.
Proof.
  intros Hnd Hne Hrange Hw.
  assert (Happ : ∀ N, matrix.append matrix.empty N = N) by by intros [].
  destruct (mk_rename_matrix_spec n cols M Hnd Hne Hrange Hw) as (M' & HM' & HA & Hb & He).
  rewrite Happ in HM'. exists M'. split; [done |].
  assert (matrix.width n M') as Hw'.
  { unfold matrix.width in *. apply Forall_lookup. intros i row' Hi.
    destruct (Forall2_lookup_r _ _ _ _ _ HA Hi) as (row & Hrow & Hlen & _).
    rewrite Hlen. by apply (proj1 (Forall_lookup _ _) Hw i row). }
  destruct (mk_rename_matrix_spec n (reverse cols) M') as (M'' & HM'' & HA' & Hb' & He').
  { by rewrite reverse_Permutation. }
  { intros Hr. apply Hne. by rewrite <- (reverse_involutive cols), Hr. }
  { by rewrite reverse_Permutation. }
  { done. }
  rewrite Happ in HM''. rewrite HM''. f_equal.
  destruct M as [A b e], M'' as [A'' b'' e'']. simpl in *. f_equal; [| congruence | congruence].
  apply list_eq. intros i.
  destruct (A !! i) as [row|] eqn:Hi.
  - destruct (Forall2_lookup_l _ _ _ _ _ HA Hi) as (row' & Hi' & Hc1).
    destruct (Forall2_lookup_l _ _ _ _ _ HA' Hi') as (row'' & Hi'' & Hc2).
    rewrite Hi''. f_equal. by apply (cycled_reverse cols row row' row'').
  - apply lookup_ge_None. apply lookup_ge_None in Hi.
    rewrite <- (Forall2_length _ _ _ HA'), <- (Forall2_length _ _ _ HA). done.
Qed.

Lemma mk_rename_matrix_round_trip_witness :
  ∃ M', mk_rename_matrix (matrix.of_rows [([1; 2; 0; -1], 1, false)]) [0; 3; 1]%nat = Some M'
        ∧ mk_rename_matrix M' (reverse [0; 3; 1]%nat)
          = Some (matrix.of_rows [([1; 2; 0; -1], 1, false)]).
Proof.
  apply (mk_rename_matrix_round_trip 4).
  - apply NoDup_ListNoDup. repeat constructor; simpl; intuition lia.
  - discriminate.
  - repeat constructor.
  - repeat constructor.
Defined.

(** ** ModelConverter *)

Lemma strengthened_by_refl mc p f : strengthened_by mc [] p f f.
Proof.
  split; [done |]. destruct (get_else f) as [els|]; [| done].
  exists els. split; [done |]. intros x. split; [| tauto].
  intros Hx. split; [done |]. intros i inv Hi. by apply not_elem_of_nil in Hi.
Qed.

Lemma strengthened_by_skip mc i ixs p f f' :
  add_invariant_model_converter.m_funcs mc !! i ≠ Some p →
  strengthened_by mc ixs p f f' → strengthened_by mc (i :: ixs) p f f'.
Proof.
  intros Hne [Har Hel]. split; [done |].
  destruct (get_else f) as [els|]; [| done].
  destruct Hel as (e' & He' & Hsem). exists e'. split; [done |].
  intros x. rewrite Hsem. split; intros [Hels Hall]; (split; [done |]); intros j inv Hj Hf Hi.
  - apply elem_of_cons in Hj as [-> | Hj]; [done | by apply (Hall j)].
  - apply (Hall j); [by right | done | done].
Qed.

Lemma operator_loop_strengthens mc ixs :
  length (add_invariant_model_converter.m_funcs mc)
  = length (add_invariant_model_converter.m_invs mc) →
  Forall (λ i, i < length (add_invariant_model_converter.m_funcs mc))%nat ixs →
  ∀ mr, ∃ mr',
    add_invariant_model_converter.operator_loop mc mr ixs = Some mr'
    ∧ ∀ p,
        match mr !! p with
        | Some f => ∃ f', mr' !! p = Some f' ∧ strengthened_by mc ixs p f f'
        | None =>
            ((∀ i, i ∈ ixs → add_invariant_model_converter.m_funcs mc !! i ≠ Some p) →
             mr' !! p = None)
            ∧ ((∃ i, i ∈ ixs ∧ add_invariant_model_converter.m_funcs mc !! i = Some p) →
               ∃ f', mr' !! p = Some f' ∧ pruned p f')
        end.
Proof.
  intros Hlen. induction ixs as [|i ixs IH]; intros Hix mr.
  - exists mr. split; [done |]. intros p. destruct (mr !! p) as [f|] eqn:Hp.
    + exists f. split; [done |]. apply strengthened_by_refl.
    + split; [done |]. intros (i & Hi & _). by apply not_elem_of_nil in Hi.
  - apply Forall_cons in Hix as [Hi Hix]. specialize (IH Hix).
    destruct (lookup_lt_is_Some_2 (add_invariant_model_converter.m_funcs mc) i Hi)
      as [pi Hpi].
    destruct (lookup_lt_is_Some_2 (add_invariant_model_converter.m_invs mc) i)
      as [invi Hinvi]; [lia |].
    cbn [add_invariant_model_converter.operator_loop].
    unfold add_invariant_model_converter.operator_step, get. rewrite Hpi.
    cbn [mbind option_bind].
    destruct (mr !! pi) as [fi|] eqn:Hmr; [destruct (get_else fi) as [els|] eqn:Hels |].
    + (* interpreted, total *)
      rewrite Hinvi. cbn [mbind option_bind].
      set (f1 := mk_func_interp (fi_arity fi) (Some (bool_rewriter_mk_and [els; invi]))).
      destruct (IH (<[pi := f1]> mr)) as (mr' & Hloop & Hall).
      exists mr'. split; [exact Hloop |]. intros p. specialize (Hall p).
      destruct (decide (p = pi)) as [-> | Hne].
      * rewrite lookup_insert_eq in Hall. rewrite Hmr.
        destruct Hall as (f' & Hf' & Har & e' & He' & Hsem).
        exists f'. split; [done |]. split; [done |]. rewrite Hels.
        exists e'. split; [done |]. intros x. rewrite Hsem. cbn [get_else f1].
        rewrite holds_bool_rewriter_mk_and, Forall_cons, Forall_singleton.
        split.
        -- intros [[Hx1 Hx2] Hrest]. split; [done |]. intros j inv Hj Hfj Hij.
           apply elem_of_cons in Hj as [-> | Hj]; [| by apply (Hrest j)].
           rewrite Hinvi in Hij. by injection Hij as <-.
        -- intros [Hx1 Hrest]. split; [split; [done |] |].
           ++ apply (Hrest i); [by left | done | done].
           ++ intros j inv Hj. apply Hrest. by right.
      * rewrite lookup_insert_ne in Hall by done.
        destruct (mr !! p) as [f|].
        -- destruct Hall as (f' & Hf' & Hs). exists f'. split; [done |].
           apply strengthened_by_skip; [| done]. rewrite Hpi. congruence.
        -- destruct Hall as [Hnone Hsome]. split.
           ++ intros Hno. apply Hnone. intros j Hj. apply Hno. by right.
           ++ intros (j & Hj & Hfj). apply Hsome.
              apply elem_of_cons in Hj as [-> | Hj]; [congruence | eauto].
    + (* interpreted, partial *)
      set (f1 := mk_func_interp (fi_arity fi) None).
      destruct (IH (<[pi := f1]> mr)) as (mr' & Hloop & Hall).
      exists mr'. split; [exact Hloop |]. intros p. specialize (Hall p).
      destruct (decide (p = pi)) as [-> | Hne].
      * rewrite lookup_insert_eq in Hall. rewrite Hmr.
        destruct Hall as (f' & Hf' & Har & Hel). cbn in Hel.
        exists f'. split; [done |]. split; [done |]. by rewrite Hels.
      * rewrite lookup_insert_ne in Hall by done.
        destruct (mr !! p) as [f|].
        -- destruct Hall as (f' & Hf' & Hs). exists f'. split; [done |].
           apply strengthened_by_skip; [| done]. rewrite Hpi. congruence.
        -- destruct Hall as [Hnone Hsome]. split.
           ++ intros Hno. apply Hnone. intros j Hj. apply Hno. by right.
           ++ intros (j & Hj & Hfj). apply Hsome.
              apply elem_of_cons in Hj as [-> | Hj]; [congruence | eauto].
    + (* not interpreted *)
      set (f1 := mk_func_interp (get_arity pi) (Some mk_false)).
      destruct (IH (<[pi := f1]> mr)) as (mr' & Hloop & Hall).
      exists mr'. split; [exact Hloop |]. intros p. specialize (Hall p).
      destruct (decide (p = pi)) as [-> | Hne].
      * rewrite lookup_insert_eq in Hall. rewrite Hmr.
        destruct Hall as (f' & Hf' & Har & e' & He' & Hsem).
        split.
        -- intros Hno. exfalso. apply (Hno i); [by left | done].
        -- intros _. exists f'. split; [done |]. split; [done |].
           exists e'. split; [done |]. intros x Hx. apply Hsem in Hx as [Hx _]. done.
      * rewrite lookup_insert_ne in Hall by done.
        destruct (mr !! p) as [f|].
        -- destruct Hall as (f' & Hf' & Hs). exists f'. split; [done |].
           apply strengthened_by_skip; [| done]. rewrite Hpi. congruence.
        -- destruct Hall as [Hnone Hsome]. split.
           ++ intros Hno. apply Hnone. intros j Hj. apply Hno. by right.
           ++ intros (j & Hj & Hfj). apply Hsome.
              apply elem_of_cons in Hj as [-> | Hj]; [congruence | eauto].
Qed.

(** X17.  What the model converter does to a model.  With its two vectors
    of one length, [operator()] returns — no invariant is read out of
    range — and for every predicate: an interpretation that was there
    keeps its arity, stays partial if it was partial, and otherwise gets
    an [else] branch that means the old branch together with every
    invariant recorded for the predicate; a predicate without
    interpretation gets none if it is not recorded, and otherwise one of
    its own arity whose [else] branch never holds. *)
Theorem operator_call_strengthens (mc : add_invariant_model_converter.t)
    (mr : gmap func_decl func_interp) :
  length (add_invariant_model_converter.m_funcs mc)
  = length (add_invariant_model_converter.m_invs mc) →
  ∃ mr',
    add_invariant_model_converter.operator_call mc mr = Some mr'
    ∧ ∀ p,
        match mr !! p with
        | Some f =>
            ∃ f', mr' !! p = Some f' ∧ fi_arity f' = fi_arity f
              ∧ match get_else f with
                | Some els =>
                    ∃ e', get_else f' = Some e'
                      ∧ ∀ x, holds x e'
                             ↔ holds x els
                               ∧ ∀ i inv,
                                   add_invariant_model_converter.m_funcs mc !! i = Some p →
                                   add_invariant_model_converter.m_invs mc !! i = Some inv →
                                   holds x inv
                | None => get_else f' = None
                end
        | None =>
            (p ∉ add_invariant_model_converter.m_funcs mc → mr' !! p = None)
            ∧ (p ∈ add_invariant_model_converter.m_funcs mc →
               ∃ f', mr' !! p = Some f' ∧ pruned p f')
        end.
Proof.
  intros Hlen. unfold add_invariant_model_converter.operator_call.
  destruct (operator_loop_strengthens mc
              (seq 0 (length (add_invariant_model_converter.m_funcs mc))) Hlen) with (mr := mr)
    as (mr' & Hloop & Hall).
  { apply Forall_forall. intros i Hi%elem_of_seq. lia. }
  exists mr'. split; [done |]. intros p. specialize (Hall p).
  destruct (mr !! p) as [f|].
  - destruct Hall as (f' & Hf' & Har & Hel). exists f'. split; [done |]. split; [done |].
    destruct (get_else f) as [els|]; [| done].
    destruct Hel as (e' & He' & Hsem). exists e'. split; [done |].
    intros x. rewrite Hsem. split; intros [Hx Hrest]; (split; [done |]).
    + intros i inv Hf Hi. apply (Hrest i); [| done | done].
      apply elem_of_seq. apply lookup_lt_Some in Hf. lia.
    + intros i inv _. apply Hrest.
  - destruct Hall as [Hnone Hsome]. split.
    + intros Hnotin. apply Hnone. intros i _ Hf. apply Hnotin.
      by eapply list_elem_of_lookup_2.
    + intros (i & Hi)%list_elem_of_lookup_1. apply Hsome. exists i. split; [| done].
      apply elem_of_seq. apply lookup_lt_Some in Hi. lia.
Qed.

Lemma operator_call_strengthens_witness :
  let p := pred 0 1 in
  let mc := add_invariant_model_converter.add p (mk_ge (x_ 0) (int_numeral 0))
              add_invariant_model_converter.new in
  let mr : gmap func_decl func_interp :=
    {[ p := mk_func_interp 1 (Some (mk_le (x_ 0) (int_numeral 5))) ]} in
  ∃ mr' f' e',
    add_invariant_model_converter.operator_call mc mr = Some mr'
    ∧ mr' !! p = Some f' ∧ get_else f' = Some e'
    ∧ ∀ x, holds x e' ↔ x 0%nat <= rational_of_Z 5 ∧ rational_of_Z 0 <= x 0%nat.
Proof.
  intros p mc mr.
  destruct (operator_call_strengthens mc mr eq_refl) as (mr' & Hcall & Hall).
  specialize (Hall p). unfold mr in Hall. rewrite lookup_singleton_eq in Hall.
  destruct Hall as (f' & Hf' & _ & e' & He' & Hsem).
  exists mr', f', e'. split; [done |]. split; [done |]. split; [done |].
  intros x. rewrite Hsem. cbn [get_else holds eval x_ int_numeral mk_le].
  split.
  - intros [Hle Hinv]. split; [done |]. by apply (Hinv 0%nat (mk_ge (x_ 0) (int_numeral 0))).
  - intros [Hle Hge]. split; [done |]. intros [|i] inv; [| done].
    intros _ [= <-]. done.
Defined.

(** ** The converter's invariant, and translate *)

Lemma add_wf p inv mc :
  converter_wf mc → converter_wf (add_invariant_model_converter.add p inv mc).
Proof.
  intros [Hlen Hall]. unfold add_invariant_model_converter.add.
  destruct (m_is_true inv) eqn:Ht; [done |].
  split; cbn [add_invariant_model_converter.m_funcs add_invariant_model_converter.m_invs negb].
  - rewrite !length_app. simpl. lia.
  - apply Forall_app. split; [done |]. by constructor.
Qed.

Lemma update_rules_converter_wf fun2inv ps : ∀ kmc,
  converter_wf kmc →
  converter_wf (mk_karr_invariants.update_rules_converter fun2inv ps kmc).
Proof.
  induction ps as [|p ps IH]; intros kmc Hwf; simpl; [done |].
  destruct (fun2inv !! p); apply IH; [by apply add_wf | done].
Qed.

Lemma translate_loop_spec translator mc k : ∀ i dst,
  converter_wf mc →
  (i + k = length (add_invariant_model_converter.m_funcs mc))%nat →
  translate_loop translator mc (seq i k) dst
  = Some (add_invariant_model_converter.mk
            (add_invariant_model_converter.m_funcs dst
               ++ (translator <$> drop i (add_invariant_model_converter.m_funcs mc)))
            (add_invariant_model_converter.m_invs dst
               ++ drop i (add_invariant_model_converter.m_invs mc))).
Proof.
  induction k as [|k IH]; intros i dst Hwf Hik; simpl.
  - destruct Hwf as [Hlen _]. rewrite !drop_ge by lia. simpl. rewrite !app_nil_r.
    by destruct dst.
  - pose proof Hwf as [Hlen Hall].
    destruct (lookup_lt_is_Some_2 (add_invariant_model_converter.m_funcs mc) i) as [f Hf];
      [lia |].
    destruct (lookup_lt_is_Some_2 (add_invariant_model_converter.m_invs mc) i) as [inv Hinv];
      [lia |].
    unfold get. rewrite Hf, Hinv. cbn [mbind option_bind].
    rewrite IH by (done || lia).
    unfold add_invariant_model_converter.add.
    rewrite (proj1 (Forall_lookup _ _) Hall i inv Hinv). cbn.
    rewrite (drop_S _ _ _ Hf), (drop_S _ _ _ Hinv). cbn.
    by rewrite <- !app_assoc.
Qed.

(** X18.  The converter's vectors stay parallel, and [translate] keeps
    the invariants.  The converter that [update_rules] builds has its two
    vectors of one length and records no literal [true]; and the
    translation of such a converter returns, with every recorded
    predicate translated, in order, and every invariant carried over as
    it is — the invariants themselves are not translated. *)
Theorem translate_keeps_invariants (translator : func_decl → func_decl)
    (fun2inv : gmap func_decl expr) (ps : list func_decl)
    (mc : add_invariant_model_converter.t) :
  converter_wf (mk_karr_invariants.update_rules_converter fun2inv ps
                  add_invariant_model_converter.new)
  ∧ (converter_wf mc →
     translate translator mc
     = Some (add_invariant_model_converter.mk
               (translator <$> add_invariant_model_converter.m_funcs mc)
               (add_invariant_model_converter.m_invs mc))).
Proof.
  split.
  - apply update_rules_converter_wf. split; [done | constructor].
  - intros Hwf. unfold translate. by rewrite translate_loop_spec.
Qed.

Lemma translate_keeps_invariants_witness :
  let mc := add_invariant_model_converter.mk [pred 0 1; pred 1 2]
              [mk_ge (x_ 0) (int_numeral 0); mk_eq (x_ 0) (x_ 1)] in
  translate (λ f, mk_func_decl (decl_id f + 10) (get_domain f)) mc
  = Some (add_invariant_model_converter.mk
            [mk_func_decl 10 [int_sort]; mk_func_decl 11 [int_sort; int_sort]]
            [mk_ge (x_ 0) (int_numeral 0); mk_eq (x_ 0) (x_ 1)]).
Proof.
  intros mc.
  apply (proj2 (translate_keeps_invariants (λ f, mk_func_decl (decl_id f + 10) (get_domain f))
                  ∅ [] mc)).
  split; [reflexivity | repeat constructor].
Defined.

(** ** InvariantDriver: update_body *)

Lemma update_body_loop_appends `{driver_context} fun2inv r ixs : ∀ tail,
  Forall (λ i, i < length (get_tail r))%nat ixs →
  (∀ i atom q, i ∈ ixs → get_tail r !! i = Some atom → get_decl atom = Some q →
               (get_arity q ≤ length (get_args atom))%nat) →
  ∃ extra,
    mk_karr_invariants.update_body_loop fun2inv r ixs tail = Some (tail ++ extra)
    ∧ (length extra ≤ length ixs)%nat
    ∧ (extra = [] ↔ ∀ i atom q, i ∈ ixs → get_tail r !! i = Some atom →
                                get_decl atom = Some q → fun2inv !! q = None).
Proof.
  induction ixs as [|i ixs IH]; intros tail Hix Hargs.
  - exists []. simpl. rewrite app_nil_r. split; [done |]. split; [done |].
    split; [| done]. intros _ i atom q Hi. by apply not_elem_of_nil in Hi.
  - apply Forall_cons in Hix as [Hi Hix].
    destruct (lookup_lt_is_Some_2 (get_tail r) i Hi) as [atom Hatom].
    cbn [mk_karr_invariants.update_body_loop]. unfold get. rewrite Hatom.
    cbn [mbind option_bind].
    assert (∀ tail', ∃ extra,
              mk_karr_invariants.update_body_loop fun2inv r ixs tail' = Some (tail' ++ extra)
              ∧ (length extra ≤ length ixs)%nat
              ∧ (extra = [] ↔ ∀ j a q, j ∈ ixs → get_tail r !! j = Some a →
                                       get_decl a = Some q → fun2inv !! q = None)) as IH'.
    { intros tail'. apply IH; [done |]. intros j a q Hj. apply Hargs. by right. }
    destruct (get_decl atom) as [q|] eqn:Hq; [destruct (fun2inv !! q) as [fml|] eqn:Hfml |].
    + destruct (mapM _ (seq 0 (get_arity q))) as [rep|] eqn:Hrep.
      * cbn [mbind option_bind].
        destruct (IH' (tail ++ [safe_replace rep fml])) as (extra & Hloop & Hlen & _).
        unfold get in Hloop. rewrite Hloop.
        exists (safe_replace rep fml :: extra). rewrite <- app_assoc.
        split; [done |]. split; [simpl; lia |]. split; [done |].
        intros Hnone. specialize (Hnone i atom q ltac:(by left) Hatom Hq). congruence.
      * exfalso. apply eq_None_not_Some in Hrep. apply Hrep.
        apply mapM_is_Some. apply Forall_forall. intros j Hj%elem_of_seq. unfold compose.
        specialize (Hargs i atom q ltac:(by left) Hatom Hq).
        destruct (lookup_lt_is_Some_2 (get_args atom) j) as [arg ->]; [lia |].
        destruct (lookup_lt_is_Some_2 (get_domain q) j) as [s ->];
          [unfold get_arity in Hj; lia |].
        done.
    + destruct (IH' tail) as (extra & Hloop & Hlen & Hiff).
      unfold get in Hloop. rewrite Hloop.
      exists extra. split; [done |]. split; [simpl; lia |]. rewrite Hiff. split.
      * intros Hall j a q' Hj Ha Hq'.
        apply elem_of_cons in Hj as [-> | Hj]; [| by apply (Hall j a)].
        rewrite Hatom in Ha. injection Ha as <-. rewrite Hq in Hq'. by injection Hq' as <-.
      * intros Hall j a q' Hj. apply Hall. by right.
    + destruct (IH' tail) as (extra & Hloop & Hlen & Hiff).
      unfold get in Hloop. rewrite Hloop.
      exists extra. split; [done |]. split; [simpl; lia |]. rewrite Hiff. split.
      * intros Hall j a q' Hj Ha Hq'.
        apply elem_of_cons in Hj as [-> | Hj]; [| by apply (Hall j a)].
        rewrite Hatom in Ha. injection Ha as <-. congruence.
      * intros Hall j a q' Hj. apply Hall. by right.
Qed.

(** X19.  [update_body] only strengthens a rule.  For a rule whose
    uninterpreted tail is within its tail and whose tail atoms have the
    arguments of their predicates, the call returns: the rule itself when
    no predicate of the uninterpreted tail has an invariant, and otherwise
    a rule with the same head and name whose tail is the old tail, in
    order, followed by at most one new conjunct for each uninterpreted
    tail atom. *)
Theorem update_body_only_appends `{driver_context} (fun2inv : gmap func_decl expr) (r : rule) :
  (get_uninterpreted_tail_size r ≤ get_tail_size r)%nat →
  (∀ i atom q, (i < get_uninterpreted_tail_size r)%nat → get_tail r !! i = Some atom →
               get_decl atom = Some q → (get_arity q ≤ length (get_args atom))%nat) →
  ∃ extra,
    mk_karr_invariants.update_body fun2inv r
    = Some (if decide (extra = []) then r
            else rm_mk (get_head r) (get_tail r ++ extra) (name r))
    ∧ (length extra ≤ get_uninterpreted_tail_size r)%nat
    ∧ (extra = [] ↔ ∀ i atom q, (i < get_uninterpreted_tail_size r)%nat →
                                get_tail r !! i = Some atom → get_decl atom = Some q →
                                fun2inv !! q = None).
Proof.
  intros Hsz Hargs. unfold mk_karr_invariants.update_body.
  destruct (update_body_loop_appends fun2inv r (seq 0 (get_uninterpreted_tail_size r))
              (get_tail r)) as (extra & -> & Hlen & Hiff).
  { apply Forall_forall. intros i Hi%elem_of_seq. unfold get_tail_size in Hsz. lia. }
  { intros i atom q Hi%elem_of_seq. apply Hargs. lia. }
  exists extra. cbn [mbind option_bind]. rewrite length_seq in Hlen.
  split; [| split; [done |]].
  - unfold get_tail_size. rewrite length_app.
    destruct extra as [|e extra].
    + rewrite decide_False by (simpl; lia). by rewrite decide_True.
    + rewrite decide_True by (simpl; lia). by rewrite decide_False.
  - rewrite Hiff. split; intros Hall i atom q Hi; apply Hall.
    + apply elem_of_seq. lia.
    + apply elem_of_seq in Hi. lia.
Qed.

Lemma update_body_only_appends_witness :
  let p := pred 0 1 in
  let ctx := simple_context true (λ _, None) in
  let atom := mk_app (OP_UNINTERPRETED p) bool_sort [x_ 0] in
  let r := simple_rule p [atom; mk_le (x_ 0) (int_numeral 3)] 1 in
  let inv := mk_ge (x_ 0) (int_numeral 0) in
  ∃ extra,
    @mk_karr_invariants.update_body ctx {[ p := inv ]} r
    = Some (if decide (extra = []) then r
            else @rm_mk ctx (get_head r) (get_tail r ++ extra) (name r))
    ∧ (length extra ≤ 1)%nat.
Proof.
  intros p ctx atom r inv.
  destruct (@update_body_only_appends ctx {[ p := inv ]} r) as (extra & Hu & Hlen & _).
  - unfold r, get_tail_size, simple_rule. cbn. lia.
  - intros i a q Hi Ha Hq. unfold r, simple_rule in Hi, Ha. cbn in Hi.
    destruct i as [|i]; [| lia]. simpl in Ha. injection Ha as <-.
    simpl in Hq. injection Hq as <-. unfold p. cbn. lia.
  - exists extra. by split.
Defined.

(** ** The representation invariant *)

Lemma get_ineqs_flag `{hilbert_basis} r r' : get_ineqs r = Some r' → m_ineqs_valid r' = true.
Proof.
  unfold get_ineqs, init_ineqs. destruct (m_ineqs_valid r) eqn:Hv; [by intros [= <-] |].
  destruct (dualizeH (m_basis r)); [| done]. by intros [= <-].
Qed.

Lemma get_basis_flag `{hilbert_basis} r r' :
  get_basis r = Some r' → m_empty r' = false → m_basis_valid r' = true.
Proof.
  unfold get_basis, init_basis. destruct (m_basis_valid r) eqn:Hv; [by intros [= <-] |].
  destruct (dualizeI (m_ineqs r)) as [[[] dst]|]; [| | done]; by intros [= <-].
Qed.

Lemma filter_identical_loop_flags cols ixs : ∀ r r',
  filter_identical_loop cols ixs r = Some r' →
  m_ineqs_valid r' = m_ineqs_valid r ∧ m_empty r' = m_empty r.
Proof.
  induction ixs as [|i ixs IH]; intros r r' Hl; simpl in Hl; [by injection Hl as <- |].
  destruct (get cols 0) as [c1|]; [| done]. cbn [mbind option_bind] in Hl.
  destruct (get cols i) as [c2|]; [| done]. cbn [mbind option_bind] in Hl.
  destruct (set _ c1 1) as [row|]; [| done]. cbn [mbind option_bind] in Hl.
  destruct (set row c2 (-1)) as [row'|]; [| done]. cbn [mbind option_bind] in Hl.
  apply IH in Hl as [-> ->]. done.
Qed.

(** X20.  A non-empty relation always has a valid form.  The relations
    made by the plugin have the property, and every operator of the
    relation hands it on: whatever an operator returns — the result, and
    the operands whose cached forms it materialised on the way — is
    empty, or has valid constraints, or has a valid basis, provided the
    relations it leaves untouched had the property. *)
Theorem valid_form_is_invariant `{hilbert_basis, dl_util} :
  (∀ p s, has_valid_form (mk_full p s))
  ∧ (∀ s, has_valid_form (mk_empty s))
  ∧ (∀ f r, has_valid_form (add_fact f r))
  ∧ (∀ r r', get_ineqs r = Some r' → has_valid_form r')
  ∧ (∀ r r', get_basis r = Some r' → has_valid_form r')
  ∧ (∀ f r r', has_valid_form r → filter_equal_call f r = Some r' → has_valid_form r')
  ∧ (∀ cols r r', filter_identical_call cols r = Some r' → has_valid_form r')
  ∧ (∀ cond r r', filter_interpreted cond r = Some r' → has_valid_form r')
  ∧ (∀ self r1 r2 cols1 cols2 self' r1' r2',
       has_valid_form r1 → has_valid_form r2 →
       mk_join self r1 r2 cols1 cols2 = Some (self', r1', r2') →
       has_valid_form self' ∧ has_valid_form r1' ∧ has_valid_form r2')
  ∧ (∀ self r cols self' r',
       has_valid_form r →
       mk_project self r cols = Some (self', r') → has_valid_form self' ∧ has_valid_form r')
  ∧ (∀ self r cols r',
       has_valid_form r → mk_rename self r cols = Some r' → has_valid_form r')
  ∧ (∀ self src delta self' src' delta',
       has_valid_form self → has_valid_form src →
       (∀ d, delta = Some d → has_valid_form d) →
       mk_union self src delta = Some (self', src', delta') →
       has_valid_form self' ∧ has_valid_form src'
       ∧ ∀ d', delta' = Some d' → has_valid_form d').
Proof.
  unfold has_valid_form.
  split; [by left |]. split; [done |]. split; [by left |].
  split; [intros r r' Hg _; left; by apply get_ineqs_flag in Hg |].
  split; [intros r r' Hg He; right; by apply (get_basis_flag r) |].
  split.
  { intros f r r' Hr. unfold filter_equal_call. destruct (m_valid f); [| by intros [= <-]].
    destruct (get_ineqs r) as [r1|] eqn:Hg; [| done]. cbn [mbind option_bind].
    destruct (set _ _ _) as [row|]; [| done]. cbn [mbind option_bind].
    intros [= <-] _. left. cbn. by apply get_ineqs_flag in Hg. }
  split.
  { intros cols r r'. unfold filter_identical_call.
    destruct (get_ineqs r) as [r1|] eqn:Hg; [| done]. cbn [mbind option_bind].
    intros [Hv _]%filter_identical_loop_flags _. left. rewrite Hv.
    by apply get_ineqs_flag in Hg. }
  split.
  { intros cond r r'. unfold filter_interpreted.
    destruct (get_ineqs r) as [r1|] eqn:Hg; [| done]. cbn [mbind option_bind].
    destruct (filter_interpreted_loop _ _ _) as [M|]; [| done]. cbn [mbind option_bind].
    intros [= <-] _. left. cbn. by apply get_ineqs_flag in Hg. }
  split.
  { intros self r1 r2 cols1 cols2 self' r1' r2' Hr1 Hr2. unfold mk_join.
    destruct (empty r1 || empty r2).
    { intros [= <- <- <-]. done. }
    destruct (get_ineqs r1) as [q1|] eqn:Hg1; [| done]. cbn [mbind option_bind].
    destruct (get_ineqs r2) as [q2|] eqn:Hg2; [| done]. cbn [mbind option_bind].
    destruct (matrix.rows (m_ineqs q1)) as [rows1|]; [| done]. cbn [mbind option_bind].
    destruct (matrix.rows (m_ineqs q2)) as [rows2|]; [| done]. cbn [mbind option_bind].
    destruct (join_right _ _ _ _) as [M1|]; [| done]. cbn [mbind option_bind].
    destruct (join_pairs _ _ _ _ _ _) as [M2|]; [| done]. cbn [mbind option_bind].
    intros [= <- <- <-]. split; [by left |].
    split; intros _; left; by eapply get_ineqs_flag. }
  split.
  { intros self r cols self' r' Hr. unfold mk_project.
    destruct (m_empty r) eqn:He.
    { intros [= <- <-]. split; [done |]. by rewrite He. }
    destruct (get_basis r) as [q|] eqn:Hg; [| done]. cbn [mbind option_bind].
    destruct (project_rows _ _ _ _) as [basis|]; [| done]. cbn [mbind option_bind].
    intros [= <- <-]. split; [by right |]. intros Hq. right. by apply (get_basis_flag r). }
  split.
  { intros self r cols r' Hr. unfold mk_rename, empty.
    destruct (m_empty r) eqn:He; [by intros [= <-] |].
    destruct (if m_ineqs_valid r then _ else _) as [ineqs|]; [| done].
    cbn [mbind option_bind].
    destruct (if m_basis_valid r then _ else _) as [basis|]; [| done].
    cbn [mbind option_bind].
    intros [= <-] _. cbn. by apply Hr. }
  intros self src delta self' src' delta' Hself Hsrc Hdelta. unfold mk_union, empty.
  destruct (m_empty src) eqn:Hes.
  { intros [= <- <- <-]. split; [done |]. split; [intros ?; congruence |].
    intros d'. destruct delta as [d|]; [| done]. by intros [= <-]. }
  destruct (get_basis src) as [q|] eqn:Hgs; [| done]. cbn [mbind option_bind].
  assert (m_empty q = false → m_ineqs_valid q = true ∨ m_basis_valid q = true) as Hq.
  { intros Hq. right. by apply (get_basis_flag src). }
  destruct (m_empty self) eqn:Het.
  { intros [= <- <- <-]. split; [by right |]. split; [done |].
    intros d'. destruct delta as [d|]; [| done]. intros [= <-] _. by right. }
  destruct (get_basis self) as [self1|] eqn:Hgt; [| done]. cbn [mbind option_bind].
  destruct (union_loop _ _ _ _) as [N'|]; [| done]. cbn [mbind option_bind].
  intros [= <- <- <-].
  assert (m_empty self1 = false → m_basis_valid self1 = true) as Hs1
    by by apply (get_basis_flag self).
  split; [intros He; right; by apply Hs1 |]. split; [done |].
  intros d'. case_decide.
  - destruct delta as [d|]; [| done]. intros [= <-] He. right. by apply Hs1.
  - apply Hdelta.
Qed.

Lemma valid_form_is_invariant_witness :
  let hb := constant_hb None [] in
  let r := mk_karr_relation [int_sort; int_sort] None false
             matrix.empty false (matrix.of_rows [([1; 0], 0, true)]) true in
  ∃ r', @filter_identical_call hb [0%nat; 1%nat] r = Some r' ∧ has_valid_form r'.
Proof.
  intros hb r.
  pose proof (@valid_form_is_invariant hb split_and) as (_ & _ & _ & _ & _ & _ & Hid & _).
  eexists. split; [vm_compute; reflexivity |].
  apply (Hid [0%nat; 1%nat] r). vm_compute. reflexivity.
Defined.

(** ** InvariantDriver: the invariant map *)

Lemma get_invariants_step_frame `{hilbert_basis} rctx st p st' :
  mk_karr_invariants.get_invariants_step rctx st p = Some st' →
  (entries_pinned st → entries_pinned st')
  ∧ mk_karr_invariants.m_pinned st `prefix_of` mk_karr_invariants.m_pinned st'
  ∧ mk_karr_invariants.m_cancel st' = mk_karr_invariants.m_cancel st
  ∧ mk_karr_invariants.model_converters st' = mk_karr_invariants.model_converters st.
Proof.
  unfold mk_karr_invariants.get_invariants_step.
  destruct (rctx p) as [rb|]; [| by intros [= <-]].
  destruct (to_formula rb) as [fml|]; [| done]. cbn [mbind option_bind].
  destruct (m_is_true fml) eqn:Ht; [by intros [= <-] |].
  intros [= <-]. cbn. split; [| split; [by apply prefix_app_r | done]].
  intros Hinv q e Hq.
  cbn [mk_karr_invariants.m_fun2inv mk_karr_invariants.m_pinned] in Hq |- *.
  destruct (decide (q = p)) as [-> | Hne].
  - rewrite lookup_insert_eq in Hq. injection Hq as <-. split.
    + apply elem_of_app. right. by left.
    + by destruct (mk_karr_invariants.m_fun2inv st !! p).
  - rewrite lookup_insert_ne in Hq by done. destruct (Hinv q e Hq) as [Hin Hnt].
    split; [| done]. apply elem_of_app. by left.
Qed.

Lemma get_invariants_loop_frame `{hilbert_basis} rctx ps : ∀ st st',
  mk_karr_invariants.get_invariants_loop rctx st ps = Some st' →
  (entries_pinned st → entries_pinned st')
  ∧ mk_karr_invariants.m_pinned st `prefix_of` mk_karr_invariants.m_pinned st'
  ∧ mk_karr_invariants.m_cancel st' = mk_karr_invariants.m_cancel st
  ∧ mk_karr_invariants.model_converters st' = mk_karr_invariants.model_converters st.
Proof.
  induction ps as [|p ps IH]; intros st st' Hl; simpl in Hl.
  - injection Hl as <-. done.
  - destruct (mk_karr_invariants.get_invariants_step rctx st p) as [st1|] eqn:Hs; [| done].
    cbn [mbind option_bind] in Hl.
    apply get_invariants_step_frame in Hs as (Hi1 & Hp1 & Hc1 & Hm1).
    apply IH in Hl as (Hi2 & Hp2 & Hc2 & Hm2).
    split; [tauto |]. split; [by etrans |]. split; congruence.
Qed.

(** X21.  [get_invariants] keeps the invariant map pinned.  If every
    formula of the map is in the pinned vector and none is the literal
    [true] before the call, the same holds after it; the pinned vector
    only grows at its end; the cancellation flag and the registered model
    converters are not touched. *)
Theorem get_invariants_keeps_pinned `{hilbert_basis, driver_context} (src : rule_set)
    (st st' : mk_karr_invariants.t) :
  mk_karr_invariants.get_invariants src st = Some st' →
  (entries_pinned st → entries_pinned st')
  ∧ mk_karr_invariants.m_pinned st `prefix_of` mk_karr_invariants.m_pinned st'
  ∧ mk_karr_invariants.m_cancel st' = mk_karr_invariants.m_cancel st
  ∧ mk_karr_invariants.model_converters st' = mk_karr_invariants.model_converters st.
Proof.
  unfold mk_karr_invariants.get_invariants. intros Hloop.
  exact (get_invariants_loop_frame _ _ _ _ Hloop).
Qed.

Lemma get_invariants_keeps_pinned_witness :
  let hb := constant_hb None [] in
  let p := pred 0 1 in
  let rb := add_fact [int_numeral 2] (mk_empty [int_sort]) in
  let ctx := simple_context true (λ q, if decide (q = p) then Some rb else None) in
  let st := mk_karr_invariants.mk ∅ [] false [] in
  let r := simple_rule p [] 0 in
  ∃ st', @mk_karr_invariants.get_invariants hb ctx [r] st = Some st'
         ∧ entries_pinned st'
         ∧ is_Some (mk_karr_invariants.m_fun2inv st' !! p).
Proof.
  intros hb p rb ctx st r.
  assert (∃ st', @mk_karr_invariants.get_invariants hb ctx [r] st = Some st'
                 ∧ is_Some (mk_karr_invariants.m_fun2inv st' !! p)) as (st' & Hg & Hp).
  { eexists. split; [vm_compute; reflexivity |]. vm_compute. eauto. }
  exists st'. split; [done |]. split; [| done].
  destruct (@get_invariants_keeps_pinned hb ctx [r] st st' Hg) as (Hinv & _).
  apply Hinv. intros q e Hq. unfold st in Hq. cbn in Hq. by rewrite lookup_empty in Hq.
Defined.

(** ** InvariantDriver: the converter that update_rules builds *)

Lemma update_rules_converter_spec fun2inv ps : ∀ kmc,
  (∀ p e, fun2inv !! p = Some e → m_is_true e = false) →
  mk_karr_invariants.update_rules_converter fun2inv ps kmc
  = add_invariant_model_converter.mk
      (add_invariant_model_converter.m_funcs kmc
         ++ filter (λ p, is_Some (fun2inv !! p)) ps)
      (add_invariant_model_converter.m_invs kmc ++ omap (λ p, fun2inv !! p) ps).
Proof.
  intros kmc Hnt. revert kmc. induction ps as [|p ps IH]; intros kmc; simpl.
  - rewrite !app_nil_r. by destruct kmc.
  - rewrite filter_cons. destruct (fun2inv !! p) as [e|] eqn:Hp.
    + rewrite decide_True by eauto. rewrite IH.
      unfold add_invariant_model_converter.add. rewrite (Hnt p e Hp). cbn.
      by rewrite <- !app_assoc.
    + rewrite decide_False by (by intros [? ?]). apply IH.
Qed.

(** X22.  The converter of [update_rules] records every invariant.  When
    no formula of the invariant map is the literal [true] — which
    [get_invariants] guarantees — the converter built for the heads [ps]
    records exactly the heads that have an entry, in order, each with its
    entry: these are the predicates whose interpretation the converter
    will strengthen. *)
Theorem update_rules_converter_records (fun2inv : gmap func_decl expr) (ps : list func_decl) :
  (∀ p e, fun2inv !! p = Some e → m_is_true e = false) →
  mk_karr_invariants.update_rules_converter fun2inv ps add_invariant_model_converter.new
  = add_invariant_model_converter.mk
      (filter (λ p, is_Some (fun2inv !! p)) ps)
      (omap (λ p, fun2inv !! p) ps).
Proof. intros Hnt. by rewrite update_rules_converter_spec. Qed.

Lemma update_rules_converter_records_witness :
  let p := pred 0 1 in
  let q := pred 1 1 in
  let inv := mk_ge (x_ 0) (int_numeral 0) in
  mk_karr_invariants.update_rules_converter {[ p := inv ]} [q; p]
    add_invariant_model_converter.new
  = add_invariant_model_converter.mk [p] [inv].
Proof.
  intros p q inv.
  rewrite (update_rules_converter_records {[ p := inv ]} [q; p]).
  - vm_compute. reflexivity.
  - intros p' e Hp'. apply lookup_singleton_Some in Hp' as [_ <-]. reflexivity.
Defined.

(** ** Materialising a form *)

(** X23.  The two forms are caches, except after an infeasible answer.
    Asking for a form that is valid changes nothing and does not consult
    the saturator: the answer is the same whatever the saturator is.
    Asking for the constraints returns a relation whose constraints are
    valid, whose basis, basis flag and emptiness flag are as before, and
    for which a further request no longer consults the saturator.  Asking
    for the basis leaves the constraints and their flag as they were; a
    result that is not empty has a valid basis, and a further request no
    longer consults the saturator.  After an infeasible answer nothing is
    cached: the relation is marked empty, its basis stays invalid, and a
    further request asks the saturator again, about the same
    constraints; what it answers then decides the result. *)
Theorem materialised_forms_are_cached `{hilbert_basis} (r r' : karr_relation) :
  (m_ineqs_valid r = true → ∀ hb' : hilbert_basis, @get_ineqs hb' r = Some r)
  ∧ (m_basis_valid r = true → ∀ hb' : hilbert_basis, @get_basis hb' r = Some r)
  ∧ (get_ineqs r = Some r' →
     (∀ hb' : hilbert_basis, @get_ineqs hb' r' = Some r')
     ∧ m_ineqs_valid r' = true
     ∧ m_basis r' = m_basis r ∧ m_basis_valid r' = m_basis_valid r
     ∧ m_empty r' = m_empty r)
  ∧ (get_basis r = Some r' →
     m_ineqs r' = m_ineqs r ∧ m_ineqs_valid r' = m_ineqs_valid r
     ∧ (m_empty r' = false →
        m_empty r = false ∧ m_basis_valid r' = true
        ∧ ∀ hb' : hilbert_basis, @get_basis hb' r' = Some r')
     ∧ (m_basis_valid r = false → ∀ dst, dualizeI (m_ineqs r) = Some (false, dst) →
        m_empty r' = true ∧ m_basis_valid r' = false
        ∧ ∀ hb' : hilbert_basis,
            @get_basis hb' r'
            = '(ok, dst') ← @dualizeI hb' (m_ineqs r);
              if ok : bool then Some (with_basis_valid true (with_basis dst' r'))
              else Some (with_empty true (with_basis dst' r')))).
Proof.
  unfold get_ineqs, get_basis, init_ineqs, init_basis.
  split; [by intros -> |]. split; [by intros -> |]. split.
  - destruct (m_ineqs_valid r) eqn:Hv.
    + intros [= <-]. rewrite Hv. done.
    + destruct (dualizeH (m_basis r)) as [dst|]; [| done]. intros [= <-]. done.
  - destruct (m_basis_valid r) eqn:Hv.
    + intros [= <-]. rewrite Hv. do 2 (split; [done |]). split; [| done].
      intros He. done.
    + destruct (dualizeI (m_ineqs r)) as [[[] dst]|] eqn:Hd; [| | done]; intros [= <-]; cbn.
      * do 2 (split; [done |]). split; [done |]. intros _ dst' [= _].
      * do 2 (split; [done |]). split; [done |]. intros _ dst' _.
        do 2 (split; [done |]). intros hb'. by rewrite Hv.
Qed.

Lemma materialised_forms_are_cached_witness :
  let infeasible := constant_hb (Some l_false) [] in
  let undecided := constant_hb None [] in
  let r := mk_karr_relation [int_sort] None false
             (matrix.of_rows [([1], -1, true); ([1], 0, true)]) true matrix.empty false in
  ∃ r', @get_basis infeasible r = Some r'
        ∧ m_ineqs r' = m_ineqs r ∧ m_empty r' = true ∧ m_basis_valid r' = false
        ∧ @get_basis infeasible r' = Some r'
        ∧ @get_basis undecided r' = Some (with_basis_valid true r').
Proof.
  intros infeasible undecided r.
  assert (∃ r', @get_basis infeasible r = Some r') as [r' Hg]
    by (eexists; vm_compute; reflexivity).
  destruct (@materialised_forms_are_cached infeasible r r') as (_ & _ & _ & Hb).
  destruct (Hb Hg) as (HM & _ & _ & Hagain).
  destruct (Hagain eq_refl matrix.empty ltac:(vm_compute; reflexivity))
    as (He & Hbv & Hnext).
  exists r'. split; [exact Hg |]. split; [exact HM |]. split; [exact He |].
  split; [exact Hbv |]. split.
  - rewrite (Hnext infeasible). injection Hg as <-. vm_compute. reflexivity.
  - rewrite (Hnext undecided). injection Hg as <-. vm_compute. reflexivity.
Defined.

(** ** InvariantDriver: the members after a run *)

(** X24.  What a run of the pass leaves in its members, with [cancel()]
    arriving from another thread.  Without such an arrival the run is
    [operator()] as it stands.  Whenever the run returns, the model
    converters registered before are still there, in order.  When rules
    are returned, no cancellation had arrived when the flag was tested,
    the invariant map and the pinned vector have been reset, exactly one
    converter has been registered if the context asks for model
    converters and none otherwise, and the flag is set exactly when a
    cancellation arrived after the test.  When no rules are returned
    although the [karr] flag is on and no rule has a negated atom, the
    pass was cancelled, before the call or during the first retrieval of
    invariants: the flag is set, and the invariant map and the pinned
    vector are those left by the first retrieval — they are not reset.
    And a cancellation that arrives before the test makes the run return
    no rules. *)
Theorem operator_call_members `{hilbert_basis, driver_context} (early late : bool)
    (source : rule_set) (st st' : mk_karr_invariants.t) (res : option rule_set) :
  operator_call_interleaved early late source st = Some (res, st') →
  mk_karr_invariants.operator_call source st = operator_call_interleaved false false source st
  ∧ mk_karr_invariants.model_converters st `prefix_of` mk_karr_invariants.model_converters st'
  ∧ (is_Some res →
     early = false ∧ mk_karr_invariants.m_cancel st = false
     ∧ mk_karr_invariants.m_cancel st' = late
     ∧ mk_karr_invariants.m_fun2inv st' = ∅ ∧ mk_karr_invariants.m_pinned st' = []
     ∧ length (mk_karr_invariants.model_converters st')
       = (length (mk_karr_invariants.model_converters st)
          + (if get_model_converter then 1 else 0))%nat)
  ∧ (res = None → karr = true → existsb has_negation source = false →
     ∃ st1,
       mk_karr_invariants.get_invariants (lc source) st = Some st1
       ∧ (early = true ∨ mk_karr_invariants.m_cancel st = true)
       ∧ st' = (if early then cancel st1 else st1)
       ∧ mk_karr_invariants.m_cancel st' = true
       ∧ mk_karr_invariants.m_fun2inv st' = mk_karr_invariants.m_fun2inv st1
       ∧ mk_karr_invariants.m_pinned st' = mk_karr_invariants.m_pinned st1)
  ∧ (karr = true → existsb has_negation source = false →
     early = true ∨ mk_karr_invariants.m_cancel st = true → res = None).
Proof.
  intros Hcall. split.
  { unfold mk_karr_invariants.operator_call, operator_call_interleaved.
    destruct (negb karr); [done |]. destruct (existsb has_negation source); [done |].
    destruct (mk_karr_invariants.get_invariants (lc source) st) as [st1|]; [| done].
    cbn [mbind option_bind].
    destruct (mk_karr_invariants.m_cancel st1); [done |].
    destruct (mk_karr_invariants.get_invariants (bwd (lc source)) st1) as [st2|]; [| done].
    cbn [mbind option_bind].
    by destruct (mk_karr_invariants.update_rules (lc source) st2) as [[annot st3]|]. }
  revert Hcall. unfold operator_call_interleaved. destruct karr; cbn [negb].
  2:{ intros [= <- <-]. split; [done |]. split; [by intros [? ?] |]. done. }
  destruct (existsb has_negation source).
  { intros [= <- <-]. split; [done |]. split; [by intros [? ?] |]. done. }
  destruct (mk_karr_invariants.get_invariants (lc source) st) as [st1|] eqn:Hg1; [| done].
  cbn [mbind option_bind].
  pose proof (get_invariants_loop_frame _ _ _ _ Hg1) as (_ & _ & Hc1 & Hm1).
  assert (Hflag : mk_karr_invariants.m_cancel (if early then cancel st1 else st1)
                  = early || mk_karr_invariants.m_cancel st).
  { destruct early; [done |]. by rewrite Hc1. }
  destruct (mk_karr_invariants.m_cancel (if early then cancel st1 else st1)) eqn:Hcancel.
  { intros [= <- <-]. symmetry in Hflag. apply orb_true_iff in Hflag.
    split; [destruct early; cbn; by rewrite Hm1 |].
    split; [by intros [? ?] |]. split; [| done].
    intros _ _ _. exists st1. split; [done |]. split; [tauto |]. split; [done |].
    split; [done |]. by destruct early. }
  symmetry in Hflag. apply orb_false_iff in Hflag as [-> Hst].
  destruct (mk_karr_invariants.get_invariants (bwd (lc source)) st1) as [st2|] eqn:Hg2;
    [| done].
  cbn [mbind option_bind].
  pose proof (get_invariants_loop_frame _ _ _ _ Hg2) as (_ & _ & Hc2 & Hm2).
  unfold mk_karr_invariants.update_rules.
  destruct (mapM _ (lc source)) as [dst|]; [| done]. cbn [mbind option_bind].
  intros [= <- <-].
  assert (Hlate : ∀ st3, mk_karr_invariants.m_cancel st3 = false →
                         mk_karr_invariants.m_cancel (if late then cancel st3 else st3)
                         = late) by (intros st3 H3; by destruct late).
  assert (Hconv : ∀ st3, mk_karr_invariants.model_converters
                           (if late then cancel st3 else st3)
                         = mk_karr_invariants.model_converters st3)
    by (intros st3; by destruct late).
  cbn [mk_karr_invariants.m_cancel mk_karr_invariants.model_converters
       mk_karr_invariants.m_fun2inv mk_karr_invariants.m_pinned].
  rewrite Hconv.
  destruct get_model_converter;
    cbn [mk_karr_invariants.m_cancel mk_karr_invariants.model_converters].
  - rewrite Hm2, Hm1. split; [by apply prefix_app_r |]. split.
    + intros _. do 2 (split; [done |]). split; [apply Hlate; cbn; congruence |].
      do 2 (split; [done |]). rewrite length_app. simpl. lia.
    + split; [done |]. intros _ _ [? | ?]; congruence.
  - rewrite Hm2, Hm1. split; [done |]. split.
    + intros _. do 2 (split; [done |]). split; [apply Hlate; congruence |].
      do 2 (split; [done |]). lia.
    + split; [done |]. intros _ _ [? | ?]; congruence.
Qed.

Lemma operator_call_members_witness :
  let hb := constant_hb None [] in
  let p := pred 0 1 in
  let rb := add_fact [int_numeral 2] (mk_empty [int_sort]) in
  let ctx := simple_context true (λ q, if decide (q = p) then Some rb else None) in
  let st := mk_karr_invariants.mk ∅ [] false [] in
  let r := simple_rule p [] 0 in
  (∃ rules st',
     @operator_call_interleaved hb ctx false false [r] st = Some (Some rules, st')
     ∧ mk_karr_invariants.m_fun2inv st' = ∅ ∧ mk_karr_invariants.m_pinned st' = []
     ∧ length (mk_karr_invariants.model_converters st') = 1%nat)
  ∧ (∃ st',
       @operator_call_interleaved hb ctx true false [r] st = Some (None, st')
       ∧ mk_karr_invariants.m_cancel st' = true
       ∧ is_Some (mk_karr_invariants.m_fun2inv st' !! p)).
Proof.
  intros hb p rb ctx st r. split.
  - assert (∃ rules st',
              @operator_call_interleaved hb ctx false false [r] st = Some (Some rules, st'))
      as (rules & st' & Hcall) by (eexists _, _; vm_compute; reflexivity).
    destruct (@operator_call_members hb ctx false false [r] st st' (Some rules) Hcall)
      as (_ & _ & Hres & _).
    destruct (Hres ltac:(eauto)) as (_ & _ & _ & Hmap & Hpin & Hlen).
    exists rules, st'. by repeat split.
  - assert (∃ st', @operator_call_interleaved hb ctx true false [r] st = Some (None, st'))
      as (st' & Hcall) by (eexists; vm_compute; reflexivity).
    destruct (@operator_call_members hb ctx true false [r] st st' None Hcall)
      as (_ & _ & _ & Hnone & _).
    destruct (Hnone eq_refl eq_refl eq_refl) as (st1 & Hg & _ & _ & Hflag & Hmap & _).
    exists st'. split; [exact Hcall |]. split; [exact Hflag |]. rewrite Hmap.
    injection Hg as <-. vm_compute. eauto.
Defined.

(** ** mk_rename: the meaning of a renamed row *)

Lemma qsum_Permutation l k : l ≡ₚ k → qsum l = qsum k.
Proof.
  induction 1 as [| a l k _ IH | a b l | l k m _ IH1 _ IH2]; simpl.
  - done.
  - by rewrite IH.
  - ring.
  - congruence.
Qed.

Lemma dot_qsum row : ∀ pre x,
  dot (length pre) row x
  = qsum ((λ c, default 0 ((pre ++ row) !! c) * x c) <$> seq (length pre) (length row)).
Proof.
  induction row as [|a row IH]; intros pre x; [done |].
  cbn [dot length seq fmap list_fmap qsum foldr].
  rewrite lookup_app_r by lia. rewrite Nat.sub_diag. cbn [lookup list_lookup default].
  f_equal. specialize (IH (pre ++ [a]) x). rewrite length_app in IH. simpl in IH.
  replace (length pre + 1)%nat with (S (length pre)) in IH by lia.
  rewrite IH. by rewrite <- app_assoc.
Qed.

Lemma find_in_cycle (cols : list nat) (i c : nat) :
  NoDup cols → cols !! i = Some c → list_find (λ c', c' = c) cols = Some (i, c).
Proof.
  intros Hnd Hi. apply list_find_Some. split; [done |]. split; [done |].
  intros j y Hj Hlt ->. pose proof (NoDup_lookup _ _ _ _ Hnd Hi Hj). lia.
Qed.

Lemma find_outside_cycle (cols : list nat) (c : nat) :
  c ∉ cols → list_find (λ c', c' = c) cols = None.
Proof.
  intros Hnotin. apply list_find_None. apply Forall_forall. by intros c' Hin ->.
Qed.

Lemma cycle_succ_in cols i c :
  NoDup cols → cols !! i = Some c →
  cols !! ((i + 1) mod length cols)%nat = Some (cycle_succ cols c).
Proof.
  intros Hnd Hi. unfold cycle_succ. rewrite (find_in_cycle cols i c Hnd Hi).
  assert (i < length cols)%nat by by apply lookup_lt_Some in Hi.
  destruct (lookup_lt_is_Some_2 cols ((i + 1) mod length cols)) as [c' ->]; [| done].
  apply Nat.mod_upper_bound. lia.
Qed.

Lemma cycle_pred_succ cols c : NoDup cols → cycle_pred cols (cycle_succ cols c) = c.
Proof.
  intros Hnd. destruct (decide (c ∈ cols)) as [Hin | Hnotin].
  - apply list_elem_of_lookup_1 in Hin as [i Hi].
    assert (i < length cols)%nat as Hlt by by apply lookup_lt_Some in Hi.
    pose proof (cycle_succ_in cols i c Hnd Hi) as Hs.
    unfold cycle_pred. rewrite (find_in_cycle cols _ _ Hnd Hs).
    replace (((i + 1) mod length cols + length cols - 1) mod length cols)%nat with i.
    + by rewrite Hi.
    + destruct (decide (i + 1 = length cols)%nat) as [Heq | Hne].
      * rewrite Heq, Nat.Div0.mod_same. cbn [Nat.add].
        rewrite Nat.mod_small by lia. lia.
      * rewrite (Nat.mod_small (i + 1)) by lia.
        replace (i + 1 + length cols - 1)%nat with (i + 1 * length cols)%nat by lia.
        rewrite Nat.Div0.mod_add. by rewrite Nat.mod_small by lia.
  - unfold cycle_succ. rewrite (find_outside_cycle cols c Hnotin).
    unfold cycle_pred. by rewrite (find_outside_cycle cols c Hnotin).
Qed.

Lemma cycle_succ_range n cols c :
  NoDup cols → Forall (λ c, c < n)%nat cols → (c < n)%nat → (cycle_succ cols c < n)%nat.
Proof.
  intros Hnd Hrange Hc. destruct (decide (c ∈ cols)) as [Hin | Hnotin].
  - apply list_elem_of_lookup_1 in Hin as [i Hi].
    pose proof (cycle_succ_in cols i c Hnd Hi) as Hs.
    by apply (proj1 (Forall_lookup _ _) Hrange _ _ Hs).
  - unfold cycle_succ. by rewrite (find_outside_cycle cols c Hnotin).
Qed.

Lemma cycle_succ_Permutation n cols :
  NoDup cols → Forall (λ c, c < n)%nat cols →
  cycle_succ cols <$> seq 0 n ≡ₚ seq 0 n.
Proof.
  intros Hnd Hrange. apply submseteq_length_Permutation.
  - apply NoDup_submseteq.
    + apply NoDup_fmap_2_strong; [| apply NoDup_seq].
      intros a b _ _ Hab. by rewrite <- (cycle_pred_succ cols a), Hab, cycle_pred_succ.
    + intros c (a & -> & Ha%elem_of_seq)%list_elem_of_fmap. apply elem_of_seq.
      split; [lia |]. simpl. apply cycle_succ_range; [done | done | lia].
  - by rewrite length_fmap.
Qed.

Lemma cycled_lookup cols row row' c :
  NoDup cols → cycled cols row row' → row' !! c = row !! cycle_succ cols c.
Proof.
  intros Hnd (_ & Hcyc & Hrest). destruct (decide (c ∈ cols)) as [Hin | Hnotin].
  - apply list_elem_of_lookup_1 in Hin as [i Hi].
    apply (Hcyc i); [done |]. unfold cycle_source. by apply cycle_succ_in.
  - rewrite Hrest by done. unfold cycle_succ. by rewrite (find_outside_cycle cols c Hnotin).
Qed.

Lemma cycled_dot cols row row' x :
  NoDup cols → Forall (λ c, c < length row)%nat cols → cycled cols row row' →
  dot 0 row' x = dot 0 row (λ c, x (cycle_pred cols c)).
Proof.
  intros Hnd Hrange Hcyc. pose proof Hcyc as (Hlen & _).
  pose proof (dot_qsum row' [] x) as H1.
  pose proof (dot_qsum row [] (λ c, x (cycle_pred cols c))) as H2.
  cbn [length app] in H1, H2. rewrite H1, H2, Hlen.
  rewrite <- (qsum_Permutation _ _
                (fmap_Permutation (λ c, default 0 (row !! c) * x (cycle_pred cols c)) _ _
                   (cycle_succ_Permutation (length row) cols Hnd Hrange))).
  rewrite <- list_fmap_compose. f_equal. apply list_fmap_ext. intros i c _. unfold compose.
  by rewrite (cycled_lookup cols row row' c Hnd Hcyc), cycle_pred_succ.
Qed.

(** X25.  A renamed row is the row read under a permuted valuation.  For
    a cycle of distinct columns within the row, the loop of [mk_rename]
    returns a row of the same width whose value under a valuation [x] is
    the value of the original row under the valuation that gives every
    column [c] the value [x] has at the column before [c] in the cycle:
    a renamed constraint holds under [x] exactly when the original one
    holds under that valuation. *)
Theorem rename_row_permutes_valuation (cols : list nat) (row : list rational) :
  NoDup cols → cols ≠ [] → Forall (λ c, c < length row)%nat cols →
  ∃ row',
    rename_row cols row = Some row'
    ∧ length row' = length row
    ∧ ∀ x b e, row_value row' b x = row_value row b (λ c, x (cycle_pred cols c))
               ∧ (row_holds x (row', b, e)
                  ↔ row_holds (λ c, x (cycle_pred cols c)) (row, b, e)).
Proof.
  intros Hnd Hne Hrange.
  destruct (rename_row_spec cols row Hnd Hne Hrange) as (row' & Hr & Hcyc).
  exists row'. split; [done |]. split; [apply Hcyc |].
  intros x b e.
  assert (row_value row' b x = row_value row b (λ c, x (cycle_pred cols c))) as Hv.
  { unfold row_value. by rewrite (cycled_dot cols row row' x). }
  split; [done |]. unfold row_holds. cbn [fst snd]. by rewrite Hv.
Qed.

Lemma rename_row_permutes_valuation_witness :
  ∃ row',
    rename_row [0; 1; 2]%nat [1; -1; 0] = Some row'
    ∧ ∀ x, row_holds x (row', 0, true)
           ↔ row_holds (λ c, x (cycle_pred [0; 1; 2]%nat c)) ([1; -1; 0], 0, true).
Proof.
  destruct (rename_row_permutes_valuation [0; 1; 2]%nat [1; -1; 0])
    as (row' & Hr & _ & Hsem).
  - apply NoDup_ListNoDup. repeat constructor; simpl; intuition lia.
  - discriminate.
  - repeat constructor.
  - exists row'. split; [done |]. intros x. apply Hsem.
Defined.

(** ** The three vectors of a matrix stay parallel *)

Lemma wf_empty : matrix.wf matrix.empty.
Proof. done. Qed.

Lemma wf_push M r c e : matrix.wf M → matrix.wf (matrix.push M r c e).
Proof.
  intros [Hb He]. unfold matrix.wf, matrix.push, matrix.append. simpl.
  rewrite !length_app. simpl. lia.
Qed.

Lemma wf_append M N : matrix.wf M → matrix.wf N → matrix.wf (matrix.append M N).
Proof.
  intros [Hb He] [Hb' He']. unfold matrix.wf, matrix.append. simpl.
  rewrite !length_app. lia.
Qed.

Lemma add_fact_rows_wf size f : ∀ i M, matrix.wf M → matrix.wf (add_fact_rows size i f M).
Proof.
  induction f as [|fi f IH]; intros i M Hwf; simpl; [done |].
  destruct (is_numeral fi) as [n|]; [| by apply IH].
  destruct (is_int_rational n); apply IH; [by apply wf_push | done].
Qed.

Lemma dualizeH_basis_wf sols : ∀ dst dst',
  matrix.wf dst → dualizeH_basis sols dst = Some dst' → matrix.wf dst'.
Proof.
  induction sols as [|[soln ini] sols IH]; intros dst dst' Hwf; simpl.
  - by intros [= <-].
  - destruct ini; [by apply IH |].
    destruct (last soln) as [back|]; [| done]. cbn [mbind option_bind].
    apply IH. by apply wf_push.
Qed.

Lemma dualizeH_wf `{hilbert_basis} src dst : dualizeH src = Some dst → matrix.wf dst.
Proof.
  unfold dualizeH. case_decide; [by intros [= <-] |].
  destruct (dualizeH_input src) as [hb|]; [| done]. cbn [mbind option_bind].
  destruct (saturate_guarded hb); try by intros [= <-].
  apply dualizeH_basis_wf. apply wf_empty.
Qed.

Lemma dualizeI_basis_wf sols : ∀ fi dst,
  matrix.wf dst → matrix.wf (dualizeI_basis sols fi dst).
Proof.
  induction sols as [|[soln ini] sols IH]; intros fi dst Hwf; simpl; [done |].
  destruct (ini && fi); [apply IH; by apply wf_push |].
  destruct (negb ini); apply IH; [by apply wf_push | done].
Qed.

Lemma dualizeI_wf `{hilbert_basis} src ok dst : dualizeI src = Some (ok, dst) → matrix.wf dst.
Proof.
  unfold dualizeI. destruct (dualizeI_input src) as [hb|]; [| done].
  cbn [mbind option_bind].
  destruct (saturate_guarded hb); intros [= <- <-]; try apply wf_empty.
  apply dualizeI_basis_wf, wf_empty.
Qed.

Lemma get_ineqs_wf `{hilbert_basis} r r' :
  matrices_wf r → get_ineqs r = Some r' → matrices_wf r'.
Proof.
  intros [Hi Hb]. unfold get_ineqs, init_ineqs.
  destruct (m_ineqs_valid r); [by intros [= <-] |].
  destruct (dualizeH (m_basis r)) as [dst|] eqn:Hd; [| done]. intros [= <-].
  split; [by apply dualizeH_wf in Hd | done].
Qed.

Lemma get_basis_wf `{hilbert_basis} r r' :
  matrices_wf r → get_basis r = Some r' → matrices_wf r'.
Proof.
  intros [Hi Hb]. unfold get_basis, init_basis.
  destruct (m_basis_valid r); [by intros [= <-] |].
  destruct (dualizeI (m_ineqs r)) as [[ok dst]|] eqn:Hd; [| done].
  apply dualizeI_wf in Hd. destruct ok; intros [= <-]; by split.
Qed.

Lemma filter_identical_loop_wf cols ixs : ∀ r r',
  matrices_wf r → filter_identical_loop cols ixs r = Some r' → matrices_wf r'.
Proof.
  induction ixs as [|i ixs IH]; intros r r' Hwf Hl; simpl in Hl; [by injection Hl as <- |].
  destruct (get cols 0) as [c1|]; [| done]. cbn [mbind option_bind] in Hl.
  destruct (get cols i) as [c2|]; [| done]. cbn [mbind option_bind] in Hl.
  destruct (set _ c1 1) as [row|]; [| done]. cbn [mbind option_bind] in Hl.
  destruct (set row c2 (-1)) as [row'|]; [| done]. cbn [mbind option_bind] in Hl.
  apply IH in Hl; [done |]. destruct Hwf as [Hi Hb]. split; [by apply wf_push | done].
Qed.

Lemma join_left_wf sig rows : ∀ M, matrix.wf M → matrix.wf (join_left sig rows M).
Proof.
  unfold join_left. induction rows as [|[[r c] e] rows IH]; intros M Hwf; simpl; [done |].
  apply IH. by apply wf_push.
Qed.

Lemma join_right_wf n1 sig rows : ∀ M M',
  matrix.wf M → join_right n1 sig rows M = Some M' → matrix.wf M'.
Proof.
  induction rows as [|[[r c] e] rows IH]; intros M M' Hwf; simpl; [by intros [= <-] |].
  destruct (join_shift _ _ _ _) as [row|]; [| done]. cbn [mbind option_bind].
  apply IH. by apply wf_push.
Qed.

Lemma join_pairs_wf n1 sig cols1 cols2 ixs : ∀ M M',
  matrix.wf M → join_pairs n1 sig cols1 cols2 ixs M = Some M' → matrix.wf M'.
Proof.
  induction ixs as [|i ixs IH]; intros M M' Hwf; simpl; [by intros [= <-] |].
  destruct (get cols1 i) as [c1|]; [| done]. cbn [mbind option_bind].
  destruct (set _ c1 1) as [row|]; [| done]. cbn [mbind option_bind].
  destruct (get cols2 i) as [c2|]; [| done]. cbn [mbind option_bind].
  destruct (set row _ (-1)) as [row'|]; [| done]. cbn [mbind option_bind].
  apply IH. by apply wf_push.
Qed.

Lemma project_rows_wf cols M ixs : ∀ dst dst',
  matrix.wf dst → project_rows cols M ixs dst = Some dst' → matrix.wf dst'.
Proof.
  induction ixs as [|i ixs IH]; intros dst dst' Hwf; simpl; [by intros [= <-] |].
  destruct (get (matrix.A M) i) as [r|]; [| done]. cbn [mbind option_bind].
  destruct (get (matrix.b M) i) as [c|]; [| done]. cbn [mbind option_bind].
  apply IH. by apply wf_push.
Qed.

Lemma mk_rename_matrix_wf M cols M' :
  matrix.wf M → mk_rename_matrix M cols = Some M' → matrix.wf M'.
Proof.
  intros [Hb He]. unfold mk_rename_matrix.
  destruct (mapM (rename_row cols) (matrix.A M)) as [A'|] eqn:HA; [| done].
  cbn [mbind option_bind]. intros [= <-]. apply length_mapM in HA.
  unfold matrix.wf. simpl. lia.
Qed.

Lemma union_loop_wf M ixs : ∀ N N_size N',
  matrix.wf N → union_loop M N N_size ixs = Some N' → matrix.wf N'.
Proof.
  induction ixs as [|i ixs IH]; intros N N_size N' Hwf; simpl; [by intros [= <-] |].
  destruct (find_row M N i (seq 0 N_size)) as [[]|]; [| | done]; cbn [mbind option_bind].
  - by apply IH.
  - destruct (matrix.row M i) as [[[r c] e]|]; [| done]. cbn [mbind option_bind].
    apply IH. by apply wf_push.
Qed.

(** X26.  The matrices of a relation stay well formed.  In every
    relation made by the plugin the coefficient rows, the constants and
    the tags of either matrix are vectors of one length, and every
    operator hands the property on to whatever it returns, also across
    the calls of the saturator. *)
Theorem matrices_stay_well_formed `{hilbert_basis, dl_util} :
  (∀ p s, matrices_wf (mk_full p s))
  ∧ (∀ s, matrices_wf (mk_empty s))
  ∧ (∀ f r, matrices_wf r → matrices_wf (add_fact f r))
  ∧ (∀ r r', matrices_wf r → get_ineqs r = Some r' → matrices_wf r')
  ∧ (∀ r r', matrices_wf r → get_basis r = Some r' → matrices_wf r')
  ∧ (∀ f r r', matrices_wf r → filter_equal_call f r = Some r' → matrices_wf r')
  ∧ (∀ cols r r', matrices_wf r → filter_identical_call cols r = Some r' → matrices_wf r')
  ∧ (∀ cond r r', matrices_wf r → filter_interpreted cond r = Some r' → matrices_wf r')
  ∧ (∀ self r1 r2 cols1 cols2 self' r1' r2',
       matrices_wf self → matrices_wf r1 → matrices_wf r2 →
       mk_join self r1 r2 cols1 cols2 = Some (self', r1', r2') →
       matrices_wf self' ∧ matrices_wf r1' ∧ matrices_wf r2')
  ∧ (∀ self r cols self' r',
       matrices_wf self → matrices_wf r →
       mk_project self r cols = Some (self', r') → matrices_wf self' ∧ matrices_wf r')
  ∧ (∀ self r cols r',
       matrices_wf self → matrices_wf r → mk_rename self r cols = Some r' → matrices_wf r')
  ∧ (∀ self src delta self' src' delta',
       matrices_wf self → matrices_wf src → (∀ d, delta = Some d → matrices_wf d) →
       mk_union self src delta = Some (self', src', delta') →
       matrices_wf self' ∧ matrices_wf src' ∧ ∀ d', delta' = Some d' → matrices_wf d').
Proof.
  split; [done |]. split; [done |].
  split.
  { intros f r [Hi Hb]. split; [| done]. by apply add_fact_rows_wf. }
  split; [intros r r'; apply get_ineqs_wf |].
  split; [intros r r'; apply get_basis_wf |].
  split.
  { intros f r r' Hwf. unfold filter_equal_call. destruct (m_valid f); [| by intros [= <-]].
    destruct (get_ineqs r) as [r1|] eqn:Hg; [| done]. cbn [mbind option_bind].
    destruct (set _ _ _) as [row|]; [| done]. cbn [mbind option_bind].
    intros [= <-]. destruct (get_ineqs_wf r r1 Hwf Hg) as [Hi Hb].
    split; [by apply wf_push | done]. }
  split.
  { intros cols r r' Hwf. unfold filter_identical_call.
    destruct (get_ineqs r) as [r1|] eqn:Hg; [| done]. cbn [mbind option_bind].
    apply filter_identical_loop_wf. by apply (get_ineqs_wf r). }
  split.
  { intros cond r r' Hwf. unfold filter_interpreted.
    destruct (get_ineqs r) as [r1|] eqn:Hg; [| done]. cbn [mbind option_bind].
    destruct (filter_interpreted_loop _ _ _) as [M|] eqn:HM; [| done].
    cbn [mbind option_bind]. intros [= <-].
    destruct (get_ineqs_wf r r1 Hwf Hg) as [Hi Hb].
    apply filter_interpreted_loop_sound in HM as (rows & -> & _).
    split; [| done]. apply wf_append; [done | apply wf_of_rows]. }
  split.
  { intros self r1 r2 cols1 cols2 self' r1' r2' Hself Hr1 Hr2. unfold mk_join.
    destruct (empty r1 || empty r2).
    { intros [= <- <- <-]. done. }
    destruct (get_ineqs r1) as [q1|] eqn:Hg1; [| done]. cbn [mbind option_bind].
    destruct (get_ineqs r2) as [q2|] eqn:Hg2; [| done]. cbn [mbind option_bind].
    destruct (matrix.rows (m_ineqs q1)) as [rows1|]; [| done]. cbn [mbind option_bind].
    destruct (matrix.rows (m_ineqs q2)) as [rows2|]; [| done]. cbn [mbind option_bind].
    destruct (join_right _ _ _ _) as [M1|] eqn:HM1; [| done]. cbn [mbind option_bind].
    destruct (join_pairs _ _ _ _ _ _) as [M2|] eqn:HM2; [| done]. cbn [mbind option_bind].
    intros [= <- <- <-].
    split; [| split; [by apply (get_ineqs_wf r1) | by apply (get_ineqs_wf r2)]].
    split; [| apply Hself]. cbn.
    apply join_pairs_wf in HM2; [done |].
    apply join_right_wf in HM1; [done |]. apply join_left_wf, wf_empty. }
  split.
  { intros self r cols self' r' Hself Hr. unfold mk_project.
    destruct (m_empty r).
    { intros [= <- <-]. done. }
    destruct (get_basis r) as [q|] eqn:Hg; [| done]. cbn [mbind option_bind].
    destruct (project_rows _ _ _ _) as [basis|] eqn:Hp; [| done]. cbn [mbind option_bind].
    intros [= <- <-]. split; [| by apply (get_basis_wf r)].
    split; [apply Hself |]. cbn. apply project_rows_wf in Hp; [done | apply wf_empty]. }
  split.
  { intros self r cols r' Hself [Hi Hb]. unfold mk_rename.
    assert (Happ : ∀ M, matrix.append matrix.empty M = M) by by intros [].
    destruct (empty r); [by intros [= <-] |].
    destruct (if m_ineqs_valid r then _ else _) as [ineqs|] eqn:Hin; [| done].
    cbn [mbind option_bind].
    destruct (if m_basis_valid r then _ else _) as [basis|] eqn:Hba; [| done].
    cbn [mbind option_bind].
    intros [= <-]. split; cbn.
    - destruct (m_ineqs_valid r); [| by injection Hin as <-].
      rewrite Happ in Hin. by apply mk_rename_matrix_wf in Hin.
    - destruct (m_basis_valid r); [| by injection Hba as <-].
      rewrite Happ in Hba. by apply mk_rename_matrix_wf in Hba. }
  intros self src delta self' src' delta' Hself Hsrc Hdelta. unfold mk_union.
  destruct (empty src).
  { intros [= <- <- <-]. split; [done |]. split; [done |].
    intros d'. destruct delta as [d|]; [| done]. intros [= <-]. exact (Hdelta d eq_refl). }
  destruct (get_basis src) as [q|] eqn:Hgs; [| done]. cbn [mbind option_bind].
  pose proof (get_basis_wf src q Hsrc Hgs) as [Hqi Hqb].
  destruct (empty self).
  { intros [= <- <- <-]. split; [| split; [done |]].
    - split; [apply Hself |]. cbn. by rewrite assign_eq.
    - intros d'. destruct delta as [d|]; [| done]. intros [= <-].
      split; cbn; rewrite !assign_eq; [apply Hself | done]. }
  destruct (get_basis self) as [self1|] eqn:Hgt; [| done]. cbn [mbind option_bind].
  pose proof (get_basis_wf self self1 Hself Hgt) as [Hsi Hsb].
  destruct (union_loop _ _ _ _) as [N'|] eqn:Hu; [| done]. cbn [mbind option_bind].
  apply union_loop_wf in Hu; [| done].
  intros [= <- <- <-]. split; [by split |]. split; [done |].
  intros d'. case_decide.
  - destruct delta as [d|]; [| done]. intros [= <-]. split; cbn; by rewrite assign_eq.
  - apply Hdelta.
Qed.

Lemma matrices_stay_well_formed_witness :
  let hb := constant_hb (Some l_true) [([1; -1; 0], false); ([0; 0; 1], true)] in
  let r := mk_karr_relation [int_sort; int_sort] None false
             (matrix.of_rows [([1; -1], 0, true)]) true matrix.empty false in
  ∃ r', @get_basis hb r = Some r' ∧ matrices_wf r'.
Proof.
  intros hb r.
  pose proof (@matrices_stay_well_formed hb split_and) as (_ & _ & _ & _ & Hb & _).
  eexists. split; [vm_compute; reflexivity |].
  apply (Hb r); [| vm_compute; reflexivity].
  split; [apply wf_of_rows | apply wf_empty].
Defined.
